(** * Orchestration patterns around a text-completion client (utils.ts)

    A shallow embedding of [src/utils.ts]: the tag extractor [extractXml],
    the runners [chain], [parallel], [route], the generate/evaluate [loop]
    and [FlexibleOrchestrator] ([formatPrompt], [process]), with the parts
    of the JavaScript runtime they rely on (string trimming and case
    mapping, regular-expression matching, [Promise.all], own-property
    order of objects).

    Strings.  A JavaScript string is a sequence of UTF-16 code units.  The
    development covers the strings whose code units lie in U+0000..U+00FF
    (one [ascii] per code unit, read as Latin-1) and gives the runtime
    functions their ECMAScript meaning on that range. *)

From Stdlib Require Import Ascii String NArith Bool Lia.
From stdpp Require Import base option list strings.

Local Open Scope N_scope.

(** ** Strings *)

Module JsString.

Definition jsstring := list ascii.

(** A string literal of the source. *)
Definition lit (x : string) : jsstring := list_ascii_of_string x.

Definition code (c : ascii) : N := N_of_ascii c.
Definition chr (n : N) : ascii := ascii_of_N n.

Definition nl : jsstring := [chr 10].

(** WhiteSpace and LineTerminator code points below U+0100: TAB, LF, VT, FF,
    CR, SP and NBSP.  [String.prototype.trim] strips them and the class
    escape [\s] matches them. *)
Definition whitespace_chars : list ascii := map chr [9; 10; 11; 12; 13; 32; 160].

Definition isWhiteSpace (c : ascii) : bool :=
  existsb (fun a => code a =? code c) whitespace_chars.

Definition isLineTerminator (c : ascii) : bool :=
  (code c =? 10) || (code c =? 13).

Fixpoint trimStart (s : jsstring) : jsstring :=
  match s with
  | c :: s' => if isWhiteSpace c then trimStart s' else s
  | [] => []
  end.

Definition trimEnd (s : jsstring) : jsstring := rev (trimStart (rev s)).

Definition trim (s : jsstring) : jsstring := trimEnd (trimStart s).

(** [String.prototype.toLowerCase] on one code unit of the range: the
    letters A-Z and U+00C0..U+00DE (without the multiplication sign U+00D7)
    move up by 32. *)
Definition lowerChar (c : ascii) : ascii :=
  let n := code c in
  if ((65 <=? n) && (n <=? 90)) || ((192 <=? n) && (n <=? 222) && negb (n =? 215))
  then chr (n + 32) else c.

Definition toLowerCase (s : jsstring) : jsstring := map lowerChar s.

(** [String.prototype.toUpperCase] on one code unit of the range.  The
    result is a list of code units: sharp s (U+00DF) becomes "SS", and the
    micro sign (U+00B5) and y with diaeresis (U+00FF) leave the range
    (U+039C and U+0178). *)
Definition upperChar (c : ascii) : list N :=
  let n := code c in
  if (97 <=? n) && (n <=? 122) then [n - 32]
  else if (224 <=? n) && (n <=? 254) && negb (n =? 247) then [n - 32]
  else if n =? 223 then [83; 83]
  else if n =? 181 then [924]
  else if n =? 255 then [376]
  else [n].

Definition code_units (s : jsstring) : list N := map code s.

Definition toUpperCase (s : jsstring) : list N := concat (map upperChar s).

(** [Array.prototype.join]. *)
Fixpoint join (sep : jsstring) (l : list jsstring) : jsstring :=
  match l with
  | [] => []
  | [x] => x
  | x :: l' => x ++ sep ++ join sep l'
  end.

(** Truthiness of a string: the empty string is falsy. *)
Definition truthy (s : jsstring) : bool :=
  match s with [] => false | _ :: _ => true end.

Definition eqb (a b : jsstring) : bool :=
  bool_decide (a = b).

End JsString.

Export JsString.

(** ** Regular expressions

    The patterns of the source are sequences of single-character terms
    (a literal, [.], [\s], a negated class), each taken once or under a
    greedy or lazy [*] or [+], some of them inside a capture group; a key
    can bring the assertion [$] into the pattern [formatPrompt] builds
    from it. *)

Module RegExp.

Inductive CharSet :=
| CsChar (c : ascii)         (* a pattern character, or an escaped syntax character *)
| CsDot                      (* . *)
| CsSpace                    (* \s *)
| CsNot (cs : list ascii).   (* [^...] *)

Inductive Quantifier :=
| QOne
| QStar (greedy : bool)
| QPlus (greedy : bool).

Inductive Term :=
| Atom (cs : CharSet) (q : Quantifier)
| Group (cs : CharSet) (q : Quantifier)    (* ( cs q ) *)
| AssertEnd.                               (* $, without the flag m *)

Record RegExp := {
  source : list Term;
  global : bool;
  ignoreCase : bool;
  dotAll : bool
}.

(** Canonicalize of the ECMAScript pattern semantics (no unicode flag):
    the upper-case form when that is a single code unit, unless it would
    map a non-ASCII code unit to an ASCII one. *)
Definition Canonicalize (ic : bool) (c : ascii) : N :=
  if ic then
    match upperChar c with
    | [cu] => if (128 <=? code c) && (cu <? 128) then code c else cu
    | _ => code c
    end
  else code c.

Definition same_char (ic : bool) (a c : ascii) : bool :=
  Canonicalize ic a =? Canonicalize ic c.

(** CharacterSetMatcher: does the input character [c] belong to the set? *)
Definition CharacterSetMatcher (ic dotall : bool) (cs : CharSet) (c : ascii) : bool :=
  match cs with
  | CsChar a => same_char ic a c
  | CsDot => dotall || negb (isLineTerminator c)
  | CsSpace => existsb (fun a => same_char ic a c) whitespace_chars
  | CsNot l => negb (existsb (fun a => same_char ic a c) l)
  end.

Section Matcher.
Context {X : Type}.
Variable test : ascii -> bool.

(** RepeatMatcher, lazy: try the continuation first, then one more
    character.  The result carries the characters the repetition took. *)
Fixpoint repeat_lazy (k : jsstring -> option X) (s : jsstring) : option (jsstring * X) :=
  match k s with
  | Some r => Some ([], r)
  | None =>
      match s with
      | c :: s' =>
          if test c then
            match repeat_lazy k s' with
            | Some (w, r) => Some (c :: w, r)
            | None => None
            end
          else None
      | [] => None
      end
  end.

(** RepeatMatcher, greedy: one more character first, the continuation
    when that fails. *)
Fixpoint repeat_greedy (k : jsstring -> option X) (s : jsstring) : option (jsstring * X) :=
  match s with
  | c :: s' =>
      if test c then
        match repeat_greedy k s' with
        | Some (w, r) => Some (c :: w, r)
        | None => option_map (pair []) (k s)
        end
      else option_map (pair []) (k s)
  | [] => option_map (pair []) (k [])
  end.

Definition repeat (greedy : bool) := if greedy then repeat_greedy else repeat_lazy.

Definition one_then (k : jsstring -> option (jsstring * X)) (s : jsstring) : option (jsstring * X) :=
  match s with
  | c :: s' =>
      if test c then
        match k s' with
        | Some (w, r) => Some (c :: w, r)
        | None => None
        end
      else None
  | [] => None
  end.

Definition quantified (q : Quantifier) (k : jsstring -> option X) : jsstring -> option (jsstring * X) :=
  match q with
  | QOne => one_then (fun s => option_map (pair []) (k s))
  | QStar g => repeat g k
  | QPlus g => one_then (repeat g k)
  end.
End Matcher.

(** The result of matching a pattern at the start of an input: the matched
    text, the captures in order, and the input left over. *)
Definition MatchState : Type := jsstring * list jsstring * jsstring.

Fixpoint matcher (ic dotall : bool) (p : list Term) (s : jsstring) : option MatchState :=
  match p with
  | [] => Some ([], [], s)
  | Atom cs q :: p' =>
      match quantified (CharacterSetMatcher ic dotall cs) q (matcher ic dotall p') s with
      | Some (w, (mt, caps, rest)) => Some (w ++ mt, caps, rest)
      | None => None
      end
  | Group cs q :: p' =>
      match quantified (CharacterSetMatcher ic dotall cs) q (matcher ic dotall p') s with
      | Some (w, (mt, caps, rest)) => Some (w ++ mt, w :: caps, rest)
      | None => None
      end
  | AssertEnd :: p' =>
      match s with
      | [] => matcher ic dotall p' []
      | _ :: _ => None
      end
  end.

(** A successful match inside an input string. *)
Record Match := {
  index : nat;                 (* where the match starts *)
  matched : jsstring;          (* match[0] *)
  captures : list jsstring;    (* match[1], match[2], ... *)
  after : jsstring             (* the input behind the match *)
}.

(** The leftmost start position at or after [i] (the start of [s]) where
    the pattern matches. *)
Fixpoint search (ic dotall : bool) (p : list Term) (i : nat) (s : jsstring) : option Match :=
  match matcher ic dotall p s with
  | Some (mt, caps, rest) =>
      Some {| index := i; matched := mt; captures := caps; after := rest |}
  | None =>
      match s with
      | _ :: s' => search ic dotall p (S i) s'
      | [] => None
      end
  end.

(** RegExpBuiltinExec: the match found from [lastIndex] on, and the new
    [lastIndex].  Without the global flag [lastIndex] is read as 0 and left
    alone. *)
Definition exec (R : RegExp) (S : jsstring) (lastIndex : nat) : option Match * nat :=
  let start := if global R then lastIndex else 0%nat in
  if bool_decide (start <= length S)%nat then
    match search (ignoreCase R) (dotAll R) (source R) start (drop start S) with
    | Some r => (Some r, if global R then (index r + length (matched r))%nat else lastIndex)
    | None => (None, if global R then 0%nat else lastIndex)
    end
  else (None, 0%nat).

(** The exec loop of [String.prototype.match] and [String.prototype.replace]
    with a global pattern: all matches from [lastIndex] on, stepping over an
    empty match by one position.  [fuel] bounds the number of exec calls. *)
Fixpoint exec_all (fuel : nat) (R : RegExp) (S : jsstring) (lastIndex : nat) : list Match :=
  match fuel with
  | O => []
  | Datatypes.S fuel' =>
      match exec R S lastIndex with
      | (Some r, lastIndex') =>
          r :: exec_all fuel' R S
                 (if truthy (matched r) then lastIndex' else Datatypes.S lastIndex')
      | (None, _) => []
      end
  end.

(** [S.match(R)]: for a pattern without the global flag the first match
    (whole text, then the captures); for a global pattern the texts of all
    matches; [None] is [null]. *)
Definition String_match (S : jsstring) (R : RegExp) : option (list jsstring) :=
  if global R then
    match exec_all (length S + 2) R S 0 with
    | [] => None
    | ms => Some (map matched ms)
    end
  else
    match fst (exec R S 0) with
    | Some r => Some (matched r :: captures r)
    | None => None
    end.

Definition is_digit (c : ascii) : bool := (48 <=? code c) && (code c <=? 57).
Definition digit_value (c : ascii) : nat := N.to_nat (code c - 48).

(** GetSubstitution: expand the [$] patterns of a replacement text for one
    match ([str] is the whole input, the pattern has no named groups). *)
Fixpoint GetSubstitution (r : Match) (str : jsstring) (template : jsstring) : jsstring :=
  match template with
  | [] => []
  | c :: t1 =>
      if negb (code c =? 36) then c :: GetSubstitution r str t1
      else
        match t1 with
        | [] => [c]
        | d :: t2 =>
            if code d =? 36 then d :: GetSubstitution r str t2                    (* $$ *)
            else if code d =? 38 then matched r ++ GetSubstitution r str t2       (* $& *)
            else if code d =? 96 then take (index r) str ++ GetSubstitution r str t2   (* $` *)
            else if code d =? 39 then after r ++ GetSubstitution r str t2         (* $' *)
            else if is_digit d then
              let m := length (captures r) in
              let one := digit_value d in
              match t2 with
              | e :: t3 =>
                  let two := (10 * one + digit_value e)%nat in
                  if is_digit e && bool_decide (1 <= two <= m)%nat
                  then default [] (captures r !! pred two) ++ GetSubstitution r str t3
                  else if bool_decide (1 <= one <= m)%nat
                  then default [] (captures r !! pred one) ++ GetSubstitution r str t2
                  else c :: d :: GetSubstitution r str t2
              | [] =>
                  if bool_decide (1 <= one <= m)%nat
                  then default [] (captures r !! pred one)
                  else [c; d]
              end
            else c :: GetSubstitution r str t1
        end
  end.

(** The text of [S] with every match of the list replaced: the pieces of
    [S] between the matches, from position [pos] on, and the expanded
    replacement for each match. *)
Fixpoint replace_matches (S : jsstring) (replaceValue : jsstring) (pos : nat) (ms : list Match) : jsstring :=
  match ms with
  | [] => drop pos S
  | r :: ms' =>
      if bool_decide (pos <= index r)%nat then
        take (index r - pos) (drop pos S) ++ GetSubstitution r S replaceValue
          ++ replace_matches S replaceValue (index r + length (matched r)) ms'
      else replace_matches S replaceValue pos ms'
  end.

(** [S.replace(R, replaceValue)] with a replacement string. *)
Definition String_replace (S : jsstring) (R : RegExp) (replaceValue : jsstring) : jsstring :=
  let ms := if global R then exec_all (length S + 2) R S 0
            else match fst (exec R S 0) with Some r => [r] | None => [] end in
  replace_matches S replaceValue 0 ms.

(** The pattern that matches the text [w] literally. *)
Definition literal (w : jsstring) : list Term := map (fun c => Atom (CsChar c) QOne) w.

End RegExp.

Export RegExp.

Local Open Scope nat_scope.

(** ** Objects used as string-keyed records *)

Module JsObject.

(** An ordinary object with string values, given by its own enumerable
    properties in the order [Object.keys] and [for...in] list them:
    array-index keys in ascending numeric order, then the other keys in
    creation order. *)
Definition js_object := list (jsstring * jsstring).

Fixpoint digits_value (acc : N) (k : jsstring) : N :=
  match k with
  | [] => acc
  | c :: k' => digits_value (10 * acc + (code c - 48))%N k'
  end.

(** An array index: the canonical decimal form of an integer below 2^32 - 1. *)
Definition array_index (k : jsstring) : option N :=
  match k with
  | [] => None
  | c :: k' =>
      if forallb is_digit k
         && (negb (code c =? 48)%N || negb (truthy k'))
         && bool_decide (length k <= 10)
         && (digits_value 0 k <? 4294967295)%N
      then Some (digits_value 0 k) else None
  end.

(** Where a new key goes in the own-property order. *)
Fixpoint insert_key (k v : jsstring) (o : js_object) : js_object :=
  match o with
  | [] => [(k, v)]
  | (k', v') :: o' =>
      match array_index k, array_index k' with
      | Some n, Some n' => if (n <? n')%N then (k, v) :: o else (k', v') :: insert_key k v o'
      | Some _, None => (k, v) :: o
      | None, _ => (k', v') :: insert_key k v o'
      end
  end.

Fixpoint own (o : js_object) (k : jsstring) : option jsstring :=
  match o with
  | [] => None
  | (k', v) :: o' => if eqb k' k then Some v else own o' k
  end.

Fixpoint overwrite (k v : jsstring) (o : js_object) : js_object :=
  match o with
  | [] => []
  | (k', v') :: o' => if eqb k' k then (k', v) :: o' else (k', v') :: overwrite k v o'
  end.

(** CreateDataProperty: an existing key keeps its place. *)
Definition set (o : js_object) (k v : jsstring) : js_object :=
  match own o k with
  | Some _ => overwrite k v o
  | None => insert_key k v o
  end.

(** The object literal [{ k1: v1, ..., ...spread }]. *)
Definition object_literal (props : list (jsstring * jsstring)) (spread : js_object) : js_object :=
  fold_left (fun o kv => set o (fst kv) (snd kv)) (props ++ spread) [].

(** What [o[k]] evaluates to. *)
Inductive property :=
| Own (v : jsstring)          (* an own property *)
| Inherited (name : jsstring) (* a member of Object.prototype *)
| Undefined.

(** The members of Object.prototype; all are functions but [__proto__],
    which reads the prototype object itself. *)
Definition Object_prototype_names : list jsstring :=
  map lit ["constructor"; "__defineGetter__"; "__defineSetter__"; "hasOwnProperty";
           "__lookupGetter__"; "__lookupSetter__"; "isPrototypeOf";
           "propertyIsEnumerable"; "toString"; "valueOf"; "__proto__";
           "toLocaleString"]%string.

Definition get (o : js_object) (k : jsstring) : property :=
  match own o k with
  | Some v => Own v
  | None => if bool_decide (k ∈ Object_prototype_names) then Inherited k else Undefined
  end.

(** ToBoolean: objects and functions are truthy, [undefined] is falsy. *)
Definition property_truthy (p : property) : bool :=
  match p with
  | Own v => truthy v
  | Inherited _ => true
  | Undefined => false
  end.

(** ToString, as a template literal applies it. *)
Definition property_to_string (p : property) : jsstring :=
  match p with
  | Own v => v
  | Inherited name =>
      if eqb name (lit "__proto__") then lit "[object Object]"
      else if eqb name (lit "constructor") then lit "function Object() { [native code] }"
      else lit "function " ++ name ++ lit "() { [native code] }"
  | Undefined => lit "undefined"
  end.

End JsObject.

Export JsObject.

(** ** The completion client and asynchronous functions *)

Module Async.

(** A thrown value: an [Error] with its message, or the [SyntaxError] that
    [new RegExp] throws for a pattern text that is not well formed (its
    message is the engine's own and is left out). *)
Inductive exn :=
| Error (message : jsstring)
| SyntaxError (pattern : jsstring).

(** The argument of [genAI.models.generateContent]; [contents] is the text
    of the single user part. *)
Record GenerateContentParameters := {
  model : jsstring;
  systemInstruction : option jsstring;
  contents : jsstring
}.

(** How an awaited promise comes back: with a value, with a thrown
    rejection reason, or never. *)
Inductive Completion (A : Type) :=
| Return (a : A)
| Throw (e : exn)
| Pending.
Arguments Return {A} a.
Arguments Throw {A} e.
Arguments Pending {A}.

(** The state threaded through the program is the log of requests sent to
    the client so far.  An asynchronous function, run from a log, gives the
    log it leaves and the completion of the promise it returned. *)
Definition Log := list GenerateContentParameters.
Definition M (A : Type) : Type := Log -> Log * Completion A.

Definition ret {A} (a : A) : M A := fun log => (log, Return a).

Definition throw {A} (e : exn) : M A := fun log => (log, Throw e).

Definition bind {A B} (c : M A) (k : A -> M B) : M B :=
  fun log =>
    match c log with
    | (log', Return a) => k a log'
    | (log', Throw e) => (log', Throw e)
    | (log', Pending) => (log', Pending)
    end.

(** A synchronous computation that may throw, inside an asynchronous one. *)
Definition lift {A} (r : exn + A) : M A :=
  match r with
  | inl e => throw e
  | inr a => ret a
  end.

(** [l.map(f)] for an asynchronous [f]: every call runs, in order, up to
    its request; the list holds the completions of the promises. *)
Fixpoint map_async {A B} (f : A -> M B) (l : list A) (log : Log) : Log * list (Completion B) :=
  match l with
  | [] => (log, [])
  | x :: l' =>
      let (log1, p) := f x log in
      let (log2, ps) := map_async f l' log1 in
      (log2, p :: ps)
  end.

(** The state of one [Promise.all] call: the [values] list with its
    [undefined] holes, [remainingElementsCount], the element promises that
    have settled, and the state of the promise [Promise.all] returned. *)
Record AllState (A : Type) := {
  values : list (option A);
  remainingElementsCount : nat;
  settled : list nat;
  aggregate : Completion (list (option A))
}.
Arguments values {A} _.
Arguments remainingElementsCount {A} _.
Arguments settled {A} _.
Arguments aggregate {A} _.

(** Resolving or rejecting a promise that is already settled does nothing. *)
Definition settle_with {A} (now : Completion A) (c : Completion A) : Completion A :=
  match now with
  | Pending => c
  | _ => now
  end.

(** The element promise [i] settles: its resolve-element function stores
    the value and counts down, or the aggregate is rejected. *)
Definition settle {A} (promises : list (Completion A)) (st : AllState A) (i : nat) : AllState A :=
  if bool_decide (i ∈ settled st) then st
  else
    match promises !! i with
    | Some (Return x) =>
        let vs := <[i := Some x]> (values st) in
        let n := pred (remainingElementsCount st) in
        {| values := vs; remainingElementsCount := n; settled := i :: settled st;
           aggregate := if bool_decide (n = 0)
                        then settle_with (aggregate st) (Return vs) else aggregate st |}
    | Some (Throw e) =>
        {| values := values st; remainingElementsCount := remainingElementsCount st;
           settled := i :: settled st;
           aggregate := settle_with (aggregate st) (Throw e) |}
    | Some Pending | None => st
    end.

(** [await Promise.all(promises)].  The element promises settle in the
    order [order] lists them; those it leaves out settle afterwards, in
    index order. *)
Definition Promise_all {A} (promises : list (Completion A)) (order : list nat)
  : Completion (list (option A)) :=
  let n := length promises in
  let init := {| values := replicate n None; remainingElementsCount := n; settled := [];
                 aggregate := if bool_decide (n = 0) then Return [] else Pending |} in
  aggregate (fold_left (settle promises) (order ++ seq 0 n) init).

(** [while (true) { body }], where the body either goes round again with a
    new state or returns; [None] when [fuel] rounds were not enough. *)
Fixpoint while_true {S R} (fuel : nat) (body : S -> M (S + R)) (st : S) (log : Log)
  : option (Log * Completion R) :=
  match fuel with
  | O => None
  | Datatypes.S fuel' =>
      match body st log with
      | (log', Return (inl st')) => while_true fuel' body st' log'
      | (log', Return (inr r)) => Some (log', Return r)
      | (log', Throw e) => Some (log', Throw e)
      | (log', Pending) => Some (log', Pending)
      end
  end.

End Async.

Export Async.

Notation "'let*' x ':=' c 'in' k" := (bind c (fun x => k))
  (at level 10, x pattern, c at level 100, k at level 200).

(** ** utils.ts

    The [console.log] and [console.error] calls of the source write to the
    console only and are left out. *)

Module Utils.

(** [extractXml]: the tag name with its syntax characters escaped is a
    sequence of literal characters; the pattern is
    [<tag>(.+?)</tag>] with the flags [i] and [s]. *)
Definition extractXml_regex (tag : jsstring) : RegExp :=
  {| source := literal (lit "<" ++ tag ++ lit ">")
               ++ [Group CsDot (QPlus false)]
               ++ literal (lit "</" ++ tag ++ lit ">");
     global := false; ignoreCase := true; dotAll := true |}.

Definition extractXml (text tag : jsstring) : jsstring :=
  match String_match text (extractXml_regex tag) with
  | Some m => match m !! 1 with Some c => trim c | None => [] end
  | None => []
  end.

Definition default_model : jsstring := lit "gemini-2.5-pro-preview-03-25".

Definition no_text_message : jsstring :=
  lit "Failed to get valid response text from the model. Response structure might be missing or empty.".

Record ChainOfThoughtItem := { thoughts : jsstring; result : jsstring }.

Record TaskInfo := { type : jsstring; description : jsstring }.

Record WorkerResult := { w_type : jsstring; w_description : jsstring; w_result : jsstring }.

Record OrchestratorOutput := { analysis : jsstring; worker_results : list (option WorkerResult) }.

Record LoopState := {
  memory : list jsstring;
  chainOfThought : list ChainOfThoughtItem;
  current : ChainOfThoughtItem      (* the variables [thoughts] and [result] *)
}.

Record FlexibleOrchestrator := { orchestratorPrompt : jsstring; workerPrompt : jsstring }.

(** The characters with a meaning in a pattern (SyntaxCharacter). *)
Definition syntax_characters : jsstring := lit "^$\.*+?()[]{}|".

Definition plain_key (key : jsstring) : bool :=
  forallb (fun c => negb (bool_decide (c ∈ syntax_characters))) key.

(** A character of the key, where it stands in the pattern: the key is
    put between [\{] and [\}] as it is, without escaping, so a dot is the
    pattern that matches every character but a line terminator and a
    dollar sign the assertion that the input ends; a character without a
    meaning in patterns matches itself. *)
Definition key_term (c : ascii) : Term :=
  if bool_decide (c = "."%char) then Atom CsDot QOne
  else if bool_decide (c = "$"%char) then AssertEnd
  else Atom (CsChar c) QOne.

(** The key opens a group and nothing closes or escapes the parenthesis:
    beside opening parentheses it holds dots, dollar signs and characters
    without a meaning in patterns only. *)
Definition unterminated_group (key : jsstring) : bool :=
  bool_decide ("("%char ∈ key)
  && forallb (fun c => bool_decide (c ∈ lit "(.$")
                       || negb (bool_decide (c ∈ syntax_characters))) key.

(** The pattern [\{key\}] with the flag [g], for a key whose only syntax
    characters are dots and dollar signs. *)
Definition placeholder_of_key (key : jsstring) : RegExp :=
  {| source := literal (lit "{") ++ map key_term key ++ literal (lit "}");
     global := true; ignoreCase := false; dotAll := false |}.

(** [new RegExp(`\\{${key}\\}`, 'g')].  The constructor throws a
    SyntaxError for a group that is not terminated.  This covers the keys
    whose syntax characters are dots, dollar signs and opening
    parentheses.  A key with another syntax character is outside the
    model, which takes such a character literally; the statements below
    exclude these keys. *)
Definition new_RegExp_of_key (key : jsstring) : exn + RegExp :=
  if unterminated_group key then inl (SyntaxError (lit "\{" ++ key ++ lit "\}"))
  else inr (placeholder_of_key key).

(** [/\{[^{}]+\}/g] *)
Definition remaining_placeholder : RegExp :=
  {| source := [Atom (CsChar "{") QOne; Atom (CsNot ["{"; "}"]%char) (QPlus true);
                Atom (CsChar "}") QOne];
     global := true; ignoreCase := false; dotAll := false |}.

(** The [for (const key in kwargs)] loop of [formatPrompt]: the pattern
    of a key is built when its turn comes, so the keys before a key
    whose pattern is not well formed have been replaced when the
    constructor throws. *)
Fixpoint replace_placeholders (formatted : jsstring) (kwargs : js_object) : exn + jsstring :=
  match kwargs with
  | [] => inr formatted
  | (key, value) :: kwargs' =>
      match new_RegExp_of_key key with
      | inl e => inl e
      | inr regex => replace_placeholders (String_replace formatted regex value) kwargs'
      end
  end.

(** The text the loop leaves when the pattern of every key is well
    formed. *)
Definition substitute (template : jsstring) (kwargs : js_object) : jsstring :=
  fold_left (fun formatted kv => String_replace formatted (placeholder_of_key (fst kv)) (snd kv))
            kwargs template.

Definition formatPrompt (template : jsstring) (kwargs : js_object) : exn + jsstring :=
  match replace_placeholders template kwargs with
  | inl e => inl e
  | inr formatted =>
      match String_match formatted remaining_placeholder with
      | Some remainingPlaceholders =>
          inl (Error (lit "Missing required prompt variable(s): "
                      ++ join (lit ", ") remainingPlaceholders))
      | None => inr formatted
      end
  end.

(** [/<task>\s*<type>(.*?)<\/type>\s*<description>(.*?)<\/description>\s*<\/task>/gis] *)
Definition taskRegex : RegExp :=
  {| source := literal (lit "<task>") ++ [Atom CsSpace (QStar true)]
               ++ literal (lit "<type>") ++ [Group CsDot (QStar false)]
               ++ literal (lit "</type>") ++ [Atom CsSpace (QStar true)]
               ++ literal (lit "<description>") ++ [Group CsDot (QStar false)]
               ++ literal (lit "</description>") ++ [Atom CsSpace (QStar true)]
               ++ literal (lit "</task>");
     global := true; ignoreCase := true; dotAll := true |}.

(** The body of the [while ((match = taskRegex.exec(tasksXml)) !== null)]
    loop. *)
Definition push_task (subTasks : list TaskInfo) (m : Match) : list TaskInfo :=
  let m1 := default [] (captures m !! 0) in
  let m2 := default [] (captures m !! 1) in
  if truthy m1 && truthy m2
  then subTasks ++ [{| type := trim m1; description := trim m2 |}]
  else subTasks.

(** The loop itself, from [lastIndex]; every match of [taskRegex] is at
    least 46 characters long, so [fuel] rounds are enough when [fuel]
    exceeds the length of the text. *)
Fixpoint parse_loop (fuel : nat) (tasksXml : jsstring) (lastIndex : nat)
    (subTasks : list TaskInfo) : list TaskInfo :=
  match fuel with
  | O => subTasks
  | S fuel' =>
      match exec taskRegex tasksXml lastIndex with
      | (Some m, lastIndex') => parse_loop fuel' tasksXml lastIndex' (push_task subTasks m)
      | (None, _) => subTasks
      end
  end.

Definition parse_tasks (tasksXml : jsstring) : list TaskInfo :=
  parse_loop (S (length tasksXml)) tasksXml 0 [].

Section Client.

(** The client, [genAI.models.generateContent]: from the requests made so
    far and the new request, a rejection, or a response whose first
    candidate's first part has the given text, if it has one. *)
Variable generateContent : Log -> GenerateContentParameters -> exn + option jsstring.

Definition llmCall (prompt systemPrompt modelName : jsstring) : M jsstring :=
  fun log =>
    let request := {| model := modelName;
                      systemInstruction := if truthy systemPrompt then Some systemPrompt else None;
                      contents := prompt |} in
    (log ++ [request],
     match generateContent log request with
     | inr (Some text) => if truthy text then Return text else Throw (Error no_text_message)
     | inr None => Throw (Error no_text_message)
     | inl error => Throw error
     end).

(** [llmCall(prompt)], with the default parameters. *)
Definition llmCall1 (prompt : jsstring) : M jsstring := llmCall prompt [] default_model.

Fixpoint chain (input : jsstring) (prompts : list jsstring) : M jsstring :=
  match prompts with
  | [] => ret input
  | prompt :: prompts' =>
      let* result := llmCall1 (prompt ++ nl ++ lit "Input: " ++ input) in
      chain result prompts'
  end.

(** [order] is the order in which the calls complete. *)
Definition parallel (prompt : jsstring) (inputs : list jsstring) (order : list nat)
  : M (list (option jsstring)) :=
  fun log =>
    let (log', promises) :=
      map_async (fun input => llmCall1 (prompt ++ nl ++ lit "Input: " ++ input)) inputs log in
    (log', Promise_all promises order).

Definition selectorPrompt (routeKeys : list jsstring) (input : jsstring) : jsstring :=
  trim (nl ++ lit "Analyze the input and select the most appropriate support team from these options: "
           ++ join (lit ", ") routeKeys ++ nl
        ++ lit "First explain your reasoning, then provide your selection in this XML format:" ++ nl
        ++ nl
        ++ lit "<reasoning>" ++ nl
        ++ lit "Brief explanation of why this ticket should be routed to a specific team." ++ nl
        ++ lit "Consider key terms, user intent, and urgency level." ++ nl
        ++ lit "</reasoning>" ++ nl
        ++ nl
        ++ lit "<selection>" ++ nl
        ++ lit "The chosen team name" ++ nl
        ++ lit "</selection>" ++ nl
        ++ nl
        ++ lit "Input: " ++ input).

Definition invalid_route (routeKey : jsstring) : exn :=
  Error (lit "Selected route " ++ [chr 34] ++ routeKey ++ [chr 34] ++ lit " is invalid.").

Definition route (input : jsstring) (routes : js_object) : M jsstring :=
  let routeKeys := map fst routes in
  let* routeResponse := llmCall1 (selectorPrompt routeKeys input) in
  let reasoning := extractXml routeResponse (lit "reasoning") in
  let routeKey := toLowerCase (trim (extractXml routeResponse (lit "selection"))) in
  let selectedPrompt := get routes routeKey in
  if negb (property_truthy selectedPrompt) then throw (invalid_route routeKey)
  else llmCall1 (property_to_string selectedPrompt ++ nl ++ lit "Input: " ++ input).

Definition generate (prompt task context : jsstring) : M (jsstring * jsstring) :=
  let fullPrompt :=
    if truthy context
    then prompt ++ nl ++ context ++ nl ++ lit "Task: " ++ task
    else prompt ++ nl ++ lit "Task: " ++ task in
  let* response := llmCall1 fullPrompt in
  ret (extractXml response (lit "thoughts"), extractXml response (lit "response")).

Definition evaluate (prompt content task : jsstring) : M (jsstring * jsstring) :=
  let fullPrompt := prompt ++ nl ++ lit "Original task: " ++ task ++ nl
                    ++ lit "Content to evaluate: " ++ content in
  let* response := llmCall1 fullPrompt in
  ret (extractXml response (lit "evaluation"), extractXml response (lit "feedback")).

(** One round of the [while (true)] of [loop]. *)
Definition loop_body (task evaluatorPrompt generatorPrompt : jsstring) (st : LoopState)
  : M (LoopState + (jsstring * list ChainOfThoughtItem)) :=
  let* (evaluation, feedback) := evaluate evaluatorPrompt (result (current st)) task in
  if bool_decide (toUpperCase evaluation = code_units (lit "PASS"))
  then ret (inr (result (current st), chainOfThought st))
  else
    let context :=
      join nl ([lit "Previous attempts:"]
               ++ map (fun m => lit "- " ++ m) (memory st)
               ++ [nl ++ lit "Feedback: " ++ feedback]) in
    let* (thoughts, result) := generate generatorPrompt task context in
    let item := {| thoughts := thoughts; result := result |} in
    ret (inl {| memory := memory st ++ [result];
                chainOfThought := chainOfThought st ++ [item];
                current := item |}).

(** [loop]; [None] when [fuel] rounds of the [while] were not enough. *)
Definition loop (fuel : nat) (task evaluatorPrompt generatorPrompt : jsstring) (log : Log)
  : option (Log * Completion (jsstring * list ChainOfThoughtItem)) :=
  match generate generatorPrompt task [] log with
  | (log', Return (thoughts, result)) =>
      let item := {| thoughts := thoughts; result := result |} in
      while_true fuel (loop_body task evaluatorPrompt generatorPrompt)
        {| memory := [result]; chainOfThought := [item]; current := item |} log'
  | (log', Throw e) => Some (log', Throw e)
  | (log', Pending) => Some (log', Pending)
  end.

(** The asynchronous function [process] maps over the subtasks. *)
Definition worker (this : FlexibleOrchestrator) (task : jsstring) (effectiveContext : js_object)
    (taskInfo : TaskInfo) : M WorkerResult :=
  let* workerInput :=
    lift (formatPrompt (workerPrompt this)
            (object_literal [(lit "original_task", task);
                             (lit "task_type", type taskInfo);
                             (lit "task_description", description taskInfo)]
               effectiveContext)) in
  let* workerResponse := llmCall1 workerInput in
  let result := extractXml workerResponse (lit "response") in
  ret {| w_type := type taskInfo; w_description := description taskInfo; w_result := result |}.

(** [order] is the order in which the worker promises settle. *)
Definition process (this : FlexibleOrchestrator) (task : jsstring) (context : option js_object)
    (order : list nat) : M OrchestratorOutput :=
  let effectiveContext := default [] context in
  let* orchestratorInput :=
    lift (formatPrompt (orchestratorPrompt this)
            (object_literal [(lit "task", task)] effectiveContext)) in
  let* orchestratorResponse := llmCall1 orchestratorInput in
  let analysis := extractXml orchestratorResponse (lit "analysis") in
  let tasksXml := extractXml orchestratorResponse (lit "tasks") in
  let subTasks := parse_tasks tasksXml in
  let* workerResults :=
    (fun log =>
       let (log', workerPromises) := map_async (worker this task effectiveContext) subTasks log in
       (log', Promise_all workerPromises order)) in
  ret {| analysis := analysis; worker_results := workerResults |}.

End Client.

End Utils.

Export Utils.

(** ** Vocabulary of the statements *)

Module Spec.

(** *** The client *)

(** The request [llmCall(prompt)] sends. *)
Definition request (prompt : jsstring) : GenerateContentParameters :=
  {| model := default_model; systemInstruction := None; contents := prompt |}.

(** After the requests of [log], the client answers [prompt] with the
    non-empty text [text]. *)
Definition answers (generateContent : Log -> GenerateContentParameters -> exn + option jsstring)
    (log : Log) (prompt text : jsstring) : Prop :=
  generateContent log (request prompt) = inr (Some text) /\ text <> [].

(** The completion of [llmCall(prompt)] issued after the requests of [log]. *)
Definition call_outcome (generateContent : Log -> GenerateContentParameters -> exn + option jsstring)
    (log : Log) (prompt : jsstring) : Completion jsstring :=
  snd (llmCall1 generateContent prompt log).

(** A client that answers its n-th request with the n-th entry of a script,
    whatever the request, and rejects once the script is used up. *)
Definition scripted (script : list (exn + option jsstring))
  : Log -> GenerateContentParameters -> exn + option jsstring :=
  fun log _ => default (inl (Error (lit "script exhausted"))) (script !! length log).

Definition says (text : string) : exn + option jsstring := inr (Some (lit text)).

(** *** Chain and fan-out *)

(** The text of a step: the prompt, a line break, [Input: ] and the input. *)
Definition with_input (prompt input : jsstring) : jsstring :=
  prompt ++ nl ++ lit "Input: " ++ input.

(** The requests a chain sends when its steps return [rs]. *)
Definition chain_requests (input : jsstring) (prompts rs : list jsstring) : Log :=
  zip_with (fun prompt cur => request (with_input prompt cur)) prompts (input :: rs).

(** The requests of a fan-out and the completions of its calls. *)
Definition parallel_requests (prompt : jsstring) (inputs : list jsstring) : Log :=
  map (fun input => request (with_input prompt input)) inputs.

Definition parallel_calls (generateContent : Log -> GenerateContentParameters -> exn + option jsstring)
    (prompt : jsstring) (inputs : list jsstring) (log : Log) : list (Completion jsstring) :=
  imap (fun i input =>
          call_outcome generateContent (log ++ take i (parallel_requests prompt inputs))
            (with_input prompt input)) inputs.

(** *** Promise.all *)

Section PromiseAll.
Context {A : Type}.
Variable promises : list (Completion A).

Definition fulfilled (i : nat) : bool :=
  match promises !! i with Some (Return _) => true | _ => false end.

Definition rejected (i : nat) : bool :=
  match promises !! i with Some (Throw _) => true | _ => false end.

(** What holds of the state of a [Promise.all] call between two
    settlements. *)
Record all_invariant (st : AllState A) : Prop := {
  inv_nodup : NoDup (settled st);
  inv_bound : forall i, i ∈ settled st -> i < length promises;
  inv_kind : forall i, i ∈ settled st -> fulfilled i = true \/ rejected i = true;
  inv_count : remainingElementsCount st
              + length (filter (fun i => fulfilled i = true) (settled st))
              = length promises;
  inv_length : length (values st) = length promises;
  inv_values : forall i x, values st !! i = Some (Some x)
                           <-> i ∈ settled st /\ promises !! i = Some (Return x);
  inv_pending : (forall i, i ∈ settled st -> fulfilled i = true) ->
                0 < remainingElementsCount st -> aggregate st = Pending;
  inv_resolved : (forall i, i ∈ settled st -> fulfilled i = true) ->
                 remainingElementsCount st = 0 -> aggregate st = Return (values st);
  inv_rejected : (exists i, i ∈ settled st /\ rejected i = true) ->
                 exists e, aggregate st = Throw e /\ Throw e ∈ promises
}.

(** The state [Promise.all] starts from and the one it ends in. *)
Definition all_init : AllState A :=
  {| values := replicate (length promises) None;
     remainingElementsCount := length promises; settled := [];
     aggregate := if bool_decide (length promises = 0) then Return [] else Pending |}.

Definition all_final (order : list nat) : AllState A :=
  fold_left (settle promises) (order ++ seq 0 (length promises)) all_init.
End PromiseAll.

(** *** Scanning a text *)

(** [s] begins with the text [w], up to case when [ic] is set. *)
Fixpoint starts (ic : bool) (w s : jsstring) : bool :=
  match w, s with
  | [], _ => true
  | a :: w', c :: s' => same_char ic a c && starts ic w' s'
  | _ :: _, [] => false
  end.

(** The first position of [s] at which the text [w] begins. *)
Fixpoint find (ic : bool) (w s : jsstring) : option nat :=
  if starts ic w s then Some 0
  else match s with
       | [] => None
       | _ :: s' => S <$> find ic w s'
       end.

(** The matches of a global pattern, read off the text that is left: the
    exec loop for a pattern that never matches the empty text. *)
Fixpoint scan (fuel : nat) (ic dotall : bool) (p : list Term) (s : jsstring)
  : list (jsstring * list jsstring) :=
  match fuel with
  | O => []
  | S fuel' =>
      match search ic dotall p 0 s with
      | Some r => (matched r, captures r) :: scan fuel' ic dotall p (after r)
      | None => []
      end
  end.

Definition never_empty (ic dotall : bool) (p : list Term) : Prop :=
  forall s mt caps rest, matcher ic dotall p s = Some (mt, caps, rest) -> mt <> [].

(** *** The extractor *)

Definition open_tag (tag : jsstring) : jsstring := lit "<" ++ tag ++ lit ">".
Definition close_tag (tag : jsstring) : jsstring := lit "</" ++ tag ++ lit ">".

(** The extractor as the specification words it: the text between the
    first opening delimiter and the first closing delimiter behind it,
    tags compared without regard to case. *)
Definition between_first_pair (text tag : jsstring) : option jsstring :=
  match find true (open_tag tag) text with
  | None => None
  | Some i =>
      let body := drop (i + length (open_tag tag)) text in
      match find true (close_tag tag) body with
      | None => None
      | Some k => Some (take k body)
      end
  end.

Definition extractXml_as_specified (text tag : jsstring) : jsstring :=
  match between_first_pair text tag with
  | Some content => trim content
  | None => []
  end.

(** The same with the closing delimiter looked for from the second
    character behind the opening delimiter on, so that the text between
    them is not empty. *)
Definition between_first_nonempty_pair (text tag : jsstring) : option jsstring :=
  match find true (open_tag tag) text with
  | None => None
  | Some i =>
      match drop (i + length (open_tag tag)) text with
      | [] => None
      | c :: body =>
          match find true (close_tag tag) body with
          | None => None
          | Some k => Some (c :: take k body)
          end
      end
  end.

(** The content the pattern of [extractXml] captures when it is tried at
    the start of [s]. *)
Definition content_at (tag s : jsstring) : option jsstring :=
  if starts true (open_tag tag) s then
    match drop (length (open_tag tag)) s with
    | [] => None
    | c :: body =>
        match find true (close_tag tag) body with
        | None => None
        | Some k => Some (c :: take k body)
        end
    end
  else None.

(** *** Placeholders *)

(** A brace, as the class [[^{}]] of the source tells it. *)
Definition brace (c : ascii) : bool :=
  existsb (fun a => same_char false a c) ["{"; "}"]%char.

(** The token [{name}]. *)
Definition token (name : jsstring) : jsstring := lit "{" ++ name ++ lit "}".

(** A placeholder name: at least one character, none of them a brace. *)
Definition is_name (name : jsstring) : Prop :=
  name <> [] /\ Forall (fun c => brace c = false) name.

(** The text holds a token [{name}] somewhere. *)
Definition has_placeholder (s : jsstring) : Prop :=
  exists pre name post, s = pre ++ token name ++ post /\ is_name name.

Definition missing_variables (tokens : list jsstring) : exn :=
  Error (lit "Missing required prompt variable(s): " ++ join (lit ", ") tokens).

(** The keys hold no regular-expression syntax character. *)
Definition plain_keys (o : js_object) : Prop := Forall (fun kv => plain_key (fst kv) = true) o.

(** The pattern that matches the token [{key}] and nothing else: the key
    with its syntax characters escaped. *)
Definition token_pattern (key : jsstring) : RegExp :=
  {| source := literal (token key); global := true; ignoreCase := false; dotAll := false |}.

(** Substitution as the specification has it: every [{key}] of the text
    replaced by the value of the key, key after key in the order of the
    mapping; the value is read as [String.prototype.replace] reads a
    replacement string. *)
Definition substitute_as_specified (template : jsstring) (kwargs : js_object) : jsstring :=
  fold_left (fun formatted kv => String_replace formatted (token_pattern (fst kv)) (snd kv))
            kwargs template.


(** *** The task orchestrator *)

(** The worker stage of [process], run after the decomposition request:
    the log it leaves and the promises of the workers. *)
Definition dispatch (generateContent : Log -> GenerateContentParameters -> exn + option jsstring)
    (this : FlexibleOrchestrator) (task : jsstring) (context : option js_object)
    (response : jsstring) (log : Log) : Log * list (Completion WorkerResult) :=
  map_async (worker generateContent this task (default [] context))
    (parse_tasks (extractXml response (lit "tasks"))) log.

(** The text of the worker's request for a subtask: the worker template
    formatted with the task, the type and the description of the subtask
    and the context fields. *)
Definition worker_input (this : FlexibleOrchestrator) (task : jsstring)
    (context : option js_object) (taskInfo : TaskInfo) : exn + jsstring :=
  formatPrompt (workerPrompt this)
    (object_literal [(lit "original_task", task); (lit "task_type", type taskInfo);
                     (lit "task_description", description taskInfo)]
       (default [] context)).

(** The requests the workers of the subtasks send: one for every subtask
    whose worker template formats, in the order of the subtasks. *)
Definition requests_of_workers (this : FlexibleOrchestrator) (task : jsstring)
    (context : option js_object) (subTasks : list TaskInfo) : Log :=
  omap (fun taskInfo =>
          match worker_input this task context taskInfo with
          | inr workerInput => Some (request workerInput)
          | inl _ => None
          end) subTasks.

Definition labels (w : WorkerResult) : jsstring * jsstring := (w_type w, w_description w).
Definition task_labels (t : TaskInfo) : jsstring * jsstring := (type t, description t).

(** *** The generate/evaluate loop *)

(** Equal without regard to case, as [toUpperCase] compares: the
    upper-case forms are the same. *)
Definition equals_ignoring_case (a b : jsstring) : Prop := toUpperCase a = toUpperCase b.

(** The verdict that ends the loop. *)
Definition passes (evaluation : jsstring) : Prop :=
  equals_ignoring_case evaluation (lit "PASS").

Definition evaluate_prompt (evaluatorPrompt task content : jsstring) : jsstring :=
  evaluatorPrompt ++ nl ++ lit "Original task: " ++ task ++ nl
  ++ lit "Content to evaluate: " ++ content.

(** The feedback context of a further attempt: the earlier candidates, one
    per line, and the latest feedback. *)
Definition feedback_context (memory : list jsstring) (feedback : jsstring) : jsstring :=
  join nl ([lit "Previous attempts:"] ++ map (fun m => lit "- " ++ m) memory
           ++ [nl ++ lit "Feedback: " ++ feedback]).

Definition generate_prompt (generatorPrompt task context : jsstring) : jsstring :=
  if truthy context
  then generatorPrompt ++ nl ++ context ++ nl ++ lit "Task: " ++ task
  else generatorPrompt ++ nl ++ lit "Task: " ++ task.

(** The attempt read off a generation response. *)
Definition attempt (response : jsstring) : ChainOfThoughtItem :=
  {| thoughts := extractXml response (lit "thoughts");
     result := extractXml response (lit "response") |}.

(** The state of the loop with one more attempt. *)
Definition with_attempt (st : LoopState) (item : ChainOfThoughtItem) : LoopState :=
  {| memory := memory st ++ [result item];
     chainOfThought := chainOfThought st ++ [item];
     current := item |}.

Definition first_attempt (item : ChainOfThoughtItem) : LoopState :=
  {| memory := [result item]; chainOfThought := [item]; current := item |}.

Section Rounds.
Variable generateContent : Log -> GenerateContentParameters -> exn + option jsstring.
Variables task evaluatorPrompt generatorPrompt : jsstring.

(** One round that does not pass: the evaluation of the current candidate
    is answered with a verdict other than PASS, and the generation
    request that follows, with the feedback context, is answered too. *)
Inductive refines : LoopState * Log -> LoopState * Log -> Prop :=
| refines_round st log evaluation generation :
    answers generateContent log
      (evaluate_prompt evaluatorPrompt task (result (current st))) evaluation ->
    ~ passes (extractXml evaluation (lit "evaluation")) ->
    answers generateContent
      (log ++ [request (evaluate_prompt evaluatorPrompt task (result (current st)))])
      (generate_prompt generatorPrompt task
         (feedback_context (memory st) (extractXml evaluation (lit "feedback"))))
      generation ->
    refines (st, log)
      (with_attempt st (attempt generation),
       log ++ [request (evaluate_prompt evaluatorPrompt task (result (current st)));
               request (generate_prompt generatorPrompt task
                          (feedback_context (memory st)
                             (extractXml evaluation (lit "feedback"))))]).

(** [k] such rounds in a row. *)
Inductive rounds : nat -> LoopState * Log -> LoopState * Log -> Prop :=
| rounds_O c : rounds 0 c c
| rounds_S k c1 c2 c3 : refines c1 c2 -> rounds k c2 c3 -> rounds (S k) c1 c3.

(** The round that passes: the evaluation of the current candidate is
    answered with the verdict PASS. *)
Definition passing (c : LoopState * Log) (log' : Log) : Prop :=
  exists evaluation,
    answers generateContent (snd c)
      (evaluate_prompt evaluatorPrompt task (result (current (fst c)))) evaluation
    /\ passes (extractXml evaluation (lit "evaluation"))
    /\ log' = snd c ++ [request (evaluate_prompt evaluatorPrompt task (result (current (fst c))))].
End Rounds.

(** *** The router *)

(** The route key read off the classification response. *)
Definition selected_key (routeResponse : jsstring) : jsstring :=
  toLowerCase (trim (extractXml routeResponse (lit "selection"))).

(** The router as the specification words it: an error when the key is not
    in the table, the second call with the prompt of the key when it is. *)
Definition route_as_specified
    (generateContent : Log -> GenerateContentParameters -> exn + option jsstring)
    (input : jsstring) (routes : js_object) : M jsstring :=
  let* routeResponse := llmCall1 generateContent (selectorPrompt (map fst routes) input) in
  match own routes (selected_key routeResponse) with
  | None => throw (invalid_route (selected_key routeResponse))
  | Some selectedPrompt => llmCall1 generateContent (selectedPrompt ++ nl ++ lit "Input: " ++ input)
  end.

Definition support_routes : js_object :=
  [(lit "billing", lit "P1"); (lit "technical", lit "P2")].

(** *** Text put together from tags, blanks and plain text *)

(** The code unit a character is compared by under the flag [i]. *)
Definition canon (c : ascii) : N := Canonicalize true c.

(** [w'] is the text [w] up to the case of its letters. *)
Definition ci_eq (w w' : jsstring) : Prop := map canon w' = map canon w.

(** Only white space. *)
Definition blank (s : jsstring) : Prop :=
  Forall (fun c => CharacterSetMatcher true true CsSpace c = true) s.

(** No [<]. *)
Definition plain (s : jsstring) : Prop := Forall (fun c => c <> "<"%char) s.

Fixpoint prefix_codes (w s : list N) : bool :=
  match w, s with
  | [], _ => true
  | a :: w', c :: s' => (a =? c)%N && prefix_codes w' s'
  | _ :: _, [] => false
  end.

(** Two code sequences that differ at a place both have. *)
Fixpoint clash (a b : list N) : bool :=
  match a, b with
  | x :: a', y :: b' => if (x =? y)%N then clash a' b' else true
  | _, _ => false
  end.

(** A matcher that can only succeed on a text that begins with [<]. *)
Definition needs_lt {X} (f : jsstring -> option X) : Prop :=
  f [] = None /\ forall c s, c <> "<"%char -> f (c :: s) = None.

(** [f] fails at every position of [a] in the text [a ++ b]. *)
Definition fails_within {X} (f : jsstring -> option X) (a b : jsstring) : Prop :=
  forall j, j < length a -> f (drop j (a ++ b)) = None.

(** [f] fails at every position of [s]. *)
Definition fails_throughout {X} (f : jsstring -> option X) (s : jsstring) : Prop :=
  forall j, f (drop j s) = None.

(** *** The groups of a tasks block *)

(** The pieces of a [<task>] group as they stand in a text: the six tags
    in some spelling, the white space between them, and the two fields. *)
Record group := {
  open_task : jsstring;
  space1 : jsstring;
  open_type : jsstring;
  type_text : jsstring;
  close_type : jsstring;
  space2 : jsstring;
  open_description : jsstring;
  description_text : jsstring;
  close_description : jsstring;
  space3 : jsstring;
  close_task : jsstring
}.

(** What a tasks block is made of: groups with both sub-tags, groups
    without the type sub-tag, groups without the description sub-tag, and
    other text. *)
Inductive item :=
| Good (g : group)
| NoType (g : group)
| NoDescription (g : group)
| Other (text : jsstring).

Definition render (i : item) : jsstring :=
  match i with
  | Good g =>
      open_task g ++ space1 g ++ open_type g ++ type_text g ++ close_type g ++ space2 g
      ++ open_description g ++ description_text g ++ close_description g ++ space3 g
      ++ close_task g
  | NoType g =>
      open_task g ++ space1 g
      ++ open_description g ++ description_text g ++ close_description g ++ space3 g
      ++ close_task g
  | NoDescription g =>
      open_task g ++ space1 g ++ open_type g ++ type_text g ++ close_type g ++ space2 g
      ++ close_task g
  | Other text => text
  end.

Definition render_all (items : list item) : jsstring := concat (map render items).

(** The tags are the six tags up to case, the spaces are white space and
    the fields hold no [<]. *)
Record tags_ok (g : group) : Prop := {
  ok_open_task : ci_eq (lit "<task>") (open_task g);
  ok_open_type : ci_eq (lit "<type>") (open_type g);
  ok_close_type : ci_eq (lit "</type>") (close_type g);
  ok_open_description : ci_eq (lit "<description>") (open_description g);
  ok_close_description : ci_eq (lit "</description>") (close_description g);
  ok_close_task : ci_eq (lit "</task>") (close_task g);
  ok_space1 : blank (space1 g);
  ok_space2 : blank (space2 g);
  ok_space3 : blank (space3 g);
  ok_type_text : plain (type_text g);
  ok_description_text : plain (description_text g)
}.

Definition well_formed (i : item) : Prop :=
  match i with
  | Good g => tags_ok g
  | NoType g => tags_ok g
  | NoDescription g => tags_ok g
  | Other text => plain text
  end.

Definition is_good (i : item) : bool :=
  match i with Good _ => true | _ => false end.

(** No group without a description has a group with both sub-tags
    somewhere behind it. *)
Fixpoint description_not_owed (items : list item) : Prop :=
  match items with
  | [] => True
  | NoDescription _ :: rest => Forall (fun i => is_good i = false) rest /\ description_not_owed rest
  | _ :: rest => description_not_owed rest
  end.

(** The subtask of an item: the trimmed fields of a group with both
    sub-tags, unless one of the fields is empty. *)
Definition task_of (i : item) : option TaskInfo :=
  match i with
  | Good g =>
      if truthy (type_text g) && truthy (description_text g)
      then Some {| type := trim (type_text g); description := trim (description_text g) |}
      else None
  | _ => None
  end.

(** The subtasks of a text made of items: those of its groups with both
    sub-tags and no empty field, in order. *)
Definition tasks_of (items : list item) : list TaskInfo := omap task_of items.

(** The pattern from [</description>] on, and from [</type>] on. *)
Definition closer : list Term :=
  literal (lit "</description>") ++ [Atom CsSpace (QStar true)] ++ literal (lit "</task>").

Definition from_close_type : list Term :=
  literal (lit "</type>") ++ [Atom CsSpace (QStar true)]
  ++ literal (lit "<description>") ++ [Group CsDot (QStar false)] ++ closer.

(** The body of the parse loop, on the text and captures of a match. *)
Definition push_captures (subTasks : list TaskInfo) (mc : jsstring * list jsstring)
  : list TaskInfo :=
  let m1 := default [] (snd mc !! 0) in
  let m2 := default [] (snd mc !! 1) in
  if truthy m1 && truthy m2
  then subTasks ++ [{| type := trim m1; description := trim m2 |}]
  else subTasks.

(** What the pattern finds in an item: a group with both sub-tags, with its
    two fields. *)
Definition found_in (i : item) : option (jsstring * list jsstring) :=
  match i with
  | Good g => Some (render i, [type_text g; description_text g])
  | _ => None
  end.

(** A group in lower case, without white space. *)
Definition simple_group (t d : string) : group :=
  {| open_task := lit "<task>"; space1 := [];
     open_type := lit "<type>"; type_text := lit t; close_type := lit "</type>"; space2 := [];
     open_description := lit "<description>"; description_text := lit d;
     close_description := lit "</description>"; space3 := [];
     close_task := lit "</task>" |}.

(** A group in mixed case, with line breaks between the tags and inside
    the description. *)
Definition spread_group (t d1 d2 : string) : group :=
  {| open_task := lit "<Task>"; space1 := nl ++ lit "  ";
     open_type := lit "<TYPE>"; type_text := lit t; close_type := lit "</Type>"; space2 := nl;
     open_description := lit "<Description>"; description_text := lit d1 ++ nl ++ lit d2;
     close_description := lit "</DESCRIPTION>"; space3 := nl;
     close_task := lit "</task>" |}.

(** A tasks block with other text in front, a group in mixed case spread
    over several lines, a group without type, a plain group and, last, a
    group without description. *)
Definition sample_items : list item :=
  [Other (lit "Plan:" ++ nl);
   Good (spread_group "Formal" "line one" "line two");
   NoType (simple_group "" "orphan");
   Good (simple_group "casual" "friendly");
   NoDescription (simple_group "late" "")].

Definition sample_orchestrator : FlexibleOrchestrator :=
  {| orchestratorPrompt := lit "Plan {task}";
     workerPrompt := lit "Do {task_type}: {task_description} for {original_task}" |}.

(** A client that answers the decomposition request with the sample block
    and the two workers with a response each. *)
Definition sample_client : Log -> GenerateContentParameters -> exn + option jsstring :=
  scripted [inr (Some (lit "<analysis>two tones</analysis><tasks>" ++ render_all sample_items
                       ++ lit "</tasks>"));
            says "<response>r1</response>"; says "<response>r2</response>"].

(** *** Failures of a fan-out *)

(** The reason of the first rejected promise in the order [order]. *)
Fixpoint first_rejection {A} (promises : list (Completion A)) (order : list nat) : option exn :=
  match order with
  | [] => None
  | i :: order' =>
      match promises !! i with
      | Some (Throw e) => Some e
      | _ => first_rejection promises order'
      end
  end.

(** *** The requests of the generate/evaluate loop *)

(** The requests from the evaluation of the candidate [cur] on, when the
    evaluations that do not pass give the feedbacks, and the generations
    that follow them the candidates, paired in [rest]; [memory] holds the
    candidates up to [cur]. *)
Fixpoint refinement_requests (task evaluatorPrompt generatorPrompt : jsstring)
    (memory : list jsstring) (cur : jsstring) (rest : list (jsstring * jsstring)) : Log :=
  request (evaluate_prompt evaluatorPrompt task cur)
  :: match rest with
     | [] => []
     | (feedback, next) :: rest' =>
         request (generate_prompt generatorPrompt task (feedback_context memory feedback))
         :: refinement_requests task evaluatorPrompt generatorPrompt
              (memory ++ [next]) next rest'
     end.

(** The requests of a run of [loop] whose candidates are [candidates] and
    whose evaluations before the last gave [feedbacks]. *)
Definition loop_requests (task evaluatorPrompt generatorPrompt : jsstring)
    (candidates feedbacks : list jsstring) : Log :=
  match candidates with
  | [] => []
  | first :: others =>
      request (generate_prompt generatorPrompt task [])
      :: refinement_requests task evaluatorPrompt generatorPrompt [first] first
           (zip feedbacks others)
  end.

(** The client answered the requests [requests], sent one after the other
    from the log [log] on, with the texts of [texts], in order, none of
    them empty. *)
Fixpoint answered (generateContent : Log -> GenerateContentParameters -> exn + option jsstring)
    (log : Log) (requests : Log) (texts : list jsstring) : Prop :=
  match requests, texts with
  | [], [] => True
  | r :: requests', text :: texts' =>
      (generateContent log r = inr (Some text) /\ text <> [])
      /\ answered generateContent (log ++ [r]) requests' texts'
  | _, _ => False
  end.

(** The rounds of a run that did not pass, each given by the answer to
    its evaluation request and the answer to the generation request that
    followed: the feedbacks they gave, and the texts of the answers in the
    order they came. *)
Definition feedbacks_of (refinements : list (jsstring * jsstring)) : list jsstring :=
  map (fun r => extractXml (fst r) (lit "feedback")) refinements.

Definition texts_of (refinements : list (jsstring * jsstring)) : list jsstring :=
  concat (map (fun r => [fst r; snd r]) refinements).

(** What holds of the state and the log between two rounds of a run of
    [loop] started from the log [log0]: the history holds the attempts
    read off the answers to the generation requests, the memory their
    results, the current attempt is the last of the history, no evaluation
    so far passed, and the requests sent so far, with the evaluation
    request that comes next, are those the candidates and the feedbacks
    give, answered with these texts. *)
Definition on_course (generateContent : Log -> GenerateContentParameters -> exn + option jsstring)
    (task evaluatorPrompt generatorPrompt : jsstring) (log0 : Log)
    (c : LoopState * Log) : Prop :=
  exists generation refinements sent,
    chainOfThought (fst c) = map attempt (generation :: map snd refinements)
    /\ memory (fst c) = map result (chainOfThought (fst c))
    /\ last (chainOfThought (fst c)) = Some (current (fst c))
    /\ Forall (fun r => ~ passes (extractXml (fst r) (lit "evaluation"))) refinements
    /\ snd c = log0 ++ sent
    /\ sent ++ [request (evaluate_prompt evaluatorPrompt task (result (current (fst c))))]
       = loop_requests task evaluatorPrompt generatorPrompt (memory (fst c))
           (feedbacks_of refinements)
    /\ answered generateContent log0 sent (generation :: texts_of refinements).

(** A client that gives the same answer to every request. *)
Definition constant_client (text : string)
  : Log -> GenerateContentParameters -> exn + option jsstring :=
  fun _ _ => says text.

(** *** Replacing *)

(** The text [s] with the matches of a pattern, found one behind the
    other, each replaced by what [sub] makes of the matched text. *)
Fixpoint rewritten (fuel : nat) (ic dotall : bool) (p : list Term)
    (sub : jsstring -> jsstring) (s : jsstring) : jsstring :=
  match fuel with
  | O => s
  | S fuel' =>
      match search ic dotall p 0 s with
      | Some r =>
          take (index r) s ++ sub (matched r) ++ rewritten fuel' ic dotall p sub (after r)
      | None => s
      end
  end.

(** No opening brace, and no dollar sign. *)
Definition no_open_brace (s : jsstring) : Prop := Forall (fun c => c <> "{"%char) s.
Definition no_dollar (s : jsstring) : Prop := Forall (fun c => c <> "$"%char) s.

(** A text with tokens in it: [first], then every token with the piece of
    text that follows it. *)
Fixpoint with_tokens (first : jsstring) (rest : list (jsstring * jsstring)) : jsstring :=
  first ++ match rest with
           | [] => []
           | (name, piece) :: rest' => token name ++ with_tokens piece rest'
           end.

(** *** Templates as segments *)

(** A template seen as pieces of text and holes, a hole [Hole name] standing
    for the token [{name}]. *)
Inductive segment :=
| Text (text : jsstring)
| Hole (name : jsstring).

Definition render_segment (g : segment) : jsstring :=
  match g with
  | Text text => text
  | Hole name => token name
  end.

Definition render_segments (segs : list segment) : jsstring :=
  concat (map render_segment segs).

(** The pieces of text hold no opening brace and the holes have names. *)
Definition well_segmented (g : segment) : Prop :=
  match g with
  | Text text => no_open_brace text
  | Hole name => is_name name
  end.

(** Filling the holes of one key, and of the keys of a mapping in turn. *)
Definition fill (key value : jsstring) (g : segment) : segment :=
  match g with
  | Hole name => if eqb name key then Text value else g
  | Text _ => g
  end.

Definition fill_all (kwargs : js_object) (segs : list segment) : list segment :=
  fold_left (fun segs kv => map (fill (fst kv) (snd kv)) segs) kwargs segs.

(** The names of the holes that are left, in order. *)
Definition holes (segs : list segment) : list jsstring :=
  omap (fun g => match g with Hole name => Some name | Text _ => None end) segs.

End Spec.

Export Spec.

(** ** The asynchronous layer *)

Section AsyncFacts.
Variable generateContent : Log -> GenerateContentParameters -> exn + option jsstring.

Lemma llmCall1_log prompt log :
  fst (llmCall1 generateContent prompt log) = log ++ [request prompt].
Proof. reflexivity. Qed.

Lemma llmCall1_eq prompt log :
  llmCall1 generateContent prompt log
  = (log ++ [request prompt], call_outcome generateContent log prompt).
Proof. reflexivity. Qed.

Lemma llmCall1_answers prompt text log :
  answers generateContent log prompt text ->
  llmCall1 generateContent prompt log = (log ++ [request prompt], Return text).
Proof.
  intros [Hg Hne]. unfold llmCall1, llmCall. cbn [truthy].
  fold (request prompt). rewrite Hg.
  destruct text; [contradiction | reflexivity].
Qed.

Lemma call_outcome_answers prompt text log :
  answers generateContent log prompt text ->
  call_outcome generateContent log prompt = Return text.
Proof. intros H. unfold call_outcome. now rewrite (llmCall1_answers _ _ _ H). Qed.

(** A call never stays pending, and what it returns is not empty. *)
Lemma call_outcome_cases prompt log :
  (exists text, answers generateContent log prompt text
                /\ call_outcome generateContent log prompt = Return text)
  \/ (exists e, call_outcome generateContent log prompt = Throw e).
Proof.
  unfold call_outcome, answers, llmCall1, llmCall. cbn [snd truthy].
  fold (request prompt).
  destruct (generateContent log (request prompt)) as [e | [text |]] eqn:Hg.
  - right. eauto.
  - destruct text as [| c text].
    + right. eauto.
    + left. exists (c :: text). repeat split; congruence.
  - right. eauto.
Qed.

(** Mapping a call over a list sends one request per element, in order,
    whatever the calls come back with. *)
Lemma map_async_llmCall1 (f : jsstring -> jsstring) inputs log :
  map_async (fun input => llmCall1 generateContent (f input)) inputs log
  = (log ++ map (fun input => request (f input)) inputs,
     imap (fun i input =>
             call_outcome generateContent
               (log ++ take i (map (fun input => request (f input)) inputs)) (f input))
          inputs).
Proof.
  revert log. induction inputs as [| x inputs IH]; intros log.
  - cbn. now rewrite app_nil_r.
  - cbn [map_async]. rewrite llmCall1_eq, IH. cbn [map imap take].
    rewrite <- app_assoc. cbn. rewrite app_nil_r. f_equal. f_equal.
    apply imap_ext. intros i y _. cbn. now rewrite <- app_assoc.
Qed.

End AsyncFacts.

(** ** Chain Runner *)

Section ChainFacts.
Variable generateContent : Log -> GenerateContentParameters -> exn + option jsstring.

Lemma chain_cons input prompt prompts text log :
  answers generateContent log (with_input prompt input) text ->
  chain generateContent input (prompt :: prompts) log
  = chain generateContent text prompts (log ++ [request (with_input prompt input)]).
Proof.
  intros H. cbn [chain]. unfold bind.
  fold (with_input prompt input). now rewrite (llmCall1_answers _ _ _ _ H).
Qed.

(** A step that fails ends the chain there: the later prompts are not
    sent. *)
Lemma chain_fails input prompt prompts e log :
  call_outcome generateContent log (with_input prompt input) = Throw e ->
  chain generateContent input (prompt :: prompts) log
  = (log ++ [request (with_input prompt input)], Throw e).
Proof.
  intros H. cbn [chain]. unfold bind.
  fold (with_input prompt input). now rewrite llmCall1_eq, H.
Qed.

End ChainFacts.

(** C10.  The empty chain is the identity: it returns the initial input and
    sends nothing to the client (the log of requests is the one it started
    from). *)
Theorem chain_empty_is_identity generateContent (input : jsstring) (log : Log) :
  chain generateContent input [] log = (log, Return input).
Proof. reflexivity. Qed.

(** C8.  When the client answers the steps with [rs], step [i] being asked
    [prompts[i]], a line break, [Input: ] and the text current at that step
    (the initial input for the first step, the answer [rs[i-1]] after that),
    then [chain] sends exactly these requests, one per prompt and in order,
    and returns the answer of the last step. *)
Theorem chain_threads generateContent (input : jsstring) (prompts rs : list jsstring) (log : Log) :
  length rs = length prompts ->
  (forall i prompt cur r,
      prompts !! i = Some prompt -> (input :: rs) !! i = Some cur -> rs !! i = Some r ->
      answers generateContent (log ++ take i (chain_requests input prompts rs))
        (prompt ++ nl ++ lit "Input: " ++ cur) r) ->
  chain generateContent input prompts log
  = (log ++ chain_requests input prompts rs, Return (default input (last rs)))
    /\ length (chain_requests input prompts rs) = length prompts.
Proof.
  revert input rs log. induction prompts as [| prompt prompts IH]; intros input rs log Hlen Hans.
  - destruct rs; [| discriminate]. cbn. now rewrite app_nil_r.
  - destruct rs as [| r rs]; [discriminate |].
    pose proof (Hans 0 prompt input r eq_refl eq_refl eq_refl) as H0.
    cbn [take] in H0. rewrite app_nil_r in H0.
    rewrite (chain_cons _ _ _ _ _ _ H0).
    destruct (IH r rs (log ++ [request (with_input prompt input)])) as [IH1 IH2].
    + cbn in Hlen. lia.
    + intros i p cur r' Hp Hc Hr.
      specialize (Hans (S i) p cur r' Hp Hc Hr).
      cbn [chain_requests zip_with take] in Hans. rewrite <- app_assoc. exact Hans.
    + split.
      * rewrite IH1, <- app_assoc, last_cons. cbn [chain_requests zip_with app].
        now destruct (last rs).
      * cbn [chain_requests zip_with length]. f_equal. exact IH2.
Qed.

(** Two steps, answered with the text they were given and the suffixes
    [+a] and [+b]: the output is the input with [+a] and then [+b]. *)
Lemma chain_threads_witness :
  chain (scripted [says "in+a"; says "in+a+b"]) (lit "in") [lit "p1"; lit "p2"] []
  = ([request (lit "p1" ++ nl ++ lit "Input: in"); request (lit "p2" ++ nl ++ lit "Input: in+a")],
     Return (lit "in+a+b")).
Proof.
  pose proof (chain_threads (scripted [says "in+a"; says "in+a+b"]) (lit "in")
                [lit "p1"; lit "p2"] [lit "in+a"; lit "in+a+b"] [] eq_refl) as H.
  destruct H as [H _].
  - intros [| [| i]] prompt cur r Hp Hc Hr; cbn in Hp, Hc, Hr; simplify_eq;
      split; [reflexivity | discriminate | reflexivity | discriminate].
  - exact H.
Defined.

(** ** Promise.all *)

Lemma all_returns_list {A} (l : list (Completion A)) :
  (forall i, i < length l -> exists x, l !! i = Some (Return x)) ->
  exists xs, l = map Return xs.
Proof.
  induction l as [| p l IH]; intros H.
  - now exists [].
  - destruct (H 0) as [x Hx]; [cbn; lia |]. cbn in Hx. injection Hx as ->.
    destruct IH as [xs ->].
    + intros i Hi. apply (H (S i)). cbn. lia.
    + now exists (x :: xs).
Qed.

Section PromiseAll.
Context {A : Type}.
Variable promises : list (Completion A).

Lemma fulfilled_settled_bound (l : list nat) :
  NoDup l -> (forall i, i ∈ l -> i < length promises) ->
  length l <= length promises.
Proof.
  intros Hnd Hb.
  assert (l ⊆+ seq 0 (length promises)) as Hsub.
  { apply NoDup_submseteq; [exact Hnd |]. intros i Hi. apply elem_of_seq. specialize (Hb i Hi). lia. }
  apply submseteq_length in Hsub. now rewrite length_seq in Hsub.
Qed.

Lemma filter_fulfilled_length (l : list nat) (j : nat) :
  NoDup l -> (forall i, i ∈ l -> i < length promises) ->
  j < length promises -> fulfilled promises j = false ->
  length (filter (fun i => fulfilled promises i = true) l) < length promises.
Proof.
  intros Hnd Hb Hj Hf.
  assert (length (j :: filter (fun i => fulfilled promises i = true) l) <= length promises) as H.
  { apply fulfilled_settled_bound.
    - constructor.
      + intros Hin. apply list_elem_of_filter in Hin as [Hin _]. congruence.
      + now apply NoDup_filter.
    - intros i Hi. apply elem_of_cons in Hi as [-> | Hi]; [exact Hj |].
      apply list_elem_of_filter in Hi as [_ Hi]. now apply Hb. }
  cbn in H. lia.
Qed.

Lemma filter_fulfilled_fresh (l : list nat) (j : nat) :
  NoDup l -> (forall i, i ∈ l -> i < length promises) ->
  j < length promises -> j ∉ l ->
  length (filter (fun i => fulfilled promises i = true) l) < length promises.
Proof.
  intros Hnd Hb Hj Hf.
  assert (length (j :: filter (fun i => fulfilled promises i = true) l) <= length promises) as H.
  { apply fulfilled_settled_bound.
    - constructor.
      + intros Hin. apply list_elem_of_filter in Hin as [_ Hin]. contradiction.
      + now apply NoDup_filter.
    - intros i Hi. apply elem_of_cons in Hi as [-> | Hi]; [exact Hj |].
      apply list_elem_of_filter in Hi as [_ Hi]. now apply Hb. }
  cbn in H. lia.
Qed.

Lemma settled_rejected_or_fulfilled (st : AllState A) :
  all_invariant promises st ->
  (exists i, i ∈ settled st /\ rejected promises i = true)
  \/ (forall i, i ∈ settled st -> fulfilled promises i = true).
Proof.
  intros Inv. pose proof (inv_kind _ _ Inv) as Hk.
  induction (settled st) as [| j l IH].
  - right. intros i Hi. inversion Hi.
  - destruct IH as [[i [Hi Hr]] | Hall].
    + intros i Hi. apply Hk. now right.
    + left. exists i. split; [now right | exact Hr].
    + destruct (Hk j) as [Hf | Hr]; [now left | |].
      * right. intros i Hi. apply elem_of_cons in Hi as [-> | Hi]; auto.
      * left. exists j. split; [now left | exact Hr].
Qed.

Lemma settle_invariant st i :
  all_invariant promises st -> all_invariant promises (settle promises st i).
Proof.
  intros Inv. unfold settle.
  destruct (bool_decide_reflect (i ∈ settled st)) as [Hin | Hnin]; [exact Inv |].
  destruct (promises !! i) as [[x | e |] |] eqn:Hp; [| | exact Inv | exact Inv].
  - (* the promise is fulfilled *)
    assert (i < length promises) as Hi by (eapply lookup_lt_Some; eauto).
    assert (fulfilled promises i = true) as Hfi by (unfold fulfilled; now rewrite Hp).
    pose proof (filter_fulfilled_fresh _ i (inv_nodup _ _ Inv) (inv_bound _ _ Inv) Hi Hnin) as Hlt.
    pose proof (inv_count _ _ Inv) as Hc.
    assert (0 < remainingElementsCount st) as Hrem by lia.
    split; cbn [settled values remainingElementsCount aggregate].
    + constructor; [exact Hnin | exact (inv_nodup _ _ Inv)].
    + intros j Hj. apply elem_of_cons in Hj as [-> | Hj]; [exact Hi | now apply (inv_bound _ _ Inv)].
    + intros j Hj. apply elem_of_cons in Hj as [-> | Hj]; [now left | now apply (inv_kind _ _ Inv)].
    + rewrite filter_cons_True by exact Hfi. cbn [length]. lia.
    + rewrite length_insert. exact (inv_length _ _ Inv).
    + intros j y. destruct (decide (j = i)) as [-> | Hne].
      * rewrite list_lookup_insert_eq by (rewrite (inv_length _ _ Inv); exact Hi).
        rewrite Hp. split.
        -- intros [= ->]. split; [apply elem_of_cons; now left | reflexivity].
        -- intros [_ [= ->]]. reflexivity.
      * rewrite list_lookup_insert_ne by congruence.
        rewrite (inv_values _ _ Inv). rewrite elem_of_cons. intuition congruence.
    + intros Hall Hpos.
      rewrite bool_decide_false by lia.
      apply (inv_pending _ _ Inv); [| exact Hrem].
      intros j Hj. apply Hall. apply elem_of_cons. now right.
    + intros Hall Hzero.
      rewrite bool_decide_true by exact Hzero.
      rewrite (inv_pending _ _ Inv); [reflexivity | | exact Hrem].
      intros j Hj. apply Hall. apply elem_of_cons. now right.
    + intros [j [Hj Hrej]].
      apply elem_of_cons in Hj as [-> | Hj].
      { unfold rejected in Hrej. rewrite Hp in Hrej. discriminate. }
      destruct (inv_rejected _ _ Inv) as [e [He Hine]]; [eauto |].
      exists e. split; [| exact Hine].
      destruct (bool_decide _); [| exact He]. now rewrite He.
  - (* the promise is rejected *)
    assert (i < length promises) as Hi by (eapply lookup_lt_Some; eauto).
    assert (fulfilled promises i = false) as Hfi by (unfold fulfilled; now rewrite Hp).
    split; cbn [settled values remainingElementsCount aggregate].
    + constructor; [exact Hnin | exact (inv_nodup _ _ Inv)].
    + intros j Hj. apply elem_of_cons in Hj as [-> | Hj]; [exact Hi | now apply (inv_bound _ _ Inv)].
    + intros j Hj. apply elem_of_cons in Hj as [-> | Hj]; [right | now apply (inv_kind _ _ Inv)].
      unfold rejected. now rewrite Hp.
    + rewrite filter_cons_False by congruence. exact (inv_count _ _ Inv).
    + exact (inv_length _ _ Inv).
    + intros j y. rewrite (inv_values _ _ Inv), elem_of_cons.
      split; [intuition |]. intros [[-> | Hj] Hy]; [congruence | now split].
    + intros Hall _. specialize (Hall i). rewrite Hfi in Hall.
      exfalso. apply diff_false_true, Hall, elem_of_cons. now left.
    + intros Hall _. specialize (Hall i). rewrite Hfi in Hall.
      exfalso. apply diff_false_true, Hall, elem_of_cons. now left.
    + intros _.
      destruct (aggregate st) as [vs | e' |] eqn:Hagg.
      * (* the aggregate cannot be resolved while a promise is open *)
        exfalso.
        destruct (settled_rejected_or_fulfilled st Inv) as [Hex | Hall].
        -- destruct (inv_rejected _ _ Inv Hex) as [e0 [He0 _]]. congruence.
        -- pose proof (filter_fulfilled_length _ i (inv_nodup _ _ Inv) (inv_bound _ _ Inv) Hi Hfi).
           pose proof (inv_count _ _ Inv).
           rewrite (inv_pending _ _ Inv) in Hagg; [discriminate | exact Hall | lia].
      * destruct (settled_rejected_or_fulfilled st Inv) as [Hex | Hall].
        -- destruct (inv_rejected _ _ Inv Hex) as [e0 [He0 Hin0]].
           exists e0. split; [cbn; congruence | exact Hin0].
        -- pose proof (filter_fulfilled_length _ i (inv_nodup _ _ Inv) (inv_bound _ _ Inv) Hi Hfi).
           pose proof (inv_count _ _ Inv).
           rewrite (inv_pending _ _ Inv) in Hagg; [discriminate | exact Hall | lia].
      * exists e. split; [reflexivity |]. now apply list_elem_of_lookup_2 in Hp.
Qed.

Lemma all_init_invariant : all_invariant promises (all_init promises).
Proof.
  split; cbn [all_init settled values remainingElementsCount aggregate].
  - constructor.
  - intros i Hi. inversion Hi.
  - intros i Hi. inversion Hi.
  - cbn. lia.
  - apply length_replicate.
  - intros i x. rewrite lookup_replicate. split.
    + intros [[=] _].
    + intros [Hi _]. inversion Hi.
  - intros _ Hpos. rewrite bool_decide_false by lia. reflexivity.
  - intros _ Hz. rewrite bool_decide_true by exact Hz. now rewrite Hz.
  - intros [i [Hi _]]. inversion Hi.
Qed.

Lemma fold_settle_invariant order st :
  all_invariant promises st -> all_invariant promises (fold_left (settle promises) order st).
Proof.
  revert st. induction order as [| i order IH]; intros st Inv; [exact Inv |].
  cbn [fold_left]. apply IH, settle_invariant, Inv.
Qed.

Lemma settle_mono st i j : j ∈ settled st -> j ∈ settled (settle promises st i).
Proof.
  intros Hj. unfold settle.
  destruct (bool_decide _); [exact Hj |].
  destruct (promises !! i) as [[x | e |] |]; cbn [settled];
    try exact Hj; apply elem_of_cons; now right.
Qed.

Lemma settle_settles st i :
  fulfilled promises i = true \/ rejected promises i = true -> i ∈ settled (settle promises st i).
Proof.
  intros Hk. unfold settle.
  destruct (bool_decide_reflect (i ∈ settled st)) as [Hin | Hnin]; [exact Hin |].
  unfold fulfilled, rejected in Hk.
  destruct (promises !! i) as [[x | e |] |]; cbn [settled];
    try (apply elem_of_cons; now left); destruct Hk; discriminate.
Qed.

Lemma fold_settle_mono order st j :
  j ∈ settled st -> j ∈ settled (fold_left (settle promises) order st).
Proof.
  revert st. induction order as [| i order IH]; intros st Hj; [exact Hj |].
  cbn [fold_left]. apply IH, settle_mono, Hj.
Qed.

Lemma fold_settle_settles order st i :
  i ∈ order -> fulfilled promises i = true \/ rejected promises i = true ->
  i ∈ settled (fold_left (settle promises) order st).
Proof.
  revert st. induction order as [| j order IH]; intros st Hi Hk; [inversion Hi |].
  cbn [fold_left]. apply elem_of_cons in Hi as [-> | Hi].
  - apply fold_settle_mono, settle_settles, Hk.
  - now apply IH.
Qed.

Lemma Promise_all_final order : Promise_all promises order = aggregate (all_final promises order).
Proof. reflexivity. Qed.

Lemma all_final_invariant order : all_invariant promises (all_final promises order).
Proof. apply fold_settle_invariant, all_init_invariant. Qed.

Lemma all_final_settled order i :
  fulfilled promises i = true \/ rejected promises i = true -> i ∈ settled (all_final promises order).
Proof.
  intros Hk. apply fold_settle_settles; [| exact Hk].
  apply elem_of_app. right. apply elem_of_seq.
  assert (i < length promises); [| lia].
  unfold fulfilled, rejected in Hk.
  destruct (promises !! i) eqn:Hp; [eapply lookup_lt_Some; eauto | destruct Hk; discriminate].
Qed.

(** One rejected element promise rejects the aggregate, with the reason
    of some rejected element. *)
Lemma Promise_all_rejected order i e :
  promises !! i = Some (Throw e) ->
  exists e', Promise_all promises order = Throw e' /\ Throw e' ∈ promises.
Proof.
  intros Hp. rewrite Promise_all_final.
  apply (inv_rejected _ _ (all_final_invariant order)).
  assert (rejected promises i = true) as Hr by (unfold rejected; now rewrite Hp).
  exists i. split; [apply all_final_settled; now right | exact Hr].
Qed.

(** The aggregate is fulfilled only when every element promise is, and
    then with their values, in the order of the promises. *)
Lemma Promise_all_returns order vs :
  Promise_all promises order = Return vs ->
  exists xs, promises = map Return xs /\ vs = map Some xs.
Proof.
  rewrite Promise_all_final. intros Hagg.
  pose proof (all_final_invariant order) as Inv.
  destruct (settled_rejected_or_fulfilled _ Inv) as [Hex | Hall].
  { destruct (inv_rejected _ _ Inv Hex) as [e [He _]]. congruence. }
  destruct (decide (0 < remainingElementsCount (all_final promises order))) as [Hpos | Hz].
  { rewrite (inv_pending _ _ Inv Hall Hpos) in Hagg. discriminate. }
  assert (remainingElementsCount (all_final promises order) = 0) as Hzero by lia.
  rewrite (inv_resolved _ _ Inv Hall Hzero) in Hagg. injection Hagg as <-.
  (* every index is settled and fulfilled *)
  pose proof (inv_count _ _ Inv) as Hc. rewrite Hzero in Hc. cbn in Hc.
  assert (forall i, i < length promises -> i ∈ settled (all_final promises order)) as Hevery.
  { intros i Hi. destruct (decide (i ∈ settled (all_final promises order))) as [Hin | Hnin]; [exact Hin |].
    pose proof (filter_fulfilled_fresh _ i (inv_nodup _ _ Inv) (inv_bound _ _ Inv) Hi Hnin). lia. }
  assert (forall i, i < length promises ->
                    exists x, promises !! i = Some (Return x)
                              /\ values (all_final promises order) !! i = Some (Some x)) as Hval.
  { intros i Hi. pose proof (Hall i (Hevery i Hi)) as Hf. unfold fulfilled in Hf.
    destruct (promises !! i) as [[x | |] |] eqn:Hp; try discriminate.
    exists x. split; [reflexivity |]. apply (inv_values _ _ Inv). split; [now apply Hevery | exact Hp]. }
  destruct (all_returns_list promises) as [xs Hxs].
  { intros i Hi. destruct (Hval i Hi) as [x [Hx _]]. eauto. }
  exists xs. split; [exact Hxs |].
  apply list_eq. intros i.
  destruct (decide (i < length promises)) as [Hi | Hi].
  - destruct (Hval i Hi) as [x [Hx Hv]]. rewrite Hv.
    rewrite Hxs, list_lookup_fmap in Hx. rewrite list_lookup_fmap.
    destruct (xs !! i); cbn in Hx |- *; congruence.
  - rewrite lookup_ge_None_2 by (rewrite (inv_length _ _ Inv); lia).
    rewrite lookup_ge_None_2; [reflexivity |].
    rewrite length_fmap. rewrite Hxs, length_fmap in Hi. lia.
Qed.

(** When every element promise settles, so does the aggregate. *)
Lemma Promise_all_pending_free order :
  (forall i, i < length promises -> fulfilled promises i = true \/ rejected promises i = true) ->
  Promise_all promises order <> Pending.
Proof.
  intros Hk. rewrite Promise_all_final.
  pose proof (all_final_invariant order) as Inv.
  destruct (settled_rejected_or_fulfilled _ Inv) as [Hex | Hall].
  { destruct (inv_rejected _ _ Inv Hex) as [e [He _]]. congruence. }
  assert (remainingElementsCount (all_final promises order) = 0) as Hzero.
  { pose proof (inv_count _ _ Inv) as Hc.
    assert (filter (fun i => fulfilled promises i = true) (settled (all_final promises order))
            = settled (all_final promises order)) as Hfil.
    { clear Hc. induction (settled (all_final promises order)) as [| j l IHl]; [reflexivity |].
      rewrite filter_cons_True by (apply Hall; now left).
      f_equal. apply IHl. intros i Hi. apply Hall. now right. }
    rewrite Hfil in Hc.
    assert (seq 0 (length promises) ⊆+ settled (all_final promises order)) as Hsub.
    { apply NoDup_submseteq; [apply NoDup_seq |].
      intros i Hi. apply elem_of_seq in Hi. apply all_final_settled, Hk. lia. }
    apply submseteq_length in Hsub. rewrite length_seq in Hsub. lia. }
  rewrite (inv_resolved _ _ Inv Hall Hzero). discriminate.
Qed.
End PromiseAll.

Lemma map_Return_inj {A} (xs ys : list A) : map Return xs = map Return ys -> xs = ys.
Proof.
  revert ys. induction xs as [| x xs IH]; intros [| y ys] H; try discriminate; [reflexivity |].
  cbn in H. injection H as -> H. f_equal. now apply IH.
Qed.

Lemma Promise_all_fulfilled {A} (xs : list A) (order : list nat) :
  Promise_all (map Return xs) order = Return (map Some xs).
Proof.
  destruct (Promise_all (map Return xs) order) as [vs | e |] eqn:Hp.
  - destruct (Promise_all_returns _ _ _ Hp) as [ys [Hys ->]].
    apply map_Return_inj in Hys. now subst.
  - exfalso.
    pose proof (all_final_invariant (map Return xs) order) as Inv.
    rewrite Promise_all_final in Hp.
    destruct (settled_rejected_or_fulfilled _ _ Inv) as [[i [_ Hr]] | Hall].
    + unfold rejected in Hr. rewrite list_lookup_fmap in Hr. destruct (xs !! i); discriminate.
    + destruct (decide (0 < remainingElementsCount (all_final (map Return xs) order))) as [Hpos | Hz].
      * rewrite (inv_pending _ _ Inv Hall Hpos) in Hp. discriminate.
      * rewrite (inv_resolved _ _ Inv Hall) in Hp by lia. discriminate.
  - exfalso. revert Hp. apply Promise_all_pending_free.
    intros i Hi. left. unfold fulfilled. rewrite list_lookup_fmap.
    rewrite length_fmap in Hi. apply lookup_lt_is_Some_2 in Hi as [x ->]. reflexivity.
Qed.

(** ** Fan-Out Runner *)

Section ParallelFacts.
Variable generateContent : Log -> GenerateContentParameters -> exn + option jsstring.

Lemma parallel_eq prompt inputs order log :
  parallel generateContent prompt inputs order log
  = (log ++ parallel_requests prompt inputs,
     Promise_all (parallel_calls generateContent prompt inputs log) order).
Proof.
  unfold parallel.
  change (fun input => llmCall1 generateContent (prompt ++ nl ++ lit "Input: " ++ input))
    with (fun input => llmCall1 generateContent (with_input prompt input)).
  now rewrite (map_async_llmCall1 generateContent (with_input prompt)).
Qed.

Lemma parallel_calls_lookup prompt inputs log i input :
  inputs !! i = Some input ->
  parallel_calls generateContent prompt inputs log !! i
  = Some (call_outcome generateContent (log ++ take i (parallel_requests prompt inputs))
            (with_input prompt input)).
Proof.
  intros Hi. unfold parallel_calls. rewrite list_lookup_imap, Hi. reflexivity.
Qed.

Lemma parallel_calls_length prompt inputs log :
  length (parallel_calls generateContent prompt inputs log) = length inputs.
Proof. unfold parallel_calls. apply length_imap. Qed.

End ParallelFacts.

(** C6.  When the client answers the call for [inputs[i]] with [rs[i]],
    [parallel] sends one request per input, [prompt], a line break,
    [Input: ] and the input, and returns the list of the answers, as long as
    the inputs and with [rs[i]] at index [i], in whatever [order] the calls
    complete. *)
Theorem parallel_index_aligned generateContent (prompt : jsstring) (inputs rs : list jsstring)
    (order : list nat) (log : Log) :
  length rs = length inputs ->
  (forall i input r,
      inputs !! i = Some input -> rs !! i = Some r ->
      answers generateContent
        (log ++ take i (map (fun input => request (prompt ++ nl ++ lit "Input: " ++ input)) inputs))
        (prompt ++ nl ++ lit "Input: " ++ input) r) ->
  parallel generateContent prompt inputs order log
  = (log ++ map (fun input => request (prompt ++ nl ++ lit "Input: " ++ input)) inputs,
     Return (map Some rs)).
Proof.
  intros Hlen Hans. rewrite parallel_eq. unfold parallel_requests, with_input. f_equal.
  replace (parallel_calls generateContent prompt inputs log) with (map Return rs).
  - apply Promise_all_fulfilled.
  - apply list_eq. intros i. rewrite list_lookup_fmap.
    destruct (inputs !! i) as [input |] eqn:Hi.
    + rewrite (parallel_calls_lookup _ _ _ _ _ _ Hi).
      destruct (rs !! i) as [r |] eqn:Hr.
      * cbn. f_equal. symmetry. apply call_outcome_answers. now apply Hans.
      * apply lookup_ge_None in Hr. apply lookup_lt_Some in Hi. lia.
    + rewrite (lookup_ge_None_2 (parallel_calls _ _ _ _)).
      * apply lookup_ge_None in Hi. rewrite (lookup_ge_None_2 rs) by lia. reflexivity.
      * rewrite parallel_calls_length. now apply lookup_ge_None.
Qed.

(** Three inputs whose calls complete in reverse order. *)
Lemma parallel_index_aligned_witness :
  parallel (scripted [says "ra"; says "rb"; says "rc"]) (lit "p") [lit "a"; lit "b"; lit "c"]
    [2; 1; 0] []
  = ([request (lit "p" ++ nl ++ lit "Input: a"); request (lit "p" ++ nl ++ lit "Input: b");
      request (lit "p" ++ nl ++ lit "Input: c")],
     Return [Some (lit "ra"); Some (lit "rb"); Some (lit "rc")]).
Proof.
  apply (parallel_index_aligned (scripted [says "ra"; says "rb"; says "rc"]) (lit "p")
           [lit "a"; lit "b"; lit "c"] [lit "ra"; lit "rb"; lit "rc"] [2; 1; 0] [] eq_refl).
  intros [| [| [| i]]] input r Hi Hr; cbn in Hi, Hr; simplify_eq;
    (split; [reflexivity | discriminate]).
Defined.

(** ** Task Orchestrator: the worker dispatch *)

Section ProcessFacts.
Variable generateContent : Log -> GenerateContentParameters -> exn + option jsstring.

Lemma process_eq this task context order log orchestratorInput response :
  formatPrompt (orchestratorPrompt this)
    (object_literal [(lit "task", task)] (default [] context)) = inr orchestratorInput ->
  answers generateContent log orchestratorInput response ->
  process generateContent this task context order log
  = (fst (dispatch generateContent this task context response (log ++ [request orchestratorInput])),
     match Promise_all (snd (dispatch generateContent this task context response
                               (log ++ [request orchestratorInput]))) order with
     | Return vs => Return {| analysis := extractXml response (lit "analysis");
                              worker_results := vs |}
     | Throw e => Throw e
     | Pending => Pending
     end).
Proof.
  intros Hf Ha. unfold process, bind. rewrite Hf. cbn [lift ret].
  rewrite (llmCall1_answers _ _ _ _ Ha). unfold dispatch.
  destruct (map_async _ _ _) as [log2 promises]. cbn [fst snd].
  destruct (Promise_all promises order); reflexivity.
Qed.

(** A template that does not format rejects before any request. *)
Lemma process_format_error this task context order log e :
  formatPrompt (orchestratorPrompt this)
    (object_literal [(lit "task", task)] (default [] context)) = inl e ->
  process generateContent this task context order log = (log, Throw e).
Proof. intros Hf. unfold process, bind. now rewrite Hf. Qed.

Lemma worker_eq this task effectiveContext taskInfo log :
  worker generateContent this task effectiveContext taskInfo log
  = match formatPrompt (workerPrompt this)
            (object_literal [(lit "original_task", task); (lit "task_type", type taskInfo);
                             (lit "task_description", description taskInfo)]
               effectiveContext) with
    | inl e => (log, Throw e)
    | inr workerInput =>
        (log ++ [request workerInput],
         match call_outcome generateContent log workerInput with
         | Return workerResponse =>
             Return {| w_type := type taskInfo; w_description := description taskInfo;
                       w_result := extractXml workerResponse (lit "response") |}
         | Throw e => Throw e
         | Pending => Pending
         end)
    end.
Proof.
  unfold worker, bind. destruct (formatPrompt _ _) as [e | workerInput]; [reflexivity |].
  cbn [lift ret]. rewrite llmCall1_eq.
  destruct (call_outcome _ _ _); reflexivity.
Qed.

Lemma process_call_fails this task context order log orchestratorInput e :
  formatPrompt (orchestratorPrompt this)
    (object_literal [(lit "task", task)] (default [] context)) = inr orchestratorInput ->
  call_outcome generateContent log orchestratorInput = Throw e ->
  process generateContent this task context order log
  = (log ++ [request orchestratorInput], Throw e).
Proof.
  intros Hf Hc. unfold process, bind. rewrite Hf. cbn [lift ret].
  now rewrite llmCall1_eq, Hc.
Qed.

(** When every worker returns, every subtask has had its request, the
    worker template formatted for it, in the order of the subtasks. *)
Lemma workers_return this task effectiveContext subTasks log log' ws :
  map_async (worker generateContent this task effectiveContext) subTasks log
  = (log', map Return ws) ->
  exists workerInputs,
    log' = log ++ map request workerInputs
    /\ Forall2 (fun taskInfo workerInput =>
                  formatPrompt (workerPrompt this)
                    (object_literal [(lit "original_task", task);
                                     (lit "task_type", type taskInfo);
                                     (lit "task_description", description taskInfo)]
                       effectiveContext) = inr workerInput)
         subTasks workerInputs
    /\ length ws = length subTasks.
Proof.
  revert log ws. induction subTasks as [| t subTasks IH]; intros log ws.
  - cbn [map_async]. destruct ws; [| discriminate]. intros [= <-].
    exists []. cbn. rewrite app_nil_r. repeat split. constructor.
  - cbn [map_async]. rewrite worker_eq.
    destruct (formatPrompt _ _) as [e | workerInput] eqn:Hf.
    + destruct (map_async _ subTasks log) as [log2 ps]. destruct ws; discriminate.
    + destruct (map_async _ subTasks (log ++ [request workerInput])) as [log2 ps] eqn:Hm.
      destruct ws as [| w ws]; [discriminate |]. cbn [map]. intros [= <- _ ->].
      destruct (IH _ _ Hm) as [workerInputs [-> [Hall Hlen]]].
      exists (workerInput :: workerInputs). split; [now rewrite <- app_assoc |].
      split; [now constructor | cbn; lia].
Qed.

Lemma requests_of_workers_cons this task context taskInfo subTasks :
  requests_of_workers this task context (taskInfo :: subTasks)
  = match worker_input this task context taskInfo with
    | inr workerInput => request workerInput :: requests_of_workers this task context subTasks
    | inl _ => requests_of_workers this task context subTasks
    end.
Proof.
  unfold requests_of_workers. cbn [omap list_omap].
  now destruct (worker_input this task context taskInfo).
Qed.

(** The worker stage: the workers whose templates format send one request
    each, in the order of the subtasks, and the promise of each worker is
    rejected with the failure of its template or settled as its call is. *)
Lemma workers_run this task context subTasks log :
  fst (map_async (worker generateContent this task (default [] context)) subTasks log)
  = log ++ requests_of_workers this task context subTasks
  /\ forall i taskInfo,
       subTasks !! i = Some taskInfo ->
       snd (map_async (worker generateContent this task (default [] context)) subTasks log) !! i
       = Some match worker_input this task context taskInfo with
              | inl e => Throw e
              | inr workerInput =>
                  match call_outcome generateContent
                          (log ++ requests_of_workers this task context (take i subTasks))
                          workerInput with
                  | Return workerResponse =>
                      Return {| w_type := type taskInfo; w_description := description taskInfo;
                                w_result := extractXml workerResponse (lit "response") |}
                  | Throw e => Throw e
                  | Pending => Pending
                  end
              end.
Proof.
  revert log. induction subTasks as [| t subTasks IH]; intros log.
  - cbn. rewrite app_nil_r. split; [reflexivity |]. intros i taskInfo [=].
  - cbn [map_async]. rewrite worker_eq, requests_of_workers_cons.
    change (formatPrompt (workerPrompt this)
              (object_literal [(lit "original_task", task); (lit "task_type", type t);
                               (lit "task_description", description t)]
                 (default [] context)))
      with (worker_input this task context t).
    destruct (worker_input this task context t) as [e | workerInput] eqn:Hw.
    + destruct (IH log) as [Hlog Hlook].
      destruct (map_async _ subTasks log) as [log2 ps]. cbn [fst snd] in *.
      split; [exact Hlog |].
      intros [| i] taskInfo Hi; cbn in Hi.
      * injection Hi as <-. now rewrite Hw.
      * cbn [take]. rewrite requests_of_workers_cons, Hw. exact (Hlook i taskInfo Hi).
    + destruct (IH (log ++ [request workerInput])) as [Hlog Hlook].
      destruct (map_async _ subTasks (log ++ [request workerInput])) as [log2 ps].
      cbn [fst snd] in *. subst log2. split; [now rewrite <- app_assoc |].
      intros [| i] taskInfo Hi; cbn in Hi.
      * injection Hi as <-. rewrite Hw. cbn [take]. unfold requests_of_workers at 1.
        cbn [omap list_omap]. now rewrite app_nil_r.
      * cbn [take]. rewrite requests_of_workers_cons, Hw.
        specialize (Hlook i taskInfo Hi). rewrite <- app_assoc in Hlook. exact Hlook.
Qed.

End ProcessFacts.

(** C7.  Fail-fast aggregation.  In [parallel], if the call for some input
    fails, the whole call is rejected, and it returns a list only when the
    call for every input returned.  In [process], once the decomposition
    request is answered: if the completion call of the worker of some
    subtask fails, the whole call is rejected, all the worker requests
    having been sent; and it returns only when, for every subtask, the
    worker template formatted and the completion call of the worker
    returned, with one result per subtask, each made of the type and the
    description of its subtask and the extract of the answer to its
    worker.  No shorter list of the results that did arrive is ever
    returned. *)
Theorem aggregate_fail_fast generateContent (order : list nat) (log : Log) :
  (forall prompt inputs,
      let requests := map (fun input => request (with_input prompt input)) inputs in
      (forall i input e,
          inputs !! i = Some input ->
          call_outcome generateContent (log ++ take i requests) (with_input prompt input) = Throw e ->
          exists e', parallel generateContent prompt inputs order log = (log ++ requests, Throw e'))
      /\ (forall log' vs,
             parallel generateContent prompt inputs order log = (log', Return vs) ->
             exists rs, vs = map Some rs /\ length rs = length inputs
                        /\ forall i input, inputs !! i = Some input ->
                             exists r, rs !! i = Some r
                                       /\ call_outcome generateContent (log ++ take i requests)
                                            (with_input prompt input) = Return r))
  /\ (forall this task context orchestratorInput response,
         formatPrompt (orchestratorPrompt this)
           (object_literal [(lit "task", task)] (default [] context)) = inr orchestratorInput ->
         answers generateContent log orchestratorInput response ->
         let subTasks := parse_tasks (extractXml response (lit "tasks")) in
         (forall i taskInfo workerInput e,
             subTasks !! i = Some taskInfo ->
             worker_input this task context taskInfo = inr workerInput ->
             call_outcome generateContent
               (log ++ request orchestratorInput
                    :: requests_of_workers this task context (take i subTasks))
               workerInput = Throw e ->
             exists e', process generateContent this task context order log
                        = (log ++ request orchestratorInput
                               :: requests_of_workers this task context subTasks,
                           Throw e'))
         /\ (forall log' out,
                process generateContent this task context order log = (log', Return out) ->
                exists ws,
                  worker_results out = map Some ws
                  /\ length ws = length subTasks
                  /\ forall i taskInfo,
                       subTasks !! i = Some taskInfo ->
                       exists workerInput workerResponse,
                         worker_input this task context taskInfo = inr workerInput
                         /\ call_outcome generateContent
                              (log ++ request orchestratorInput
                                   :: requests_of_workers this task context (take i subTasks))
                              workerInput = Return workerResponse
                         /\ ws !! i
                            = Some {| w_type := type taskInfo;
                                      w_description := description taskInfo;
                                      w_result := extractXml workerResponse (lit "response") |})).
Proof.
  split.
  - intros prompt inputs requests. split.
    + intros i input e Hi Hcall. rewrite parallel_eq.
      destruct (Promise_all_rejected (parallel_calls generateContent prompt inputs log) order i e)
        as [e' [He' _]].
      * rewrite (parallel_calls_lookup _ _ _ _ _ _ Hi). f_equal. exact Hcall.
      * exists e'. now rewrite He'.
    + intros log' vs. rewrite parallel_eq. intros [= _ Hp].
      destruct (Promise_all_returns _ _ _ Hp) as [rs [Hrs ->]].
      exists rs. split; [reflexivity |].
      assert (length rs = length inputs) as Hlen.
      { rewrite <- (parallel_calls_length generateContent prompt inputs log), Hrs.
        now rewrite length_fmap. }
      split; [exact Hlen |].
      intros i input Hi.
      pose proof (parallel_calls_lookup generateContent prompt inputs log i input Hi) as Hl.
      rewrite Hrs, list_lookup_fmap in Hl.
      destruct (rs !! i) as [r |]; [| discriminate].
      exists r. split; [reflexivity |]. injection Hl as Hl. symmetry. exact Hl.
  - intros this task context orchestratorInput response Hf Ha subTasks.
    rewrite (process_eq _ _ _ _ _ _ _ _ Hf Ha). unfold dispatch. fold subTasks.
    destruct (workers_run generateContent this task context subTasks
                (log ++ [request orchestratorInput])) as [Hlog Hlook].
    split.
    + intros i taskInfo workerInput e Hi Hw Hcall.
      rewrite Hlog, <- app_assoc. cbn [app].
      specialize (Hlook i taskInfo Hi). rewrite Hw in Hlook.
      rewrite <- app_assoc in Hlook. cbn [app] in Hlook. rewrite Hcall in Hlook.
      destruct (Promise_all_rejected _ order i e Hlook) as [e' [He' _]].
      exists e'. now rewrite He'.
    + intros log' out.
      destruct (map_async _ subTasks _) as [log2 promises] eqn:Hm. cbn [fst snd] in *.
      destruct (Promise_all promises order) as [vs | e |] eqn:Hp; intros [= _ <-].
      destruct (Promise_all_returns _ _ _ Hp) as [ws [-> ->]].
      destruct (workers_return _ _ _ _ _ _ _ _ Hm) as [workerInputs [_ [_ Hlen]]].
      exists ws. split; [reflexivity |]. split; [exact Hlen |].
      intros i taskInfo Hi. specialize (Hlook i taskInfo Hi).
      rewrite <- app_assoc in Hlook. cbn [app] in Hlook.
      rewrite list_lookup_fmap in Hlook.
      destruct (ws !! i) as [w |]; [| discriminate].
      cbn [fmap option_fmap option_map] in Hlook.
      destruct (worker_input this task context taskInfo) as [e | workerInput];
        [discriminate |].
      destruct (call_outcome _ _ _) as [workerResponse | e |] eqn:Hc; try discriminate.
      exists workerInput, workerResponse. split; [reflexivity |]. split; [exact Hc |].
      injection Hlook as Hw. now subst w.
Qed.

(** Three calls of [parallel] of which the second is rejected, the third
    completing first: the fan-out is rejected.  Two workers of [process]
    of which the second has its call rejected, the rejection arriving
    first: the orchestration is rejected. *)
Lemma aggregate_fail_fast_witness :
  (exists e',
      parallel (scripted [says "ra"; inl (Error (lit "quota")); says "rc"]) (lit "p")
        [lit "a"; lit "b"; lit "c"] [2; 0; 1] []
      = ([request (with_input (lit "p") (lit "a")); request (with_input (lit "p") (lit "b"));
          request (with_input (lit "p") (lit "c"))],
         Throw e'))
  /\ (exists e',
         process
           (scripted
              [says "<tasks><task><type>formal</type><description>d1</description></task><task><type>casual</type><description>d2</description></task></tasks>";
               says "<response>r1</response>"; inl (Error (lit "quota"))])
           sample_orchestrator (lit "a note") None [1; 0] []
         = ([request (lit "Plan a note"); request (lit "Do formal: d1 for a note");
             request (lit "Do casual: d2 for a note")],
            Throw e')).
Proof.
  split.
  - destruct (aggregate_fail_fast (scripted [says "ra"; inl (Error (lit "quota")); says "rc"])
                [2; 0; 1] []) as [Hpar _].
    destruct (Hpar (lit "p") [lit "a"; lit "b"; lit "c"]) as [H _].
    exact (H 1 (lit "b") (Error (lit "quota")) eq_refl eq_refl).
  - destruct (aggregate_fail_fast
                (scripted
                   [says "<tasks><task><type>formal</type><description>d1</description></task><task><type>casual</type><description>d2</description></task></tasks>";
                    says "<response>r1</response>"; inl (Error (lit "quota"))])
                [1; 0] []) as [_ Hproc].
    destruct (Hproc sample_orchestrator (lit "a note") None (lit "Plan a note")
                (lit "<tasks><task><type>formal</type><description>d1</description></task><task><type>casual</type><description>d2</description></task></tasks>")
                eq_refl) as [H _].
    + split; [reflexivity | discriminate].
    + exact (H 1 {| type := lit "casual"; description := lit "d2" |}
               (lit "Do casual: d2 for a note") (Error (lit "quota"))
               eq_refl eq_refl eq_refl).
Defined.

(** ** Scanning for a literal text *)

Section Literal.
Variables ic dotall : bool.

Lemma starts_length w s : starts ic w s = true -> length w <= length s.
Proof.
  revert s. induction w as [| a w IH]; intros s H; [cbn; lia |].
  destruct s as [| c s]; [discriminate |]. cbn in H |- *.
  apply andb_true_iff in H as [_ H]. apply IH in H. lia.
Qed.

Lemma matcher_literal w p s :
  matcher ic dotall (literal w ++ p) s
  = if starts ic w s
    then match matcher ic dotall p (drop (length w) s) with
         | Some (mt, caps, rest) => Some (take (length w) s ++ mt, caps, rest)
         | None => None
         end
    else None.
Proof.
  revert s. induction w as [| a w IH]; intros s.
  - cbn. rewrite drop_0. now destruct (matcher ic dotall p s) as [[[mt caps] rest] |].
  - cbn [literal map app matcher quantified].
    destruct s as [| c s]; [reflexivity |].
    cbn [one_then CharacterSetMatcher starts].
    destruct (same_char ic a c); [| reflexivity]. cbn [andb].
    fold (literal w). rewrite IH.
    destruct (starts ic w s); [| reflexivity].
    cbn [length drop take].
    now destruct (matcher ic dotall p (drop (length w) s)) as [[[mt caps] rest] |].
Qed.

Lemma matcher_literal_only w s :
  matcher ic dotall (literal w) s
  = if starts ic w s then Some (take (length w) s, [], drop (length w) s) else None.
Proof.
  rewrite <- (app_nil_r (literal w)), matcher_literal. cbn.
  now rewrite app_nil_r.
Qed.

Lemma find_Some w s n :
  find ic w s = Some n ->
  starts ic w (drop n s) = true /\ forall j, j < n -> starts ic w (drop j s) = false.
Proof.
  revert n. induction s as [| c s IH]; intros n; cbn [find].
  - destruct (starts ic w []) eqn:Hs; [| discriminate].
    intros [= <-]. split; [exact Hs | lia].
  - destruct (starts ic w (c :: s)) eqn:Hs.
    + intros [= <-]. split; [exact Hs | lia].
    + destruct (find ic w s) as [m |]; [| discriminate].
      intros [= <-]. destruct (IH m eq_refl) as [H1 H2]. split; [exact H1 |].
      intros [| j] Hj; [exact Hs |]. apply H2. lia.
Qed.

Lemma find_None w s : find ic w s = None -> forall j, starts ic w (drop j s) = false.
Proof.
  induction s as [| c s IH]; cbn [find].
  - destruct (starts ic w []) eqn:Hs; [discriminate |]. intros _ j. now rewrite drop_nil.
  - destruct (starts ic w (c :: s)) eqn:Hs; [discriminate |].
    destruct (find ic w s) as [m |] eqn:Hf; [discriminate |].
    intros _ [| j]; [exact Hs | now apply IH].
Qed.

Lemma find_first w s n :
  starts ic w (drop n s) = true -> (forall j, j < n -> starts ic w (drop j s) = false) ->
  find ic w s = Some n.
Proof.
  revert n. induction s as [| c s IH]; intros n Hn Hlt.
  - rewrite drop_nil in Hn. cbn [find]. rewrite Hn.
    destruct n; [reflexivity |].
    pose proof (Hlt 0 ltac:(lia)) as H0. cbn [drop] in H0. congruence.
  - cbn [find]. destruct n as [| n].
    + cbn in Hn. now rewrite Hn.
    + pose proof (Hlt 0 ltac:(lia)) as H0. cbn [drop] in H0. rewrite H0.
      rewrite (IH n); [reflexivity | exact Hn |].
      intros j Hj. apply (Hlt (S j)). lia.
Qed.

Lemma find_None_drop w s n : find ic w s = None -> find ic w (drop n s) = None.
Proof.
  intros H. destruct (find ic w (drop n s)) as [m |] eqn:Hf; [| reflexivity].
  apply find_Some in Hf as [Hf _]. rewrite drop_drop in Hf.
  now rewrite (find_None _ _ H) in Hf.
Qed.

Lemma find_lt w s n : find ic w s = Some n -> n + length w <= length s.
Proof.
  revert n. induction s as [| c s IH]; intros n; cbn [find].
  - destruct (starts ic w []) eqn:Hs; [| discriminate].
    intros [= <-]. apply starts_length in Hs. cbn in *. lia.
  - destruct (starts ic w (c :: s)) eqn:Hs.
    + intros [= <-]. apply starts_length in Hs. cbn in *. lia.
    + destruct (find ic w s) as [m |]; [| discriminate].
      intros [= <-]. specialize (IH m eq_refl). cbn. lia.
Qed.

(** A lazy repetition of any character in front of a literal text stops
    at the first place where the text begins. *)
Lemma repeat_lazy_literal w s :
  repeat_lazy (fun _ => true) (matcher ic dotall (literal w)) s
  = match find ic w s with
    | Some n => Some (take n s, (take (length w) (drop n s), [], drop (length w) (drop n s)))
    | None => None
    end.
Proof.
  induction s as [| c s IH]; cbn [repeat_lazy find]; rewrite matcher_literal_only.
  - destruct (starts ic w []); reflexivity.
  - destruct (starts ic w (c :: s)); [reflexivity |].
    rewrite IH. now destruct (find ic w s).
Qed.

End Literal.

(** [(.+?)] in front of a literal text, under the flag [s]. *)
Lemma matcher_lazy_plus_group ic w s :
  matcher ic true (Group CsDot (QPlus false) :: literal w) s
  = match s with
    | [] => None
    | c :: body =>
        match find ic w body with
        | Some k => Some ((c :: take k body) ++ take (length w) (drop k body),
                          [c :: take k body], drop (length w) (drop k body))
        | None => None
        end
    end.
Proof.
  cbn [matcher quantified one_then].
  destruct s as [| c body]; [reflexivity |].
  change (CharacterSetMatcher ic true CsDot) with (fun _ : ascii => true).
  cbn [repeat one_then]. rewrite repeat_lazy_literal.
  destruct (find ic w body) as [k |]; reflexivity.
Qed.

(** ** Structured-Text Extractor *)

Section ExtractFacts.
Variable tag : jsstring.

Let pattern := source (extractXml_regex tag).

Lemma matcher_extract s :
  (fun st : MatchState => snd (fst st)) <$> matcher true true pattern s
  = (fun c => [c]) <$> content_at tag s.
Proof.
  unfold pattern, extractXml_regex, content_at. cbn [source].
  fold (open_tag tag). fold (close_tag tag).
  rewrite matcher_literal.
  destruct (starts true (open_tag tag) s); [| reflexivity].
  change ([Group CsDot (QPlus false)] ++ literal (close_tag tag))
    with (Group CsDot (QPlus false) :: literal (close_tag tag)).
  rewrite matcher_lazy_plus_group.
  destruct (drop (length (open_tag tag)) s) as [| c body]; [reflexivity |].
  destruct (find true (close_tag tag) body) as [k |]; reflexivity.
Qed.

Lemma content_at_None_later s n :
  starts true (open_tag tag) s = true -> content_at tag s = None ->
  content_at tag (drop (S n) s) = None.
Proof.
  unfold content_at. intros Hs. rewrite Hs.
  destruct (starts true (open_tag tag) (drop (S n) s)); [| reflexivity].
  rewrite drop_drop.
  replace (S n + length (open_tag tag)) with (length (open_tag tag) + S n) by lia.
  rewrite <- drop_drop.
  destruct (drop (length (open_tag tag)) s) as [| c body]; [now rewrite drop_nil |].
  destruct (find true (close_tag tag) body) as [k |] eqn:Hf; [discriminate |]. intros _.
  cbn [drop].
  destruct (drop n body) as [| c' body'] eqn:Hd; [reflexivity |].
  assert (body' = drop (S n) body) as ->.
  { change (S n) with (1 + n). rewrite Nat.add_comm, <- drop_drop, Hd. reflexivity. }
  now rewrite (find_None_drop _ _ _ _ Hf).
Qed.

Lemma search_None i s :
  (forall n, matcher true true pattern (drop n s) = None) ->
  search true true pattern i s = None.
Proof.
  revert i. induction s as [| c s IH]; intros i H; cbn [search].
  - pose proof (H 0) as H0. cbn [drop] in H0. now rewrite H0.
  - pose proof (H 0) as H0. cbn [drop] in H0. rewrite H0.
    apply IH. intros n. exact (H (S n)).
Qed.

Lemma content_None_matcher s :
  content_at tag s = None -> matcher true true pattern s = None.
Proof.
  intros H. pose proof (matcher_extract s) as Hm. rewrite H in Hm.
  now destruct (matcher true true pattern s).
Qed.

Lemma search_extract i text :
  captures <$> search true true pattern i text
  = (fun c => [c]) <$> between_first_nonempty_pair text tag.
Proof.
  revert i. induction text as [| c text IH]; intros i.
  - cbn [search]. unfold between_first_nonempty_pair. cbn [find].
    destruct (starts true (open_tag tag) []) eqn:Hs; [discriminate |].
    rewrite content_None_matcher; [reflexivity |].
    unfold content_at. now rewrite Hs.
  - cbn [search]. pose proof (matcher_extract (c :: text)) as Hm.
    unfold between_first_nonempty_pair. cbn [find].
    destruct (starts true (open_tag tag) (c :: text)) eqn:Hs.
    + (* the first opening delimiter is here *)
      cbn [Nat.add].
      destruct (matcher true true pattern (c :: text)) as [[[mt caps] rest] |] eqn:Hmt.
      * cbn in Hm. cbn. rewrite Hm. unfold content_at. now rewrite Hs.
      * unfold content_at in Hm. rewrite Hs in Hm.
        assert (content_at tag (c :: text) = None) as Hc.
        { unfold content_at. rewrite Hs.
          destruct (drop (length (open_tag tag)) (c :: text)) as [| c' body]; [reflexivity |].
          destruct (find true (close_tag tag) body); [discriminate | reflexivity]. }
        rewrite search_None.
        -- unfold content_at in Hc. rewrite Hs in Hc.
           destruct (drop (length (open_tag tag)) (c :: text)) as [| c' body]; [reflexivity |].
           destruct (find true (close_tag tag) body); [discriminate | reflexivity].
        -- intros n. apply content_None_matcher.
           exact (content_at_None_later (c :: text) n Hs Hc).
    + assert (matcher true true pattern (c :: text) = None) as ->.
      { apply content_None_matcher. unfold content_at. now rewrite Hs. }
      rewrite IH. unfold between_first_nonempty_pair.
      destruct (find true (open_tag tag) text) as [j |]; reflexivity.
Qed.

Lemma extractXml_scan text :
  extractXml text tag
  = match between_first_nonempty_pair text tag with
    | Some content => trim content
    | None => []
    end.
Proof.
  unfold extractXml, String_match, exec. cbn [global extractXml_regex ignoreCase dotAll].
  rewrite bool_decide_true by lia. rewrite drop_0.
  pose proof (search_extract 0 text) as H. unfold pattern in H.
  destruct (search true true (source (extractXml_regex tag)) 0 text) as [r |];
    destruct (between_first_nonempty_pair text tag) as [content |]; try discriminate;
    [| reflexivity].
  cbn in H. injection H as H. cbn. now rewrite H.
Qed.
End ExtractFacts.

Lemma find_tail ic w c body k :
  find ic w (c :: body) = Some (S k) -> find ic w body = Some k.
Proof.
  cbn [find]. destruct (starts ic w (c :: body)); [discriminate |].
  destruct (find ic w body); [now intros [= ->] | discriminate].
Qed.

(** C1.  [extractXml] returns, trimmed, the text between the first opening
    delimiter [<tag>] and the first closing delimiter [</tag>] that begins
    at least one character behind it, tags compared without regard to case
    and any character, line breaks included, allowed in between; it
    returns the empty string when there is no such pair.  It agrees with
    the extractor as specified whenever that one finds content that is not
    empty, and when it finds no pair at all.  It does not when the first
    pair is empty: the pattern asks for one character at least between the
    delimiters, so [extractXml] runs on to the next closing delimiter, if
    there is one, and gives back text with the closing delimiter of the
    first pair in it, where the content of the first pair is empty. *)
Theorem extractXml_first_nonempty_pair (text tag : jsstring) :
  extractXml text tag
  = match between_first_nonempty_pair text tag with
    | Some content => trim content
    | None => []
    end
  /\ (forall content, between_first_pair text tag = Some content -> content <> [] ->
        extractXml text tag = trim content)
  /\ (between_first_pair text tag = None -> extractXml text tag = [])
  /\ (extractXml (lit "<t></t><t>x</t>") (lit "t") = lit "</t><t>x"
      /\ extractXml_as_specified (lit "<t></t><t>x</t>") (lit "t") = [])
  /\ (extractXml (lit "<t></t>x</t>") (lit "t") = lit "</t>x"
      /\ extractXml_as_specified (lit "<t></t>x</t>") (lit "t") = []).
Proof.
  split; [apply extractXml_scan |].
  assert ((forall content, between_first_pair text tag = Some content -> content <> [] ->
             extractXml text tag = trim content)
          /\ (between_first_pair text tag = None -> extractXml text tag = [])) as [H1 H2].
  { rewrite extractXml_scan. unfold between_first_pair, between_first_nonempty_pair.
    destruct (find true (open_tag tag) text) as [i |]; [| split; [discriminate | reflexivity]].
    cbv zeta.
    destruct (drop (i + length (open_tag tag)) text) as [| c body] eqn:Hd.
    - split.
      + intros content. destruct (find true (close_tag tag) []) as [k |]; [| discriminate].
        rewrite take_nil. intros [= <-]. congruence.
      + reflexivity.
    - split.
      + intros content. destruct (find true (close_tag tag) (c :: body)) as [[| k] |] eqn:Hf;
          [intros [= <-]; cbn; congruence | | discriminate].
        intros [= <-] _. now rewrite (find_tail _ _ _ _ _ Hf).
      + destruct (find true (close_tag tag) (c :: body)) as [k |] eqn:Hf; [discriminate |].
        intros _. cbn [find] in Hf.
        destruct (starts true (close_tag tag) (c :: body)); [discriminate |].
        now destruct (find true (close_tag tag) body). }
  split; [exact H1 |]. split; [exact H2 |].
  split; split; vm_compute; reflexivity.
Qed.

(** A tag written in another case, around content on lines of its own. *)
Lemma extractXml_first_nonempty_pair_witness :
  extractXml (lit "so: <Reasoning>" ++ nl ++ lit " it is " ++ nl ++ lit "</reasoning> end")
    (lit "reasoning")
  = lit "it is".
Proof.
  destruct (extractXml_first_nonempty_pair
              (lit "so: <Reasoning>" ++ nl ++ lit " it is " ++ nl ++ lit "</reasoning> end")
              (lit "reasoning")) as [_ [H _]].
  rewrite (H (nl ++ lit " it is " ++ nl)); [reflexivity | reflexivity | discriminate].
Defined.

(** An empty pair followed by a second closing delimiter, or by a second
    pair: the specified extractor finds the empty content of the first
    pair, the source runs on to the second closing delimiter. *)
Lemma extractXml_empty_pair_counterexample :
  (extractXml (lit "<t></t>x</t>") (lit "t") = lit "</t>x"
   /\ extractXml_as_specified (lit "<t></t>x</t>") (lit "t") = []
   /\ extractXml (lit "<t></t>x</t>") (lit "t")
      <> extractXml_as_specified (lit "<t></t>x</t>") (lit "t"))
  /\ (extractXml (lit "<t></t><t>x</t>") (lit "t") = lit "</t><t>x"
      /\ extractXml_as_specified (lit "<t></t><t>x</t>") (lit "t") = []
      /\ extractXml (lit "<t></t><t>x</t>") (lit "t")
         <> extractXml_as_specified (lit "<t></t><t>x</t>") (lit "t")).
Proof. repeat split; vm_compute; discriminate. Qed.

(** ** What a match consumes, and where the search finds it *)

Section MatcherFacts.
Variables ic dotall : bool.

Lemma repeat_lazy_split {X} test (k : jsstring -> option X) s w x :
  repeat_lazy test k s = Some (w, x) -> exists s', s = w ++ s' /\ k s' = Some x.
Proof.
  revert w. induction s as [| c s IH]; intros w; cbn [repeat_lazy].
  - destruct (k []) eqn:Hk; [| discriminate]. intros [= <- <-]. now exists [].
  - destruct (k (c :: s)) eqn:Hk.
    + intros [= <- <-]. now exists (c :: s).
    + destruct (test c); [| discriminate].
      destruct (repeat_lazy test k s) as [[w' x'] |]; [| discriminate].
      intros [= <- <-]. destruct (IH w' eq_refl) as [s' [-> Hs']]. now exists s'.
Qed.

Lemma repeat_greedy_split {X} test (k : jsstring -> option X) s w x :
  repeat_greedy test k s = Some (w, x) -> exists s', s = w ++ s' /\ k s' = Some x.
Proof.
  revert w. induction s as [| c s IH]; intros w; cbn [repeat_greedy].
  - destruct (k []) eqn:Hk; cbn [option_map]; [| discriminate].
    intros [= <- <-]. now exists [].
  - destruct (test c).
    + destruct (repeat_greedy test k s) as [[w' x'] |].
      * intros [= <- <-]. destruct (IH w' eq_refl) as [s' [-> Hs']]. now exists s'.
      * destruct (k (c :: s)) eqn:Hk; cbn [option_map]; [| discriminate].
        intros [= <- <-]. now exists (c :: s).
    + destruct (k (c :: s)) eqn:Hk; cbn [option_map]; [| discriminate].
      intros [= <- <-]. now exists (c :: s).
Qed.

Lemma quantified_split {X} test q (k : jsstring -> option X) s w x :
  quantified test q k s = Some (w, x) -> exists s', s = w ++ s' /\ k s' = Some x.
Proof.
  destruct q as [| g | g]; cbn [quantified one_then].
  - destruct s as [| c s]; [discriminate |]. cbn [one_then].
    destruct (test c); [| discriminate].
    destruct (k s) eqn:Hk; cbn; [| discriminate]. intros [= <- <-]. now exists s.
  - destruct g; [apply repeat_greedy_split | apply repeat_lazy_split].
  - destruct s as [| c s]; [discriminate |]. cbn [one_then].
    destruct (test c); [| discriminate].
    destruct (repeat test g k s) as [[w' x'] |] eqn:Hr; [| discriminate].
    intros [= <- <-].
    assert (exists s', s = w' ++ s' /\ k s' = Some x') as [s' [-> Hs']].
    { destruct g; [eapply repeat_greedy_split | eapply repeat_lazy_split]; exact Hr. }
    now exists s'.
Qed.

Lemma matcher_atom cs q p s :
  matcher ic dotall (Atom cs q :: p) s
  = match quantified (CharacterSetMatcher ic dotall cs) q (matcher ic dotall p) s with
    | Some (w, (mt, caps, rest)) => Some (w ++ mt, caps, rest)
    | None => None
    end.
Proof. reflexivity. Qed.

Lemma matcher_group cs q p s :
  matcher ic dotall (Group cs q :: p) s
  = match quantified (CharacterSetMatcher ic dotall cs) q (matcher ic dotall p) s with
    | Some (w, (mt, caps, rest)) => Some (w ++ mt, w :: caps, rest)
    | None => None
    end.
Proof. reflexivity. Qed.

(** The input is the matched text followed by what is left over. *)
Lemma matcher_split p s mt caps rest :
  matcher ic dotall p s = Some (mt, caps, rest) -> s = mt ++ rest.
Proof.
  revert s mt caps rest. induction p as [| [cs q | cs q |] p IH]; intros s mt caps rest;
    cbn [matcher].
  - now intros [= <- <- <-].
  - destruct (quantified _ q _ s) as [[w [[mt' caps'] rest']] |] eqn:Hq; [| discriminate].
    intros [= <- <- <-]. apply quantified_split in Hq as [s' [-> Hs']].
    apply IH in Hs'. subst s'. now rewrite app_assoc.
  - destruct (quantified _ q _ s) as [[w [[mt' caps'] rest']] |] eqn:Hq; [| discriminate].
    intros [= <- <- <-]. apply quantified_split in Hq as [s' [-> Hs']].
    apply IH in Hs'. subst s'. now rewrite app_assoc.
  - destruct s; [apply IH | discriminate].
Qed.

Lemma search_Some p i s r :
  search ic dotall p i s = Some r ->
  exists k, index r = i + k /\ k <= length s
            /\ matcher ic dotall p (drop k s) = Some (matched r, captures r, after r)
            /\ forall j, j < k -> matcher ic dotall p (drop j s) = None.
Proof.
  revert i. induction s as [| c s IH]; intros i; cbn [search].
  - destruct (matcher ic dotall p []) as [[[mt caps] rest] |] eqn:Hm; [| discriminate].
    intros [= <-]. exists 0. cbn. repeat split; [lia | lia | exact Hm | lia].
  - destruct (matcher ic dotall p (c :: s)) as [[[mt caps] rest] |] eqn:Hm.
    + intros [= <-]. exists 0. cbn. repeat split; [lia | lia | exact Hm | lia].
    + intros H. destruct (IH _ H) as [k [Hi [Hk [Hmk Hlt]]]].
      exists (S k). cbn [drop length]. repeat split; [lia | lia | exact Hmk |].
      intros [| j] Hj; [exact Hm | apply Hlt; lia].
Qed.

Lemma search_None_iff p i s :
  search ic dotall p i s = None <-> forall n, matcher ic dotall p (drop n s) = None.
Proof.
  revert i. induction s as [| c s IH]; intros i; cbn [search].
  - destruct (matcher ic dotall p []) as [[[mt caps] rest] |] eqn:Hm.
    + split; [discriminate |]. intros H. specialize (H 0). cbn in H. congruence.
    + split; [| reflexivity]. intros _ n. now rewrite drop_nil.
  - destruct (matcher ic dotall p (c :: s)) as [[[mt caps] rest] |] eqn:Hm.
    + split; [discriminate |]. intros H. specialize (H 0). cbn in H. congruence.
    + rewrite IH. split.
      * intros H [| n]; [exact Hm | apply H].
      * intros H n. apply (H (S n)).
Qed.

(** A place where the pattern matches is found by the search, unless an
    earlier one is. *)
Lemma search_finds p i s k x :
  matcher ic dotall p (drop k s) = Some x ->
  exists r, search ic dotall p i s = Some r /\ index r <= i + k.
Proof.
  intros Hk. destruct (search ic dotall p i s) as [r |] eqn:Hs.
  - exists r. split; [reflexivity |].
    destruct (search_Some _ _ _ _ Hs) as [k' [Hi [_ [_ Hlt]]]].
    destruct (decide (k' <= k)); [lia |]. rewrite Hlt in Hk by lia. discriminate.
  - rewrite search_None_iff in Hs. rewrite Hs in Hk. discriminate.
Qed.
End MatcherFacts.

Section ExecFacts.
Variable R : RegExp.
Hypothesis R_global : global R = true.
Hypothesis R_never_empty : never_empty (ignoreCase R) (dotAll R) (source R).

Lemma search_shift p ic dotall i s :
  search ic dotall p i s
  = (fun r => {| index := i + index r; matched := matched r; captures := captures r;
                 after := after r |}) <$> search ic dotall p 0 s.
Proof.
  revert i. induction s as [| c s IH]; intros i; cbn [search].
  - destruct (matcher ic dotall p []) as [[[mt caps] rest] |]; cbn; [| reflexivity].
    now rewrite Nat.add_0_r.
  - destruct (matcher ic dotall p (c :: s)) as [[[mt caps] rest] |]; cbn.
    + now rewrite Nat.add_0_r.
    + rewrite (IH (S i)), (IH 1).
      destruct (search ic dotall p 0 s) as [r |]; cbn; [| reflexivity].
      do 2 f_equal. lia.
Qed.

(** One exec call, in terms of the text from [lastIndex] on. *)
Lemma exec_global S lastIndex :
  lastIndex <= length S ->
  match search (ignoreCase R) (dotAll R) (source R) 0 (drop lastIndex S) with
  | Some r =>
      exists r', exec R S lastIndex = (Some r', index r' + length (matched r'))
                 /\ matched r' = matched r /\ captures r' = captures r
                 /\ index r' = lastIndex + index r
                 /\ index r' + length (matched r') <= length S
                 /\ after r = drop (index r' + length (matched r')) S
                 /\ matched r <> []
  | None => exec R S lastIndex = (None, 0)
  end.
Proof.
  intros Hle. unfold exec. rewrite R_global, bool_decide_true by exact Hle.
  rewrite (search_shift _ _ _ lastIndex).
  destruct (search (ignoreCase R) (dotAll R) (source R) 0 (drop lastIndex S)) as [r |] eqn:Hs;
    [| reflexivity].
  cbn [fmap option_fmap option_map].
  eexists. split; [reflexivity |]. cbn [matched captures index].
  destruct (search_Some _ _ _ _ _ _ Hs) as [k [Hi [Hk [Hm _]]]]. cbn in Hi. subst k.
  pose proof (matcher_split _ _ _ _ _ _ _ Hm) as Hsplit.
  pose proof (R_never_empty _ _ _ _ Hm) as Hne.
  rewrite drop_drop in Hsplit.
  assert (length (drop (lastIndex + index r) S) = length (matched r) + length (after r)) as Hlen.
  { now rewrite Hsplit at 1; rewrite length_app. }
  rewrite length_drop in Hlen. rewrite length_drop in Hk.
  repeat split; [lia | | exact Hne].
  rewrite <- (drop_drop S), Hsplit, drop_app_length. reflexivity.
Qed.

(** The exec loop and the scan of the rest of the text agree. *)
Lemma exec_all_scan fuel S lastIndex :
  lastIndex <= length S ->
  map (fun r => (matched r, captures r)) (exec_all fuel R S lastIndex)
  = scan fuel (ignoreCase R) (dotAll R) (source R) (drop lastIndex S).
Proof.
  revert lastIndex. induction fuel as [| fuel IH]; intros lastIndex Hle; [reflexivity |].
  cbn [exec_all scan]. pose proof (exec_global S lastIndex Hle) as He.
  destruct (search (ignoreCase R) (dotAll R) (source R) 0 (drop lastIndex S)) as [r |].
  - destruct He as [r' [-> [Hm [Hc [Hi [Hb [Ha Hne]]]]]]].
    cbn [map]. rewrite Hm, Hc. f_equal.
    replace (truthy (matched r)) with true
      by (destruct (matched r); [now contradiction Hne | reflexivity]).
    rewrite IH by (rewrite <- Hm; exact Hb). now rewrite Ha, Hm.
  - now rewrite He.
Qed.
End ExecFacts.

(** The exec loop of a global pattern needs no more rounds than the text
    has positions, and two: more fuel does not change what it lists. *)
Lemma exec_all_fuel R S fuel fuel' lastIndex :
  global R = true ->
  length S + 2 <= fuel + lastIndex -> length S + 2 <= fuel' + lastIndex ->
  exec_all fuel R S lastIndex = exec_all fuel' R S lastIndex.
Proof.
  intros Hg. revert fuel' lastIndex.
  assert (forall n lastIndex, length S < lastIndex -> exec_all n R S lastIndex = []) as Hout.
  { intros [| n] lastIndex Hlt; [reflexivity |]. cbn [exec_all]. unfold exec.
    rewrite Hg, bool_decide_false by lia. reflexivity. }
  induction fuel as [| fuel IH]; intros fuel' lastIndex H1 H2.
  - rewrite !Hout by lia. reflexivity.
  - destruct fuel' as [| fuel']; [rewrite !Hout by lia; reflexivity |].
    cbn [exec_all]. unfold exec. rewrite Hg.
    destruct (bool_decide_reflect (lastIndex <= length S)) as [Hle | Hgt]; [| reflexivity].
    destruct (search (ignoreCase R) (dotAll R) (source R) lastIndex (drop lastIndex S))
      as [r |] eqn:Hs; [| reflexivity].
    f_equal. destruct (search_Some _ _ _ _ _ _ Hs) as [k [Hi _]].
    apply IH; destruct (matched r); cbn [truthy length]; lia.
Qed.

(** ** Placeholders *)

Lemma same_char_exact a c : same_char false a c = true <-> a = c.
Proof.
  unfold same_char, Canonicalize, code. rewrite N.eqb_eq. split; [| now intros ->].
  intros H. rewrite <- (ascii_N_embedding a), <- (ascii_N_embedding c). now rewrite H.
Qed.

Lemma brace_open : brace "{" = true.
Proof. reflexivity. Qed.

Lemma brace_close : brace "}" = true.
Proof. reflexivity. Qed.

Section PlaceholderFacts.
Local Abbreviation P := (source remaining_placeholder).
Local Abbreviation test := (CharacterSetMatcher false false (CsNot ["{"; "}"]%char)).
Local Abbreviation close := (matcher false false [Atom (CsChar "}") QOne]).

Lemma test_brace c : test c = negb (brace c).
Proof. reflexivity. Qed.

Lemma test_name c : brace c = false -> test c = true.
Proof. intros H. change (negb (brace c) = true). now rewrite H. Qed.

Lemma test_true c : test c = true -> brace c = false.
Proof. change (negb (brace c) = true -> brace c = false). now destruct (brace c). Qed.

Lemma close_spec s :
  close s = match s with
            | c :: rest => if same_char false "}" c then Some ([c], [], rest) else None
            | [] => None
            end.
Proof.
  cbn [matcher quantified]. destruct s as [| c rest]; [reflexivity |].
  cbn [one_then CharacterSetMatcher]. destruct (same_char false "}" c); reflexivity.
Qed.

Lemma repeat_greedy_Forall {X} (k : jsstring -> option X) s w x :
  repeat_greedy test k s = Some (w, x) -> Forall (fun c => brace c = false) w.
Proof.
  revert w. induction s as [| c s IH]; intros w; cbn [repeat_greedy].
  - destruct (k []); cbn [option_map]; [| discriminate]. intros [= <- <-]. constructor.
  - destruct (test c) eqn:Ht.
    + destruct (repeat_greedy test k s) as [[w' x'] |].
      * intros [= <- <-]. constructor; [| now apply IH].
        now apply test_true.
      * destruct (k (c :: s)); cbn [option_map]; [| discriminate]. intros [= <- <-]. constructor.
    + destruct (k (c :: s)); cbn [option_map]; [| discriminate]. intros [= <- <-]. constructor.
Qed.

Lemma repeat_greedy_name name post :
  Forall (fun c => brace c = false) name ->
  repeat_greedy test close (name ++ "}"%char :: post) = Some (name, (["}"%char], [], post)).
Proof.
  induction 1 as [| c name Hc _ IH]; cbn [app repeat_greedy].
  - change (test "}") with false. cbv iota. now rewrite close_spec.
  - rewrite (test_name c Hc). now rewrite IH.
Qed.

(** The pattern matches exactly the tokens. *)
Lemma matcher_token name post :
  is_name name ->
  matcher false false P (token name ++ post) = Some (token name, [], post).
Proof.
  intros [Hne Hall]. destruct name as [| c name]; [contradiction |].
  apply Forall_cons in Hall as [Hc Hall].
  unfold remaining_placeholder, token. cbn [source lit list_ascii_of_string app].
  rewrite matcher_atom. cbn [quantified one_then].
  change (CharacterSetMatcher false false (CsChar "{") "{") with true. cbv iota.
  rewrite matcher_atom. cbn [quantified one_then].
  rewrite (test_name c Hc). cbn [repeat].
  replace ((name ++ ["}"%char]) ++ post) with (name ++ "}"%char :: post)
    by now rewrite <- List.app_assoc.
  rewrite (repeat_greedy_name name post Hall). reflexivity.
Qed.

Lemma matcher_token_inv s mt caps rest :
  matcher false false P s = Some (mt, caps, rest) ->
  exists name, is_name name /\ mt = token name /\ s = token name ++ rest /\ caps = [].
Proof.
  unfold remaining_placeholder. cbn [source].
  rewrite matcher_atom. cbn [quantified].
  destruct s as [| c0 s]; [discriminate |]. cbn [one_then CharacterSetMatcher].
  destruct (same_char false "{" c0) eqn:H0; [| discriminate].
  apply same_char_exact in H0. subst c0.
  rewrite matcher_atom. cbn [quantified].
  destruct s as [| c1 s]; [discriminate |]. cbn [one_then].
  destruct (test c1) eqn:H1; [| discriminate]. cbn [option_map repeat].
  destruct (repeat_greedy test close s) as [[w [[mt' caps'] rest']] |] eqn:Hg; [| discriminate].
  cbn. intros [= <- <- <-].
  pose proof (repeat_greedy_Forall _ _ _ _ Hg) as Hall.
  apply repeat_greedy_split in Hg as [s' [-> Hs']].
  rewrite close_spec in Hs'. destruct s' as [| c2 s']; [discriminate |].
  destruct (same_char false "}" c2) eqn:H2; [| discriminate].
  apply same_char_exact in H2. subst c2. injection Hs' as <- <- <-.
  exists (c1 :: w). split; [split | split; [| split]].
  - discriminate.
  - constructor; [| exact Hall]. now apply test_true.
  - unfold token. cbn. now rewrite <- ?List.app_assoc.
  - unfold token. cbn. now rewrite <- ?List.app_assoc.
  - reflexivity.
Qed.

Lemma placeholder_never_empty : never_empty false false P.
Proof.
  intros s mt caps rest H. apply matcher_token_inv in H as [name [_ [-> _]]]. discriminate.
Qed.

(** Some token begins somewhere exactly when the search succeeds. *)
Lemma search_placeholder s :
  search false false P 0 s <> None <-> has_placeholder s.
Proof.
  split.
  - intros H. destruct (search false false P 0 s) as [r |] eqn:Hs; [| contradiction].
    destruct (search_Some _ _ _ _ _ _ Hs) as [k [_ [_ [Hm _]]]].
    apply matcher_token_inv in Hm as [name [Hname [_ [Hd _]]]].
    exists (take k s), name, (after r). split; [| exact Hname].
    now rewrite <- Hd, take_drop.
  - intros [pre [name [post [-> Hname]]]] Hs.
    rewrite search_None_iff in Hs. specialize (Hs (length pre)).
    rewrite drop_app_length, (matcher_token name post Hname) in Hs. discriminate.
Qed.

(** A token does not reach into the next one. *)
Lemma token_before name rest q name' post :
  is_name name -> is_name name' -> q <> [] ->
  token name ++ rest = q ++ token name' ++ post ->
  exists q', q = token name ++ q' /\ rest = q' ++ token name' ++ post.
Proof.
  intros [_ Hall] _ Hq H.
  apply app_eq_inv in H as [[k [H1 H2]] | [k [H1 H2]]].
  - (* the second token would begin inside the first *)
    destruct k as [| c k].
    + rewrite app_nil_r in H1. cbn [app] in H2. exists []. cbn [app]. rewrite app_nil_r.
      split; [now symmetry | now symmetry].
    + exfalso. unfold token in H1, H2. cbn [lit list_ascii_of_string app] in H1, H2.
      injection H2 as <- _.
      destruct q as [| c q]; [contradiction |].
      cbn [app] in H1. injection H1 as _ H1.
      (* "{" occurs in [name ++ "}"] *)
      assert ("{"%char ∈ name ++ ["}"%char]) as Hin.
      { rewrite H1. apply elem_of_app. right. now left. }
      apply elem_of_app in Hin as [Hin | Hin].
      * rewrite Forall_forall in Hall.
        specialize (Hall _ Hin). now rewrite brace_open in Hall.
      * apply list_elem_of_singleton in Hin. discriminate.
  - exists k. split; [exact H1 | exact H2].
Qed.

(** Every token of the text is among the matches the scan lists. *)
Lemma scan_lists_token fuel pre name post :
  is_name name -> length (pre ++ token name ++ post) < fuel ->
  (token name, []) ∈ scan fuel false false P (pre ++ token name ++ post).
Proof.
  revert pre. induction fuel as [| fuel IH]; intros pre Hname Hlen; [lia |].
  cbn [scan].
  destruct (search_finds false false P 0 (pre ++ token name ++ post) (length pre) _
              ltac:(rewrite drop_app_length; exact (matcher_token name post Hname)))
    as [r [Hs Hidx]].
  rewrite Hs. destruct (search_Some _ _ _ _ _ _ Hs) as [k [Hk [_ [Hm _]]]].
  cbn in Hk, Hidx. rewrite Hk in Hidx.
  destruct (matcher_token_inv _ _ _ _ Hm) as [name0 [Hname0 [Hmt [Hd Hcaps]]]].
  rewrite Hmt, Hcaps.
  destruct (decide (k = length pre)) as [-> | Hne].
  - rewrite drop_app_length, (matcher_token name post Hname) in Hm.
    injection Hm as Hm _ _. rewrite <- Hmt, <- Hm. now left.
  - right.
    rewrite drop_app_le in Hd by lia.
    destruct (token_before name0 (after r) (drop k pre) name post Hname0 Hname) as [q' [Hq' Ha]].
    + intros Hnil. apply (f_equal length) in Hnil. rewrite length_drop in Hnil. cbn in Hnil. lia.
    + now symmetry.
    + rewrite Ha. apply IH; [exact Hname |].
      rewrite <- Ha.
      apply (f_equal length) in Hd. rewrite !length_app, length_drop in Hd.
      rewrite !length_app in Hlen.
      assert (0 < length (token name0)) by (unfold token; cbn; lia).
      lia.
Qed.
End PlaceholderFacts.

(** ** formatPrompt *)

Lemma remaining_placeholder_scan S :
  map matched (exec_all (length S + 2) remaining_placeholder S 0)
  = map fst (scan (length S + 2) false false (source remaining_placeholder) S).
Proof.
  pose proof (exec_all_scan remaining_placeholder eq_refl placeholder_never_empty
                (length S + 2) S 0 ltac:(lia)) as H.
  rewrite drop_0 in H.
  change (ignoreCase remaining_placeholder) with false in H.
  change (dotAll remaining_placeholder) with false in H.
  rewrite <- H, map_map. reflexivity.
Qed.

(** Keys without syntax characters: the pattern is well formed and matches
    the token of the key, so the loop replaces as specified. *)
Lemma plain_key_not_unterminated key : plain_key key = true -> unterminated_group key = false.
Proof.
  intros Hp. unfold unterminated_group.
  destruct (bool_decide ("("%char ∈ key)) eqn:Hin; [| reflexivity].
  apply bool_decide_eq_true in Hin. apply list_elem_of_In in Hin.
  unfold plain_key in Hp. rewrite forallb_forall in Hp. specialize (Hp _ Hin). discriminate.
Qed.

Lemma plain_key_compiles key :
  plain_key key = true -> new_RegExp_of_key key = inr (placeholder_of_key key).
Proof. intros Hp. unfold new_RegExp_of_key. now rewrite plain_key_not_unterminated. Qed.

Lemma key_term_plain key : plain_key key = true -> map key_term key = literal key.
Proof.
  unfold plain_key. induction key as [| c key IH]; [reflexivity |].
  cbn [forallb map literal]. intros H. apply andb_true_iff in H as [Hc Hk].
  rewrite (IH Hk). f_equal. unfold key_term.
  destruct (bool_decide (c = "."%char)) eqn:Hd;
    [apply bool_decide_eq_true in Hd; subst c; discriminate |].
  destruct (bool_decide (c = "$"%char)) eqn:He; [| reflexivity].
  apply bool_decide_eq_true in He. subst c. discriminate.
Qed.

Lemma placeholder_of_key_plain key :
  plain_key key = true -> placeholder_of_key key = token_pattern key.
Proof.
  intros Hp. unfold placeholder_of_key, token_pattern, token. rewrite (key_term_plain _ Hp).
  unfold literal. now rewrite !map_app.
Qed.

(** The loop, when no key leaves a group open. *)
Lemma replace_placeholders_substitute template kwargs :
  Forall (fun kv => unterminated_group (fst kv) = false) kwargs ->
  replace_placeholders template kwargs = inr (substitute template kwargs).
Proof.
  intros H. revert template. induction H as [| [key value] kwargs Hk _ IH]; intros template;
    [reflexivity |].
  cbn [replace_placeholders]. cbn [fst] in Hk. unfold new_RegExp_of_key. rewrite Hk.
  apply IH.
Qed.

Lemma replace_placeholders_plain template kwargs :
  plain_keys kwargs -> replace_placeholders template kwargs = inr (substitute template kwargs).
Proof.
  intros H. apply replace_placeholders_substitute. eapply Forall_impl; [exact H |].
  intros kv. apply plain_key_not_unterminated.
Qed.

Lemma substitute_plain template kwargs :
  plain_keys kwargs -> substitute template kwargs = substitute_as_specified template kwargs.
Proof.
  intros H. revert template. induction H as [| [key value] kwargs Hk _ IH]; intros template;
    [reflexivity |].
  unfold substitute, substitute_as_specified. cbn [fold_left fst snd]. cbn [fst] in Hk.
  rewrite (placeholder_of_key_plain _ Hk). apply IH.
Qed.

(** The check behind the loop: a text without a token passes; for a text
    with one, the match lists tokens only and every token of the text. *)
Lemma remaining_placeholders_spec formatted :
  (~ has_placeholder formatted /\ String_match formatted remaining_placeholder = None)
  \/ (has_placeholder formatted
      /\ exists tokens,
          String_match formatted remaining_placeholder = Some tokens
          /\ (forall pre name post,
                 formatted = pre ++ token name ++ post -> is_name name -> token name ∈ tokens)).
Proof.
  unfold String_match. cbn [global remaining_placeholder].
  change (exec_all (length formatted + 2)
            {| source := [Atom (CsChar "{") QOne; Atom (CsNot ["{"; "}"]%char) (QPlus true);
                          Atom (CsChar "}") QOne];
               global := true; ignoreCase := false; dotAll := false |} formatted 0)
    with (exec_all (length formatted + 2) remaining_placeholder formatted 0).
  pose proof (remaining_placeholder_scan formatted) as Hscan.
  destruct (search false false (source remaining_placeholder) 0 formatted) as [r |] eqn:Hs.
  - right.
    assert (has_placeholder formatted) as Hhas by (apply search_placeholder; congruence).
    split; [exact Hhas |].
    destruct (exec_all (length formatted + 2) remaining_placeholder formatted 0) as [| m ms] eqn:He.
    + exfalso. revert Hscan.
      replace (length formatted + 2) with (S (length formatted + 1)) by lia.
      cbn [scan]. rewrite Hs. discriminate.
    + exists (map matched (m :: ms)). split; [reflexivity |].
      intros pre name post Hf Hname. rewrite Hscan, Hf.
      apply (list_elem_of_fmap_2 fst _ (token name, [])).
      rewrite <- Hf at 1.
      replace (length formatted) with (length (pre ++ token name ++ post)) by now rewrite Hf.
      apply scan_lists_token; [exact Hname | lia].
  - left.
    assert (~ has_placeholder formatted) as Hhas.
    { intros H. apply search_placeholder in H. contradiction. }
    split; [exact Hhas |].
    assert (scan (length formatted + 2) false false (source remaining_placeholder) formatted = [])
      as Hnil.
    { replace (length formatted + 2) with (S (length formatted + 1)) by lia.
      cbn [scan]. now rewrite Hs. }
    rewrite Hnil in Hscan.
    destruct (exec_all _ _ _ _); [reflexivity | discriminate].
Qed.

(** [formatPrompt] when the pattern of every key is well formed: the loop
    leaves a text and the check goes over it. *)
Lemma formatPrompt_checks template kwargs formatted :
  replace_placeholders template kwargs = inr formatted ->
  (~ has_placeholder formatted /\ formatPrompt template kwargs = inr formatted)
  \/ (has_placeholder formatted
      /\ exists tokens,
          formatPrompt template kwargs = inl (missing_variables tokens)
          /\ (forall pre name post,
                 formatted = pre ++ token name ++ post -> is_name name -> token name ∈ tokens)).
Proof.
  intros Hr. unfold formatPrompt. rewrite Hr.
  destruct (remaining_placeholders_spec formatted) as [[Hno ->] | [Hhas [tokens [-> Hall]]]].
  - left. now split.
  - right. split; [exact Hhas |]. exists tokens. now split.
Qed.

(** What [formatPrompt] does with the text the replacement loop leaves:
    without a token it is returned; with one, the call throws the
    missing-variable error, which lists tokens only and every token of the
    text. *)
Lemma formatPrompt_spec template kwargs :
  plain_keys kwargs ->
  let formatted := substitute template kwargs in
  (~ has_placeholder formatted /\ formatPrompt template kwargs = inr formatted)
  \/ (has_placeholder formatted
      /\ exists tokens,
          formatPrompt template kwargs = inl (missing_variables tokens)
          /\ (forall pre name post,
                 formatted = pre ++ token name ++ post -> is_name name -> token name ∈ tokens)).
Proof.
  intros Hp formatted. apply formatPrompt_checks. now apply replace_placeholders_plain.
Qed.

(** C9, for keys without syntax characters.  The validation of
    [formatPrompt] looks at the text the replacement loop produced, not at
    the template.  For keys that hold no regular-expression syntax
    character the loop replaces every [{key}] as specified, and the call
    throws the missing-variable error exactly when the text so obtained
    holds a token [{name}] (at least one character between the braces,
    none of them a brace), and returns that text otherwise.  So a token
    that a value brought in makes the call throw, although the mapping
    resolves the whole template, unless a key processed later replaces
    it. *)
Theorem formatPrompt_validates_output (template : jsstring) (kwargs : js_object) :
  plain_keys kwargs ->
  substitute template kwargs = substitute_as_specified template kwargs
  /\ ((exists tokens, formatPrompt template kwargs = inl (missing_variables tokens))
      <-> has_placeholder (substitute_as_specified template kwargs))
  /\ ((exists formatted, formatPrompt template kwargs = inr formatted)
      <-> ~ has_placeholder (substitute_as_specified template kwargs))
  /\ (forall formatted, formatPrompt template kwargs = inr formatted ->
        formatted = substitute_as_specified template kwargs)
  /\ formatPrompt (lit "{a}") [(lit "a", lit "{b}")] = inl (missing_variables [lit "{b}"])
  /\ formatPrompt (lit "{a}") [(lit "a", lit "{b}"); (lit "b", lit "x")] = inr (lit "x")
  /\ formatPrompt (lit "{a}") [(lit "b", lit "x"); (lit "a", lit "{b}")]
     = inl (missing_variables [lit "{b}"]).
Proof.
  intros Hp. split; [now apply substitute_plain |].
  rewrite <- (substitute_plain template kwargs Hp).
  destruct (formatPrompt_spec template kwargs Hp) as [[Hno Hf] | [Hhas [tokens [Hf _]]]];
    cbv zeta in *; rewrite Hf.
  - repeat split; try reflexivity.
    + intros [tokens [=]].
    + intros H. contradiction.
    + intros _. exact Hno.
    + intros _. eauto.
    + now intros formatted [= <-].
  - repeat split; try reflexivity.
    + intros _. exact Hhas.
    + intros _. eauto.
    + intros [formatted [=]].
    + intros H. contradiction.
    + intros formatted [=].
Qed.

Lemma formatPrompt_validates_output_witness :
  (exists tokens, formatPrompt (lit "Do {task} with {extra}") [(lit "task", lit "T")]
                  = inl (missing_variables tokens))
  <-> has_placeholder
        (substitute_as_specified (lit "Do {task} with {extra}") [(lit "task", lit "T")]).
Proof.
  apply (formatPrompt_validates_output (lit "Do {task} with {extra}") [(lit "task", lit "T")]).
  repeat constructor.
Defined.

(** The statement does not hold of keys with syntax characters, which go
    into the pattern unescaped.  The key [a.c]: as specified nothing is
    replaced in [{abc}] and the token is left, but the pattern [\{a.c\}]
    matches it and the call returns.  The key [(]: the text holds no
    token, and the call throws all the same, the SyntaxError of the
    constructor and not the missing-variable error.  The key [$x]: as
    specified its token is replaced and no token is left, but the pattern
    [\{$x\}] matches nowhere, and the call reports the key as missing. *)
Lemma formatPrompt_unescaped_key_counterexample :
  (has_placeholder (substitute_as_specified (lit "{abc}") [(lit "a.c", lit "V")])
   /\ formatPrompt (lit "{abc}") [(lit "a.c", lit "V")] = inr (lit "V"))
  /\ (~ has_placeholder (substitute_as_specified (lit "hello") [(lit "(", lit "V")])
      /\ formatPrompt (lit "hello") [(lit "(", lit "V")] = inl (SyntaxError (lit "\{(\}")))
  /\ (~ has_placeholder (substitute_as_specified (lit "{$x}") [(lit "$x", lit "V")])
      /\ formatPrompt (lit "{$x}") [(lit "$x", lit "V")]
         = inl (missing_variables [lit "{$x}"])).
Proof.
  assert (forall s, no_open_brace s -> ~ has_placeholder s) as Hno.
  { intros s Hs [pre [name [post [-> _]]]]. apply Forall_app in Hs as [_ Hs].
    apply Forall_cons in Hs as [Hs _]. now contradiction Hs. }
  split; [split | split; split].
  - exists [], (lit "abc"), []. split; [reflexivity |].
    split; [discriminate | repeat constructor].
  - reflexivity.
  - apply Hno. vm_compute. repeat constructor; discriminate.
  - reflexivity.
  - apply Hno. vm_compute. repeat constructor; discriminate.
  - reflexivity.
Qed.

(** ** Task Orchestrator: templates *)

Section TemplateFacts.
Variable generateContent : Log -> GenerateContentParameters -> exn + option jsstring.




End TemplateFacts.







(** ** Generate/Evaluate Loop *)

Section LoopFacts.
Variable generateContent : Log -> GenerateContentParameters -> exn + option jsstring.
Variables task evaluatorPrompt generatorPrompt : jsstring.

Local Abbreviation body := (loop_body generateContent task evaluatorPrompt generatorPrompt).
Local Abbreviation refines := (Spec.refines generateContent task evaluatorPrompt generatorPrompt).
Local Abbreviation rounds := (Spec.rounds generateContent task evaluatorPrompt generatorPrompt).
Local Abbreviation passing := (Spec.passing generateContent task evaluatorPrompt).

Lemma evaluate_eq content log :
  evaluate generateContent evaluatorPrompt content task log
  = (log ++ [request (evaluate_prompt evaluatorPrompt task content)],
     match call_outcome generateContent log (evaluate_prompt evaluatorPrompt task content) with
     | Return response =>
         Return (extractXml response (lit "evaluation"), extractXml response (lit "feedback"))
     | Throw e => Throw e
     | Pending => Pending
     end).
Proof.
  unfold evaluate, bind. fold (evaluate_prompt evaluatorPrompt task content).
  rewrite llmCall1_eq. now destruct (call_outcome _ _ _).
Qed.

Lemma generate_eq context log :
  generate generateContent generatorPrompt task context log
  = (log ++ [request (generate_prompt generatorPrompt task context)],
     match call_outcome generateContent log (generate_prompt generatorPrompt task context) with
     | Return response =>
         Return (extractXml response (lit "thoughts"), extractXml response (lit "response"))
     | Throw e => Throw e
     | Pending => Pending
     end).
Proof.
  unfold generate, bind. fold (generate_prompt generatorPrompt task context).
  rewrite llmCall1_eq. now destruct (call_outcome _ _ _).
Qed.

Lemma passes_decide evaluation :
  bool_decide (toUpperCase evaluation = code_units (lit "PASS")) = true <-> passes evaluation.
Proof. rewrite bool_decide_eq_true. reflexivity. Qed.

(** The body of the [while], according to what the client does. *)
Lemma loop_body_passing st log log' :
  passing (st, log) log' ->
  body st log = (log', Return (inr (result (current st), chainOfThought st))).
Proof.
  intros [evaluation [Ha [Hp ->]]]. cbn [fst snd] in *.
  unfold loop_body, bind. rewrite evaluate_eq, (call_outcome_answers _ _ _ _ Ha).
  apply passes_decide in Hp. now rewrite Hp.
Qed.

Lemma loop_body_refines st log st' log' :
  refines (st, log) (st', log') ->
  body st log = (log', Return (inl st')).
Proof.
  inversion 1 as [st0 log0 evaluation generation Ha Hp Hg]; subst.
  unfold loop_body, bind. rewrite evaluate_eq, (call_outcome_answers _ _ _ _ Ha).
  rewrite bool_decide_false by exact Hp.
  fold (feedback_context (memory st) (extractXml evaluation (lit "feedback"))).
  rewrite generate_eq, (call_outcome_answers _ _ _ _ Hg).
  rewrite <- app_assoc. reflexivity.
Qed.

(** Conversely, a round that goes on was a refinement, and a round that
    returns was a passing one. *)
Lemma loop_body_continues st log st' log' :
  body st log = (log', Return (inl st')) -> refines (st, log) (st', log').
Proof.
  unfold loop_body, bind. rewrite evaluate_eq.
  destruct (call_outcome_cases generateContent
              (evaluate_prompt evaluatorPrompt task (result (current st))) log)
    as [[evaluation [Ha ->]] | [e ->]]; [| discriminate].
  destruct (bool_decide_reflect (toUpperCase (extractXml evaluation (lit "evaluation"))
                                 = code_units (lit "PASS"))) as [Hp | Hp]; [discriminate |].
  fold (feedback_context (memory st) (extractXml evaluation (lit "feedback"))).
  rewrite generate_eq.
  destruct (call_outcome_cases generateContent
              (generate_prompt generatorPrompt task
                 (feedback_context (memory st) (extractXml evaluation (lit "feedback"))))
              (log ++ [request (evaluate_prompt evaluatorPrompt task (result (current st)))]))
    as [[generation [Hg ->]] | [e ->]]; [| discriminate].
  intros [= <- <-]. rewrite <- app_assoc. cbn [app].
  exact (refines_round _ _ _ _ st log evaluation generation Ha Hp Hg).
Qed.

Lemma loop_body_returns st log log' res hist :
  body st log = (log', Return (inr (res, hist))) ->
  passing (st, log) log' /\ res = result (current st) /\ hist = chainOfThought st.
Proof.
  unfold loop_body, bind. rewrite evaluate_eq.
  destruct (call_outcome_cases generateContent
              (evaluate_prompt evaluatorPrompt task (result (current st))) log)
    as [[evaluation [Ha ->]] | [e ->]]; [| discriminate].
  destruct (bool_decide_reflect (toUpperCase (extractXml evaluation (lit "evaluation"))
                                 = code_units (lit "PASS"))) as [Hp | Hp].
  - intros [= <- <- <-]. split; [| split; reflexivity].
    exists evaluation. cbn [fst snd]. split; [exact Ha | split; [exact Hp | reflexivity]].
  - fold (feedback_context (memory st) (extractXml evaluation (lit "feedback"))).
    rewrite generate_eq. destruct (call_outcome _ _ _); discriminate.
Qed.

(** The loop returns from a state exactly after some rounds that do not
    pass and one that does. *)
Lemma while_true_returns fuel st log log' res hist :
  while_true fuel body st log = Some (log', Return (res, hist))
  <-> exists k st_k log_k,
        k < fuel /\ rounds k (st, log) (st_k, log_k) /\ passing (st_k, log_k) log'
        /\ res = result (current st_k) /\ hist = chainOfThought st_k.
Proof.
  revert st log. induction fuel as [| fuel IH]; intros st log; cbn [while_true].
  - split; [discriminate | intros [k [_ [_ [Hk _]]]]; lia].
  - destruct (body st log) as [log1 [[st1 | [res1 hist1]] | e |]] eqn:Hb.
    + rewrite IH. apply loop_body_continues in Hb. split.
      * intros [k [st_k [log_k [Hk [Hr H]]]]].
        exists (S k), st_k, log_k. split; [lia |]. split; [| exact H].
        econstructor; eauto.
      * intros [k [st_k [log_k [Hk [Hr H]]]]].
        inversion Hr as [c | k' c1 c2 c3 Hstep Hrest]; subst.
        -- destruct H as [Hpass _]. apply loop_body_passing in Hpass.
           apply loop_body_refines in Hb. congruence.
        -- destruct c2 as [st2 log2]. apply loop_body_refines in Hstep, Hb.
           rewrite Hb in Hstep. injection Hstep as <- <-.
           exists k', st_k, log_k. split; [lia |]. split; [exact Hrest | exact H].
    + apply loop_body_returns in Hb as [Hpass [-> ->]]. split.
      * intros [= <- <- <-]. exists 0, st, log. repeat split; [lia | constructor | exact Hpass].
      * intros [k [st_k [log_k [Hk [Hr [Hpass' [-> ->]]]]]]].
        inversion Hr as [c | k' c1 c2 c3 Hstep Hrest]; subst.
        -- apply loop_body_passing in Hpass, Hpass'. congruence.
        -- apply loop_body_passing in Hpass. destruct c2. apply loop_body_refines in Hstep.
           congruence.
    + split; [discriminate |].
      intros [k [st_k [log_k [Hk [Hr [Hpass _]]]]]].
      inversion Hr as [c | k' c1 c2 c3 Hstep Hrest]; subst.
      * apply loop_body_passing in Hpass. congruence.
      * destruct c2. apply loop_body_refines in Hstep. congruence.
    + split; [discriminate |].
      intros [k [st_k [log_k [Hk [Hr [Hpass _]]]]]].
      inversion Hr as [c | k' c1 c2 c3 Hstep Hrest]; subst.
      * apply loop_body_passing in Hpass. congruence.
      * destruct c2. apply loop_body_refines in Hstep. congruence.
Qed.

(** While the rounds do not pass, the loop goes on, each round with one
    more attempt in the history. *)
Lemma while_true_goes_on k st log st_k log_k :
  rounds k (st, log) (st_k, log_k) ->
  (forall fuel, fuel <= k -> while_true fuel body st log = None)
  /\ (forall fuel, while_true (k + fuel) body st log = while_true fuel body st_k log_k)
  /\ length (chainOfThought st_k) = length (chainOfThought st) + k
  /\ length log_k = length log + 2 * k.
Proof.
  revert st log. induction k as [| k IH]; intros st log Hr.
  - inversion Hr; subst. repeat split; try lia.
    intros fuel Hf. assert (fuel = 0) as -> by lia. reflexivity.
  - inversion Hr as [c | k' c1 [st1 log1] c3 Hstep Hrest]; subst.
    destruct (IH _ _ Hrest) as [H1 [H2 [H3 H4]]].
    pose proof (loop_body_refines _ _ _ _ Hstep) as Hb.
    inversion Hstep; subst.
    repeat split.
    + intros [| fuel] Hf; [reflexivity |]. cbn [while_true]. rewrite Hb. apply H1. lia.
    + intros fuel. cbn [Nat.add while_true]. rewrite Hb. apply H2.
    + rewrite H3. cbn [with_attempt chainOfThought]. rewrite length_app. cbn. lia.
    + rewrite H4, length_app. cbn. lia.
Qed.
End LoopFacts.

(** C2.  [loop], run with [fuel] rounds of its [while], returns exactly when,
    after the first generation and some rounds whose verdict is not PASS,
    each followed by a further generation attempt, an evaluation comes back
    whose verdict equals "PASS" without regard to case; it then returns the
    current candidate and the history, one entry per generation.  As long
    as the verdicts are anything else, it has not returned and each round
    has added an attempt.  The verdicts "pass", "PASS" and "Pass" end the
    loop; "PASSED", "PASS." and the empty verdict of a response without an
    evaluation tag do not. *)
Theorem loop_returns_exactly_at_pass generateContent
    (task evaluatorPrompt generatorPrompt : jsstring) (log : Log) :
  (forall fuel log' res hist,
      loop generateContent fuel task evaluatorPrompt generatorPrompt log
      = Some (log', Return (res, hist))
      <-> exists generation k st_k log_k,
            answers generateContent log (generate_prompt generatorPrompt task []) generation
            /\ k < fuel
            /\ rounds generateContent task evaluatorPrompt generatorPrompt k
                 (first_attempt (attempt generation),
                  log ++ [request (generate_prompt generatorPrompt task [])])
                 (st_k, log_k)
            /\ passing generateContent task evaluatorPrompt (st_k, log_k) log'
            /\ res = result (current st_k) /\ hist = chainOfThought st_k
            /\ length hist = S k)
  /\ (forall generation k st_k log_k,
         answers generateContent log (generate_prompt generatorPrompt task []) generation ->
         rounds generateContent task evaluatorPrompt generatorPrompt k
           (first_attempt (attempt generation),
            log ++ [request (generate_prompt generatorPrompt task [])])
           (st_k, log_k) ->
         (forall fuel, fuel <= k ->
            loop generateContent fuel task evaluatorPrompt generatorPrompt log = None)
         /\ length (chainOfThought st_k) = S k
         /\ length log_k = length log + 1 + 2 * k)
  /\ (passes (lit "pass") /\ passes (lit "PASS") /\ passes (lit "Pass")
      /\ ~ passes (lit "PASSED") /\ ~ passes (lit "PASS.") /\ ~ passes []
      /\ ~ passes (extractXml (lit "no verdict given") (lit "evaluation"))).
Proof.
  assert (forall generation,
             answers generateContent log (generate_prompt generatorPrompt task []) generation ->
             forall fuel,
               loop generateContent fuel task evaluatorPrompt generatorPrompt log
               = while_true fuel (loop_body generateContent task evaluatorPrompt generatorPrompt)
                   (first_attempt (attempt generation))
                   (log ++ [request (generate_prompt generatorPrompt task [])])) as Hloop.
  { intros generation Ha fuel. unfold loop.
    rewrite generate_eq, (call_outcome_answers _ _ _ _ Ha). reflexivity. }
  split; [| split].
  - intros fuel log' res hist. split.
    + unfold loop. rewrite generate_eq.
      destruct (call_outcome_cases generateContent (generate_prompt generatorPrompt task []) log)
        as [[generation [Ha ->]] | [e ->]]; [| discriminate].
      intros H. apply while_true_returns in H as [k [st_k [log_k [Hk [Hr [Hp [-> ->]]]]]]].
      exists generation, k, st_k, log_k.
      destruct (while_true_goes_on _ _ _ _ _ _ _ _ _ Hr) as [_ [_ [Hlen _]]].
      split; [exact Ha |]. split; [exact Hk |]. split; [exact Hr |]. split; [exact Hp |].
      split; [reflexivity |]. split; [reflexivity |].
      rewrite Hlen. cbn. lia.
    + intros [generation [k [st_k [log_k [Ha [Hk [Hr [Hp [-> [-> _]]]]]]]]]].
      rewrite (Hloop _ Ha). apply while_true_returns.
      exists k, st_k, log_k.
      split; [exact Hk |]. split; [exact Hr |]. split; [exact Hp |]. split; reflexivity.
  - intros generation k st_k log_k Ha Hr.
    destruct (while_true_goes_on _ _ _ _ _ _ _ _ _ Hr) as [Hnone [_ [Hlen Hlog]]].
    split; [| split].
    + intros fuel Hf. rewrite (Hloop _ Ha). now apply Hnone.
    + rewrite Hlen. cbn. lia.
    + rewrite Hlog, length_app. cbn. lia.
  - unfold passes, equals_ignoring_case.
    repeat split; try reflexivity; vm_compute; discriminate.
Qed.

(** A client whose evaluations say NEEDS_IMPROVEMENT twice and then PASS:
    the loop returns the third candidate with a history of three attempts. *)
Lemma loop_returns_exactly_at_pass_witness :
  exists log',
    loop (scripted [says "<thoughts>t1</thoughts><response>c1</response>";
                    says "<evaluation>NEEDS_IMPROVEMENT</evaluation><feedback>f1</feedback>";
                    says "<thoughts>t2</thoughts><response>c2</response>";
                    says "<evaluation>NEEDS_IMPROVEMENT</evaluation><feedback>f2</feedback>";
                    says "<thoughts>t3</thoughts><response>c3</response>";
                    says "<evaluation>Pass</evaluation><feedback>fine</feedback>"])
      3 (lit "task") (lit "E") (lit "G") []
    = Some (log', Return (lit "c3",
                          [{| thoughts := lit "t1"; result := lit "c1" |};
                           {| thoughts := lit "t2"; result := lit "c2" |};
                           {| thoughts := lit "t3"; result := lit "c3" |}])).
Proof.
  eexists.
  apply (proj1 (loop_returns_exactly_at_pass _ (lit "task") (lit "E") (lit "G") [])).
  exists (lit "<thoughts>t1</thoughts><response>c1</response>"), 2.
  eexists. eexists.
  split; [split; [reflexivity | discriminate] |].
  split; [lia |].
  split.
  { eapply rounds_S.
    - apply (refines_round _ _ _ _ _ _
               (lit "<evaluation>NEEDS_IMPROVEMENT</evaluation><feedback>f1</feedback>")
               (lit "<thoughts>t2</thoughts><response>c2</response>")).
      + split; [reflexivity | discriminate].
      + vm_compute. discriminate.
      + split; [reflexivity | discriminate].
    - eapply rounds_S.
      + apply (refines_round _ _ _ _ _ _
                 (lit "<evaluation>NEEDS_IMPROVEMENT</evaluation><feedback>f2</feedback>")
                 (lit "<thoughts>t3</thoughts><response>c3</response>")).
        * split; [reflexivity | discriminate].
        * vm_compute. discriminate.
        * split; [reflexivity | discriminate].
      + apply rounds_O. }
  split.
  { exists (lit "<evaluation>Pass</evaluation><feedback>fine</feedback>").
    split; [split; [reflexivity | discriminate] |].
    split; [reflexivity | reflexivity]. }
  repeat split; reflexivity.
Defined.

(** ** Router *)

Section RouteFacts.
Variable generateContent : Log -> GenerateContentParameters -> exn + option jsstring.
Variables (input : jsstring) (routes : js_object) (log : Log).

Local Abbreviation selector := (selectorPrompt (map fst routes) input).

Lemma route_eq routeResponse :
  answers generateContent log selector routeResponse ->
  route generateContent input routes log
  = if negb (property_truthy (get routes (selected_key routeResponse)))
    then (log ++ [request selector], Throw (invalid_route (selected_key routeResponse)))
    else llmCall1 generateContent
           (property_to_string (get routes (selected_key routeResponse))
            ++ nl ++ lit "Input: " ++ input)
           (log ++ [request selector]).
Proof.
  intros Ha. unfold route, bind. rewrite (llmCall1_answers _ _ _ _ Ha).
  fold (selected_key routeResponse).
  now destruct (property_truthy (get routes (selected_key routeResponse))).
Qed.

(** A key of the table with a prompt that is not empty is dispatched to,
    by a second call. *)
Lemma route_dispatches routeResponse selectedPrompt :
  answers generateContent log selector routeResponse ->
  own routes (selected_key routeResponse) = Some selectedPrompt -> selectedPrompt <> [] ->
  route generateContent input routes log
  = llmCall1 generateContent (selectedPrompt ++ nl ++ lit "Input: " ++ input)
      (log ++ [request selector]).
Proof.
  intros Ha Hown Hne. rewrite (route_eq _ Ha). unfold get. rewrite Hown.
  destruct selectedPrompt; [contradiction | reflexivity].
Qed.

(** A key that is neither in the table nor the name of a member of
    Object.prototype is rejected, and nothing more is sent. *)
Lemma route_rejects_unknown routeResponse :
  answers generateContent log selector routeResponse ->
  own routes (selected_key routeResponse) = None ->
  selected_key routeResponse ∉ Object_prototype_names ->
  route generateContent input routes log
  = (log ++ [request selector], Throw (invalid_route (selected_key routeResponse))).
Proof.
  intros Ha Hown Hproto. rewrite (route_eq _ Ha). unfold get. rewrite Hown.
  now rewrite bool_decide_false by exact Hproto.
Qed.
End RouteFacts.

(** A classifier that selects BILLING is dispatched to the billing prompt. *)
Lemma route_mixed_case :
  route (scripted [says "<reasoning>a charge</reasoning><selection>BILLING</selection>";
                   says "done"]) (lit "ticket") support_routes []
  = ([request (selectorPrompt [lit "billing"; lit "technical"] (lit "ticket"));
      request (lit "P1" ++ nl ++ lit "Input: ticket")],
     Return (lit "done")).
Proof. reflexivity. Qed.

(** C3 (the source at the failing input).  The classifier selects
    [constructor], which is no key of the route table.  As specified the
    call fails with the invalid-route error after the first request.  The
    source reads [routes["constructor"]], finds the function every object
    inherits, takes it for a prompt, and sends a second request made of
    the text of that function and the input. *)
Theorem route_inherited_key_is_dispatched :
  let client := scripted [says "<selection>constructor</selection>"; says "done"] in
  own support_routes (lit "constructor") = None
  /\ route_as_specified client (lit "ticket") support_routes []
     = ([request (selectorPrompt [lit "billing"; lit "technical"] (lit "ticket"))],
        Throw (invalid_route (lit "constructor")))
  /\ route client (lit "ticket") support_routes []
     = ([request (selectorPrompt [lit "billing"; lit "technical"] (lit "ticket"));
         request (lit "function Object() { [native code] }" ++ nl ++ lit "Input: ticket")],
        Return (lit "done")).
Proof. repeat split. Qed.

(** The same test takes the empty prompt of a key that is in the table for
    a missing one. *)
Lemma route_empty_prompt_is_rejected :
  let client := scripted [says "<selection>billing</selection>"; says "done"] in
  own [(lit "billing", [])] (lit "billing") = Some []
  /\ route client (lit "ticket") [(lit "billing", [])] []
     = ([request (selectorPrompt [lit "billing"] (lit "ticket"))],
        Throw (invalid_route (lit "billing"))).
Proof. repeat split. Qed.

(** ** Text put together from tags, blanks and plain text *)

Lemma starts_codes w s : starts true w s = prefix_codes (map canon w) (map canon s).
Proof.
  revert s. induction w as [| a w IH]; intros [| c s]; cbn; try reflexivity.
  now rewrite IH.
Qed.

Lemma ci_eq_length w w' : ci_eq w w' -> length w' = length w.
Proof. intros H. apply (f_equal length) in H. now rewrite !length_map in H. Qed.

Lemma prefix_codes_app w s : prefix_codes w (w ++ s) = true.
Proof. induction w as [| a w IH]; cbn; [reflexivity |]. now rewrite N.eqb_refl. Qed.

Lemma starts_ci w w' s : ci_eq w w' -> starts true w (w' ++ s) = true.
Proof.
  intros H. rewrite starts_codes, map_app, H. apply prefix_codes_app.
Qed.

Lemma canon_lt c : canon c = canon "<" -> c = "<"%char.
Proof.
  destruct c as [[] [] [] [] [] [] [] []]; vm_compute; intros H; try reflexivity; discriminate H.
Qed.

Lemma same_char_lt c : same_char true "<" c = true -> c = "<"%char.
Proof. unfold same_char. rewrite N.eqb_eq. intros H. apply canon_lt. now symmetry. Qed.

Lemma space_not_lt c : CharacterSetMatcher true true CsSpace c = true -> c <> "<"%char.
Proof. intros H ->. discriminate H. Qed.

Lemma blank_plain s : blank s -> plain s.
Proof. intros H. eapply Forall_impl; [exact H |]. intros c. apply space_not_lt. Qed.

(** A rendering of a tag begins with [<] and holds no other. *)
Lemma ci_eq_tag w w' :
  ci_eq ("<"%char :: w) w' -> canon "<" ∉ map canon w ->
  exists w'', w' = "<"%char :: w'' /\ plain w''.
Proof.
  unfold ci_eq. destruct w' as [| c w'']; [discriminate |]. cbn [map].
  intros [= Hc Hw] Hnot. apply canon_lt in Hc. subst c.
  exists w''. split; [reflexivity |].
  apply Forall_forall. intros c Hin ->. apply Hnot. rewrite <- Hw.
  now apply (list_elem_of_fmap_2 canon) in Hin.
Qed.

Section Repetition.
Context {X : Type}.

(** A greedy repetition takes the whole run when what follows cannot
    begin with a character of the run. *)
Lemma repeat_greedy_run test (k : jsstring -> option X) ws c s :
  (forall c0 s0, test c0 = true -> k (c0 :: s0) = None) ->
  Forall (fun c0 => test c0 = true) ws -> test c = false ->
  repeat_greedy test k (ws ++ c :: s) = pair ws <$> k (c :: s).
Proof.
  intros Hk Hws Hc. induction Hws as [| c0 ws H0 _ IH]; cbn [app repeat_greedy].
  - rewrite Hc. now destruct (k (c :: s)).
  - rewrite H0, IH. destruct (k (c :: s)); cbn; [reflexivity |].
    now rewrite Hk.
Qed.

(** A lazy repetition of any character steps over a stretch where what
    follows does not match. *)
Lemma repeat_lazy_skip (k : jsstring -> option X) u s :
  (forall j, j < length u -> k (drop j (u ++ s)) = None) ->
  repeat_lazy (fun _ => true) k (u ++ s)
  = (fun wx => (u ++ fst wx, snd wx)) <$> repeat_lazy (fun _ => true) k s.
Proof.
  induction u as [| c u IH]; intros H.
  - cbn. now destruct (repeat_lazy _ k s) as [[w x] |].
  - cbn [app repeat_lazy]. pose proof (H 0 ltac:(cbn; lia)) as H0. cbn [drop app] in H0.
    rewrite H0, IH.
    + now destruct (repeat_lazy _ k s) as [[w x] |].
    + intros j Hj. apply (H (S j)). cbn. lia.
Qed.

Lemma repeat_lazy_here test (k : jsstring -> option X) s x :
  k s = Some x -> repeat_lazy test k s = Some ([], x).
Proof. intros H. destruct s; cbn; now rewrite H. Qed.

Lemma repeat_lazy_never (k : jsstring -> option X) s :
  (forall j, k (drop j s) = None) -> repeat_lazy (fun _ => true) k s = None.
Proof.
  induction s as [| c s IH]; intros H; cbn [repeat_lazy].
  - pose proof (H 0) as H0. cbn in H0. now rewrite H0.
  - pose proof (H 0) as H0. cbn in H0. rewrite H0, IH; [reflexivity |].
    intros j. apply (H (S j)).
Qed.
End Repetition.

Section Failing.
Context {X : Type} (f : jsstring -> option X).
Hypothesis f_needs_lt : needs_lt f.

Lemma fails_within_plain a b : plain a -> fails_within f a b.
Proof.
  induction 1 as [| c a Hc _ IH]; intros j Hj; [cbn in Hj; lia |].
  destruct j as [| j]; cbn [drop app].
  - now apply f_needs_lt.
  - apply IH. cbn in Hj. lia.
Qed.

Lemma fails_within_tag w b :
  plain w -> f ("<"%char :: w ++ b) = None -> fails_within f ("<"%char :: w) b.
Proof.
  intros Hw H0 [| j] Hj; cbn [drop app]; [exact H0 |].
  apply fails_within_plain; [exact Hw | cbn in Hj; lia].
Qed.

Lemma fails_within_app a1 a2 b :
  fails_within f a1 (a2 ++ b) -> fails_within f a2 b -> fails_within f (a1 ++ a2) b.
Proof.
  intros H1 H2 j Hj. rewrite length_app in Hj. rewrite <- app_assoc.
  destruct (decide (j < length a1)) as [Hlt | Hge]; [now apply H1 |].
  replace j with (length a1 + (j - length a1)) by lia.
  rewrite <- drop_drop, drop_app_length. apply H2. lia.
Qed.

Lemma fails_throughout_app a b :
  fails_within f a b -> fails_throughout f b -> fails_throughout f (a ++ b).
Proof.
  intros H1 H2 j.
  destruct (decide (j < length a)) as [Hlt | Hge]; [now apply H1 |].
  replace j with (length a + (j - length a)) by lia.
  rewrite <- drop_drop, drop_app_length. apply H2.
Qed.

Lemma fails_throughout_nil : fails_throughout f [].
Proof. intros j. rewrite drop_nil. apply f_needs_lt. Qed.
End Failing.

(** ** The groups of a tasks block *)

Lemma taskRegex_source :
  source taskRegex
  = literal (lit "<task>") ++ [Atom CsSpace (QStar true)]
    ++ literal (lit "<type>") ++ [Group CsDot (QStar false)] ++ from_close_type.
Proof. reflexivity. Qed.

Lemma prefix_codes_clash a b t : clash a b = true -> prefix_codes a (b ++ t) = false.
Proof.
  revert b. induction a as [| x a IH]; intros [| y b]; cbn; try discriminate.
  destruct (x =? y)%N; [apply IH | reflexivity].
Qed.

Section TagFacts.
Local Abbreviation m := (matcher true true).
Local Abbreviation spaces := (Atom CsSpace (QStar true)).

Lemma literal_needs_lt w p : needs_lt (m (literal ("<"%char :: w) ++ p)).
Proof.
  split.
  - now rewrite matcher_literal.
  - intros c s Hc. rewrite matcher_literal. cbn [starts].
    destruct (same_char true "<" c) eqn:H; [| reflexivity].
    now apply same_char_lt in H.
Qed.

(** A tag in front of a text that begins with another tag. *)
Lemma literal_clash w w0 w' p b :
  ci_eq w0 w' -> clash (map canon w) (map canon w0) = true ->
  m (literal w ++ p) (w' ++ b) = None.
Proof.
  intros Hci Hclash. rewrite matcher_literal, starts_codes, map_app, Hci.
  now rewrite prefix_codes_clash.
Qed.

(** A tag in front of a text that begins with it, in some spelling. *)
Lemma literal_ci w w' p b :
  ci_eq w w' ->
  m (literal w ++ p) (w' ++ b)
  = match m p b with
    | Some (mt, caps, rest) => Some (w' ++ mt, caps, rest)
    | None => None
    end.
Proof.
  intros Hci. rewrite matcher_literal, (starts_ci _ _ _ Hci).
  rewrite <- (ci_eq_length _ _ Hci), drop_app_length, take_app_length. reflexivity.
Qed.

(** White space in front of a tag is stepped over. *)
Lemma spaces_then_tag w p ws s :
  blank ws ->
  m (spaces :: literal ("<"%char :: w) ++ p) (ws ++ "<"%char :: s)
  = match m (literal ("<"%char :: w) ++ p) ("<"%char :: s) with
    | Some (mt, caps, rest) => Some (ws ++ mt, caps, rest)
    | None => None
    end.
Proof.
  intros Hws. rewrite matcher_atom. cbn [quantified repeat].
  rewrite repeat_greedy_run; [| | exact Hws | reflexivity].
  - now destruct (m (literal ("<"%char :: w) ++ p) ("<"%char :: s)) as [[[mt caps] rest] |].
  - intros c0 s0 H0. apply literal_needs_lt. now apply space_not_lt.
Qed.
End TagFacts.

Section GroupFacts.
Local Abbreviation m := (matcher true true).
Local Abbreviation spaces := (Atom CsSpace (QStar true)).
Local Abbreviation field := (Group CsDot (QStar false)).

Lemma ci_eq_lt w0 w' : ci_eq ("<"%char :: w0) w' -> exists w'', w' = "<"%char :: w''.
Proof.
  unfold ci_eq. destruct w' as [| c w'']; [discriminate |]. cbn [map].
  intros [= Hc _]. apply canon_lt in Hc. subst c. now exists w''.
Qed.

Lemma spaces_then w w0 p ws w' b :
  blank ws -> ci_eq ("<"%char :: w0) w' ->
  m (spaces :: literal ("<"%char :: w) ++ p) (ws ++ w' ++ b)
  = match m (literal ("<"%char :: w) ++ p) (w' ++ b) with
    | Some (mt, caps, rest) => Some (ws ++ mt, caps, rest)
    | None => None
    end.
Proof.
  intros Hws Hci. destruct (ci_eq_lt _ _ Hci) as [w'' ->]. cbn [app].
  now apply spaces_then_tag.
Qed.

Lemma closer_needs_lt : needs_lt (m closer).
Proof. apply (literal_needs_lt (lit "/description>")). Qed.

Lemma from_close_type_needs_lt : needs_lt (m from_close_type).
Proof. apply (literal_needs_lt (lit "/type>")). Qed.

Lemma taskRegex_needs_lt : needs_lt (m (source taskRegex)).
Proof. apply (literal_needs_lt (lit "task>")). Qed.

Lemma field_skip p u s :
  fails_within (m p) u s ->
  m (field :: p) (u ++ s)
  = match m (field :: p) s with
    | Some (mt, c :: caps, rest) => Some (u ++ mt, (u ++ c) :: caps, rest)
    | _ => None
    end.
Proof.
  intros Hu. rewrite !matcher_group. cbn [quantified repeat].
  change (CharacterSetMatcher true true CsDot) with (fun _ : ascii => true).
  rewrite (repeat_lazy_skip _ u s Hu).
  destruct (repeat_lazy _ (m p) s) as [[w [[mt caps] rest]] |]; cbn; [| reflexivity].
  now rewrite <- app_assoc.
Qed.

Lemma field_here p s mt caps rest :
  m p s = Some (mt, caps, rest) -> m (field :: p) s = Some (mt, [] :: caps, rest).
Proof.
  intros H. rewrite matcher_group. cbn [quantified repeat].
  now rewrite (repeat_lazy_here _ _ _ _ H).
Qed.

Lemma field_never p s : fails_throughout (m p) s -> m (field :: p) s = None.
Proof.
  intros H. rewrite matcher_group. cbn [quantified repeat].
  change (CharacterSetMatcher true true CsDot) with (fun _ : ascii => true).
  now rewrite (repeat_lazy_never _ _ H).
Qed.

Variable g : group.
Hypothesis g_ok : tags_ok g.

Lemma closer_matches X :
  m closer (close_description g ++ space3 g ++ close_task g ++ X)
  = Some (close_description g ++ space3 g ++ close_task g, [], X).
Proof.
  unfold closer. rewrite (literal_ci _ _ _ _ (ok_close_description g g_ok)).
  change ([spaces] ++ literal (lit "</task>"))
    with (spaces :: literal ("<"%char :: lit "/task>")).
  rewrite <- (app_nil_r (literal _)).
  rewrite (spaces_then _ _ _ _ _ _ (ok_space3 g g_ok) (ok_close_task g g_ok)).
  rewrite (literal_ci (lit "</task>") _ _ _ (ok_close_task g g_ok)).
  cbn [matcher]. now rewrite app_nil_r.
Qed.

Lemma from_close_type_matches X :
  m from_close_type
    (close_type g ++ space2 g ++ open_description g ++ description_text g
     ++ close_description g ++ space3 g ++ close_task g ++ X)
  = Some (close_type g ++ space2 g ++ open_description g ++ description_text g
          ++ close_description g ++ space3 g ++ close_task g,
          [description_text g], X).
Proof.
  unfold from_close_type. rewrite (literal_ci _ _ _ _ (ok_close_type g g_ok)).
  change ([spaces] ++ literal (lit "<description>") ++ [field] ++ closer)
    with (spaces :: literal ("<"%char :: lit "description>") ++ field :: closer).
  rewrite (spaces_then _ _ _ _ _ _ (ok_space2 g g_ok) (ok_open_description g g_ok)).
  rewrite (literal_ci (lit "<description>") _ _ _ (ok_open_description g g_ok)).
  rewrite field_skip
    by (apply fails_within_plain; [apply closer_needs_lt | apply (ok_description_text g g_ok)]).
  rewrite (field_here _ _ _ _ _ (closer_matches X)).
  rewrite app_nil_r. repeat rewrite <- app_assoc. reflexivity.
Qed.

Lemma taskRegex_matches X :
  m (source taskRegex) (render (Good g) ++ X)
  = Some (render (Good g), [type_text g; description_text g], X).
Proof.
  rewrite taskRegex_source. cbn [render]. repeat rewrite <- app_assoc.
  rewrite (literal_ci _ _ _ _ (ok_open_task g g_ok)).
  change ([spaces] ++ literal (lit "<type>") ++ [field] ++ from_close_type)
    with (spaces :: literal ("<"%char :: lit "type>") ++ field :: from_close_type).
  rewrite (spaces_then _ _ _ _ _ _ (ok_space1 g g_ok) (ok_open_type g g_ok)).
  rewrite (literal_ci (lit "<type>") _ _ _ (ok_open_type g g_ok)).
  rewrite field_skip
    by (apply fails_within_plain;
        [apply from_close_type_needs_lt | apply (ok_type_text g g_ok)]).
  rewrite (field_here _ _ _ _ _ (from_close_type_matches X)).
  rewrite app_nil_r. repeat rewrite <- app_assoc. reflexivity.
Qed.
End GroupFacts.

Section SkipFacts.
Local Abbreviation m := (matcher true true).
Local Abbreviation spaces := (Atom CsSpace (QStar true)).
Local Abbreviation field := (Group CsDot (QStar false)).
Local Abbreviation P := (source taskRegex).

Lemma fails_within_ci {X} (f : jsstring -> option X) w0 w' b :
  needs_lt f -> ci_eq ("<"%char :: w0) w' -> canon "<" ∉ map canon w0 ->
  f (w' ++ b) = None -> fails_within f w' b.
Proof.
  intros Hf Hci Hnot H0. destruct (ci_eq_tag _ _ Hci Hnot) as [w'' [-> Hw]].
  now apply fails_within_tag.
Qed.

Ltac no_lt :=
  let H := fresh in
  intros H; apply list_elem_of_In in H; vm_compute in H;
  repeat (destruct H as [H | H]; [discriminate H |]); exact H.

(** Where the pattern, or its part from [</type>] on, meets a tag other
    than the one it begins with, it fails. *)
Ltac tag_clash Hci := apply (literal_clash _ _ _ _ _ Hci); reflexivity.

Variable g : group.
Hypothesis g_ok : tags_ok g.

Lemma no_type_opener b :
  m P (open_task g ++ space1 g ++ open_description g ++ b) = None.
Proof.
  rewrite taskRegex_source. rewrite (literal_ci _ _ _ _ (ok_open_task g g_ok)).
  change ([spaces] ++ literal (lit "<type>") ++ [field] ++ from_close_type)
    with (spaces :: literal ("<"%char :: lit "type>") ++ field :: from_close_type).
  rewrite (spaces_then _ _ _ _ _ _ (ok_space1 g g_ok) (ok_open_description g g_ok)).
  change ("<"%char :: lit "type>") with (lit "<type>").
  now rewrite (literal_clash (lit "<type>") _ _ _ b (ok_open_description g g_ok)).
Qed.

Lemma no_description_close_type b :
  m from_close_type (close_type g ++ space2 g ++ close_task g ++ b) = None.
Proof.
  unfold from_close_type. rewrite (literal_ci _ _ _ _ (ok_close_type g g_ok)).
  change ([spaces] ++ literal (lit "<description>") ++ [field] ++ closer)
    with (spaces :: literal ("<"%char :: lit "description>") ++ field :: closer).
  rewrite (spaces_then _ _ _ _ _ _ (ok_space2 g g_ok) (ok_close_task g g_ok)).
  change ("<"%char :: lit "description>") with (lit "<description>").
  now rewrite (literal_clash (lit "<description>") _ _ _ b (ok_close_task g g_ok)).
Qed.

(** Text without [<] is without effect on both. *)
Lemma P_within_plain a b : plain a -> fails_within (m P) a b.
Proof. apply fails_within_plain, taskRegex_needs_lt. Qed.

Lemma F_within_plain a b : plain a -> fails_within (m from_close_type) a b.
Proof. apply fails_within_plain, from_close_type_needs_lt. Qed.

(** The pattern finds nothing inside a group without the type sub-tag. *)
Lemma P_within_no_type b : fails_within (m P) (render (NoType g)) b.
Proof.
  cbn [render].
  apply fails_within_app.
  { apply (fails_within_ci _ (lit "task>")); [apply taskRegex_needs_lt | apply g_ok | no_lt |].
    repeat rewrite <- app_assoc. apply no_type_opener. }
  apply fails_within_app; [apply P_within_plain, blank_plain, g_ok |].
  apply fails_within_app.
  { apply (fails_within_ci _ (lit "description>"));
      [apply taskRegex_needs_lt | apply g_ok | no_lt |].
    rewrite taskRegex_source. tag_clash (ok_open_description g g_ok). }
  apply fails_within_app; [apply P_within_plain, g_ok |].
  apply fails_within_app.
  { apply (fails_within_ci _ (lit "/description>"));
      [apply taskRegex_needs_lt | apply g_ok | no_lt |].
    rewrite taskRegex_source. tag_clash (ok_close_description g g_ok). }
  apply fails_within_app; [apply P_within_plain, blank_plain, g_ok |].
  apply (fails_within_ci _ (lit "/task>")); [apply taskRegex_needs_lt | apply g_ok | no_lt |].
  rewrite taskRegex_source. tag_clash (ok_close_task g g_ok).
Qed.

(** Neither does the part from [</type>] on. *)
Lemma F_within_no_type b : fails_within (m from_close_type) (render (NoType g)) b.
Proof.
  cbn [render].
  apply fails_within_app.
  { apply (fails_within_ci _ (lit "task>"));
      [apply from_close_type_needs_lt | apply g_ok | no_lt |].
    unfold from_close_type. tag_clash (ok_open_task g g_ok). }
  apply fails_within_app; [apply F_within_plain, blank_plain, g_ok |].
  apply fails_within_app.
  { apply (fails_within_ci _ (lit "description>"));
      [apply from_close_type_needs_lt | apply g_ok | no_lt |].
    unfold from_close_type. tag_clash (ok_open_description g g_ok). }
  apply fails_within_app; [apply F_within_plain, g_ok |].
  apply fails_within_app.
  { apply (fails_within_ci _ (lit "/description>"));
      [apply from_close_type_needs_lt | apply g_ok | no_lt |].
    unfold from_close_type. tag_clash (ok_close_description g g_ok). }
  apply fails_within_app; [apply F_within_plain, blank_plain, g_ok |].
  apply (fails_within_ci _ (lit "/task>"));
    [apply from_close_type_needs_lt | apply g_ok | no_lt |].
  unfold from_close_type. tag_clash (ok_close_task g g_ok).
Qed.

(** In a group without the description sub-tag the part from [</type>]
    on finds nothing: behind [</type>] comes [</task>]. *)
Lemma F_within_no_description b : fails_within (m from_close_type) (render (NoDescription g)) b.
Proof.
  cbn [render].
  apply fails_within_app.
  { apply (fails_within_ci _ (lit "task>"));
      [apply from_close_type_needs_lt | apply g_ok | no_lt |].
    unfold from_close_type. tag_clash (ok_open_task g g_ok). }
  apply fails_within_app; [apply F_within_plain, blank_plain, g_ok |].
  apply fails_within_app.
  { apply (fails_within_ci _ (lit "type>"));
      [apply from_close_type_needs_lt | apply g_ok | no_lt |].
    unfold from_close_type. tag_clash (ok_open_type g g_ok). }
  apply fails_within_app; [apply F_within_plain, g_ok |].
  apply fails_within_app.
  { apply (fails_within_ci _ (lit "/type>"));
      [apply from_close_type_needs_lt | apply g_ok | no_lt |].
    repeat rewrite <- app_assoc. apply no_description_close_type. }
  apply fails_within_app; [apply F_within_plain, blank_plain, g_ok |].
  apply (fails_within_ci _ (lit "/task>"));
    [apply from_close_type_needs_lt | apply g_ok | no_lt |].
  unfold from_close_type. tag_clash (ok_close_task g g_ok).
Qed.

(** The pattern itself finds nothing in such a group when no
    [</type>] followed by [<description>] comes behind it. *)
Lemma P_within_no_description b :
  fails_throughout (m from_close_type) b ->
  fails_within (m P) (render (NoDescription g)) b.
Proof.
  intros Hb.
  assert (fails_throughout (m from_close_type)
            (type_text g ++ close_type g ++ space2 g ++ close_task g ++ b)) as Hrest.
  { pose proof (fails_throughout_app (m from_close_type) (render (NoDescription g)) b
                  (F_within_no_description b) Hb) as H.
    cbn [render] in H. repeat rewrite <- app_assoc in H.
    intros j.
    specialize (H (length (open_task g) + (length (space1 g) + (length (open_type g) + j)))).
    rewrite <- !drop_drop, !drop_app_length in H. exact H. }
  cbn [render].
  apply fails_within_app.
  { apply (fails_within_ci _ (lit "task>")); [apply taskRegex_needs_lt | apply g_ok | no_lt |].
    repeat rewrite <- app_assoc.
    rewrite taskRegex_source. rewrite (literal_ci _ _ _ _ (ok_open_task g g_ok)).
    change ([spaces] ++ literal (lit "<type>") ++ [field] ++ from_close_type)
      with (spaces :: literal ("<"%char :: lit "type>") ++ field :: from_close_type).
    rewrite (spaces_then _ _ _ _ _ _ (ok_space1 g g_ok) (ok_open_type g g_ok)).
    rewrite (literal_ci (lit "<type>") _ _ _ (ok_open_type g g_ok)).
    now rewrite (field_never _ _ Hrest). }
  apply fails_within_app; [apply P_within_plain, blank_plain, g_ok |].
  apply fails_within_app.
  { apply (fails_within_ci _ (lit "type>")); [apply taskRegex_needs_lt | apply g_ok | no_lt |].
    rewrite taskRegex_source. tag_clash (ok_open_type g g_ok). }
  apply fails_within_app; [apply P_within_plain, g_ok |].
  apply fails_within_app.
  { apply (fails_within_ci _ (lit "/type>")); [apply taskRegex_needs_lt | apply g_ok | no_lt |].
    rewrite taskRegex_source. tag_clash (ok_close_type g g_ok). }
  apply fails_within_app; [apply P_within_plain, blank_plain, g_ok |].
  apply (fails_within_ci _ (lit "/task>")); [apply taskRegex_needs_lt | apply g_ok | no_lt |].
  rewrite taskRegex_source. tag_clash (ok_close_task g g_ok).
Qed.
End SkipFacts.

(** ** The parse of a tasks block *)

Lemma found_in_good g items :
  omap found_in (Good g :: items)
  = (render (Good g), [type_text g; description_text g]) :: omap found_in items.
Proof. reflexivity. Qed.

Lemma found_in_other i items :
  is_good i = false -> omap found_in (i :: items) = omap found_in items.
Proof. now destruct i. Qed.

Lemma tasks_of_good g items :
  type_text g <> [] -> description_text g <> [] ->
  tasks_of (Good g :: items)
  = {| type := trim (type_text g); description := trim (description_text g) |} :: tasks_of items.
Proof.
  intros Ht Hd. unfold tasks_of. cbn [omap list_omap task_of].
  destruct (type_text g); [contradiction |]. destruct (description_text g); [contradiction |].
  reflexivity.
Qed.

Lemma tasks_of_empty_field g items :
  type_text g = [] \/ description_text g = [] ->
  tasks_of (Good g :: items) = tasks_of items.
Proof.
  intros H. unfold tasks_of. cbn [omap list_omap task_of].
  destruct H as [-> | ->]; [reflexivity |]. now rewrite andb_false_r.
Qed.

Lemma tasks_of_other i items : is_good i = false -> tasks_of (i :: items) = tasks_of items.
Proof. now destruct i. Qed.

Section ParseFacts.
Local Abbreviation m := (matcher true true).
Local Abbreviation P := (source taskRegex).

Lemma taskRegex_never_empty : never_empty true true P.
Proof.
  intros s mt caps rest. rewrite taskRegex_source, matcher_literal.
  destruct (starts true (lit "<task>") s) eqn:Hs; [| discriminate].
  apply starts_length in Hs.
  destruct (m _ _) as [[[mt' caps'] rest'] |]; [| discriminate].
  intros [= <- _ _] Hnil. apply (f_equal length) in Hnil.
  rewrite length_app, length_take in Hnil.
  change (length (lit "<task>")) with 6 in *. change (length (@nil ascii)) with 0 in Hnil. lia.
Qed.

Lemma parse_loop_scan fuel S lastIndex subTasks :
  lastIndex <= length S ->
  parse_loop fuel S lastIndex subTasks
  = fold_left push_captures (scan fuel true true P (drop lastIndex S)) subTasks.
Proof.
  revert lastIndex subTasks. induction fuel as [| fuel IH]; intros lastIndex subTasks Hle;
    [reflexivity |].
  cbn [parse_loop scan].
  pose proof (exec_global taskRegex eq_refl taskRegex_never_empty S lastIndex Hle) as He.
  change (ignoreCase taskRegex) with true in He. change (dotAll taskRegex) with true in He.
  destruct (search true true P 0 (drop lastIndex S)) as [r |].
  - destruct He as [r' [-> [Hm [Hc [Hi [Hb [Ha Hne]]]]]]].
    cbn [fold_left]. rewrite IH by exact Hb. rewrite Ha. f_equal.
    unfold push_task, push_captures. cbn [snd]. now rewrite Hc.
  - now rewrite He.
Qed.

(** More rounds than the text has characters do not change the parse. *)
Lemma parse_loop_fuel S fuel fuel' lastIndex subTasks :
  lastIndex <= length S ->
  length S + 1 <= fuel + lastIndex -> length S + 1 <= fuel' + lastIndex ->
  parse_loop fuel S lastIndex subTasks = parse_loop fuel' S lastIndex subTasks.
Proof.
  revert fuel' lastIndex subTasks.
  induction fuel as [| fuel IH]; intros fuel' lastIndex subTasks Hle H1 H2; [lia |].
  destruct fuel' as [| fuel']; [lia |]. cbn [parse_loop].
  pose proof (exec_global taskRegex eq_refl taskRegex_never_empty S lastIndex Hle) as He.
  destruct (search _ _ _ 0 (drop lastIndex S)) as [r |].
  - destruct He as [r' [-> [Hm [Hc [Hi [Hb [Ha Hne]]]]]]].
    assert (0 < length (matched r')) by (rewrite Hm; destruct (matched r); [congruence | cbn; lia]).
    apply IH; lia.
  - now rewrite He.
Qed.

Lemma parse_tasks_fuel S n :
  parse_loop (Datatypes.S (length S) + n) S 0 [] = parse_tasks S.
Proof. unfold parse_tasks. apply parse_loop_fuel; lia. Qed.

Lemma search_skip a b i :
  fails_within (m P) a b ->
  search true true P i (a ++ b) = search true true P (i + length a) b.
Proof.
  revert i. induction a as [| c a IH]; intros i H.
  - cbn. now rewrite Nat.add_0_r.
  - cbn [app search]. pose proof (H 0 ltac:(cbn; lia)) as H0. cbn [drop app] in H0.
    rewrite H0, IH.
    + cbn [length]. f_equal. lia.
    + intros j Hj. apply (H (S j)). cbn. lia.
Qed.

Lemma scan_skip fuel a b :
  fails_within (m P) a b -> scan fuel true true P (a ++ b) = scan fuel true true P b.
Proof.
  intros H. destruct fuel as [| fuel]; [reflexivity |]. cbn [scan].
  rewrite (search_skip a b 0 H), (search_shift P true true (0 + length a)).
  now destruct (search true true P 0 b).
Qed.

Lemma scan_match fuel s mt caps rest :
  m P s = Some (mt, caps, rest) ->
  scan (S fuel) true true P s = (mt, caps) :: scan fuel true true P rest.
Proof.
  intros H. cbn [scan]. destruct s; cbn [search]; now rewrite H.
Qed.

Lemma scan_nothing fuel s :
  fails_throughout (m P) s -> scan fuel true true P s = [].
Proof.
  intros H. destruct fuel as [| fuel]; [reflexivity |]. cbn [scan].
  now rewrite (proj2 (search_None_iff true true P 0 s) H).
Qed.

(** Behind the last group with both sub-tags nothing is found, neither by
    the pattern nor by its part from [</type>] on. *)
Lemma nothing_without_good items :
  Forall well_formed items -> Forall (fun i => is_good i = false) items ->
  fails_throughout (m P) (render_all items)
  /\ fails_throughout (m from_close_type) (render_all items).
Proof.
  induction 1 as [| i items Hi _ IH]; intros Hng.
  - split; apply fails_throughout_nil;
      [apply taskRegex_needs_lt | apply from_close_type_needs_lt].
  - apply Forall_cons in Hng as [Hgi Hng]. destruct (IH Hng) as [IHP IHF].
    unfold render_all. cbn [map concat]. fold (render_all items).
    destruct i as [g | g | g | text]; [discriminate | | |]; cbn [well_formed] in Hi.
    + split; apply fails_throughout_app; try assumption;
        [apply P_within_no_type | apply F_within_no_type]; exact Hi.
    + split; apply fails_throughout_app; try assumption;
        [apply P_within_no_description | apply F_within_no_description]; assumption.
    + split; apply fails_throughout_app; try assumption;
        [apply P_within_plain | apply F_within_plain]; exact Hi.
Qed.

Lemma render_good_length g : tags_ok g -> 0 < length (render (Good g)).
Proof.
  intros Hg. cbn [render]. rewrite length_app.
  pose proof (ci_eq_length _ _ (ok_open_task g Hg)) as H. cbn in H. lia.
Qed.

(** The matches of the pattern in a text made of items. *)
Lemma scan_items fuel items :
  length (render_all items) < fuel ->
  Forall well_formed items -> description_not_owed items ->
  scan fuel true true P (render_all items) = omap found_in items.
Proof.
  revert fuel. induction items as [| i items IH]; intros fuel Hfuel Hwf Hdesc.
  - apply scan_nothing, fails_throughout_nil, taskRegex_needs_lt.
  - apply Forall_cons in Hwf as [Hi Hwf].
    unfold render_all in *. cbn [map concat] in *. fold (render_all items) in *.
    rewrite length_app in Hfuel.
    destruct i as [g | g | g | text]; cbn [well_formed description_not_owed] in Hi, Hdesc.
    + pose proof Hi as Hg. destruct fuel as [| fuel]; [lia |].
      rewrite (scan_match _ _ _ _ _ (taskRegex_matches g Hg (render_all items))).
      rewrite found_in_good. f_equal.
      apply IH; [| exact Hwf | exact Hdesc].
      pose proof (render_good_length g Hg). lia.
    + rewrite (scan_skip _ _ _ (P_within_no_type g Hi (render_all items))).
      rewrite found_in_other by reflexivity. apply IH; [lia | exact Hwf | exact Hdesc].
    + destruct Hdesc as [Hng Hdesc].
      destruct (nothing_without_good (NoDescription g :: items)) as [HP _].
      { now constructor. }
      { now constructor. }
      unfold render_all in HP. cbn [map concat] in HP.
      rewrite (scan_nothing _ _ HP). rewrite found_in_other by reflexivity.
      clear -Hng. induction Hng as [| i items Hi _ IH]; [reflexivity |].
      now rewrite found_in_other.
    + rewrite (scan_skip _ _ _ (P_within_plain text (render_all items) Hi)).
      rewrite found_in_other by reflexivity. apply IH; [lia | exact Hwf | exact Hdesc].
Qed.

Lemma fold_push_found items subTasks :
  Forall well_formed items ->
  fold_left push_captures (omap found_in items) subTasks = subTasks ++ tasks_of items.
Proof.
  revert subTasks. induction items as [| i items IH]; intros subTasks Hwf.
  - cbn. now rewrite app_nil_r.
  - apply Forall_cons in Hwf as [Hi Hwf].
    destruct i as [g | g | g | text];
      try (rewrite found_in_other, tasks_of_other by reflexivity; now apply IH).
    rewrite found_in_good. cbn [fold_left].
    unfold push_captures at 2. cbn [snd lookup list_lookup default].
    destruct (type_text g) as [| c1 t1] eqn:Ht.
    { rewrite tasks_of_empty_field by now left. cbn [truthy andb]. now apply IH. }
    destruct (description_text g) as [| c2 t2] eqn:Hd.
    { rewrite tasks_of_empty_field by now right. cbn [truthy andb]. now apply IH. }
    rewrite tasks_of_good by congruence. rewrite Ht, Hd.
    cbn [truthy andb id]. rewrite IH by exact Hwf. now rewrite <- app_assoc.
Qed.

Lemma parse_tasks_items items :
  Forall well_formed items -> description_not_owed items ->
  parse_tasks (render_all items) = tasks_of items.
Proof.
  intros Hwf Hdesc. unfold parse_tasks.
  rewrite parse_loop_scan by lia. rewrite drop_0.
  rewrite scan_items by (try assumption; lia).
  now rewrite fold_push_found.
Qed.
End ParseFacts.

(** ** Task Orchestrator: the results *)

Section ResultFacts.
Variable generateContent : Log -> GenerateContentParameters -> exn + option jsstring.

(** The workers that return carry the labels of their subtasks, in order. *)
Lemma dispatch_labels this task effectiveContext subTasks log ws :
  snd (map_async (worker generateContent this task effectiveContext) subTasks log)
  = map Return ws ->
  map labels ws = map task_labels subTasks.
Proof.
  revert log ws. induction subTasks as [| t subTasks IH]; intros log ws.
  - cbn. destruct ws; [reflexivity | discriminate].
  - cbn [map_async]. rewrite worker_eq.
    destruct (formatPrompt _ _) as [e | workerInput].
    + destruct (map_async _ subTasks log) as [log2 ps]. cbn. destruct ws; discriminate.
    + destruct (map_async _ subTasks (log ++ [request workerInput])) as [log2 ps] eqn:Hm.
      cbn [snd]. destruct ws as [| w ws]; [discriminate |]. cbn [map].
      intros [= Hw Hps]. f_equal.
      * destruct (call_outcome _ _ _); try discriminate. now injection Hw as <-.
      * apply (IH (log ++ [request workerInput])). now rewrite Hm.
Qed.

Lemma process_returns this task context order log orchestratorInput response ws :
  formatPrompt (orchestratorPrompt this)
    (object_literal [(lit "task", task)] (default [] context)) = inr orchestratorInput ->
  answers generateContent log orchestratorInput response ->
  snd (dispatch generateContent this task context response (log ++ [request orchestratorInput]))
  = map Return ws ->
  process generateContent this task context order log
  = (fst (dispatch generateContent this task context response
            (log ++ [request orchestratorInput])),
     Return {| analysis := extractXml response (lit "analysis");
               worker_results := map Some ws |}).
Proof.
  intros Hf Ha Hws. rewrite (process_eq _ _ _ _ _ _ _ _ Hf Ha), Hws.
  now rewrite Promise_all_fulfilled.
Qed.
End ResultFacts.

Ltac tags_ok_tac :=
  split; cbn;
  try reflexivity;
  try (repeat constructor; discriminate);
  repeat constructor.

Lemma simple_group_ok_ab : tags_ok (simple_group "a" "b").
Proof. tags_ok_tac. Qed.

Lemma simple_group_ok t d :
  plain (lit t) -> plain (lit d) -> tags_ok (simple_group t d).
Proof.
  intros Ht Hd. split; cbn [simple_group open_task space1 open_type type_text close_type space2
                             open_description description_text close_description space3
                             close_task];
    try reflexivity; try constructor; assumption.
Qed.

Lemma sample_items_well_formed : Forall well_formed sample_items.
Proof.
  unfold sample_items.
  constructor; [cbn [well_formed]; repeat constructor; discriminate |].
  constructor; [cbn [well_formed]; tags_ok_tac |].
  constructor; [apply simple_group_ok; repeat constructor; discriminate |].
  constructor; [apply simple_group_ok; repeat constructor; discriminate |].
  constructor; [apply simple_group_ok; repeat constructor; discriminate |].
  constructor.
Qed.

(** X24.  The parse of a tasks block made of groups with both sub-tags,
    groups without the type sub-tag, groups without the description
    sub-tag and text without [<], with the tags in any case, white space
    (line breaks too) between the tags and fields without [<]: when no
    group without description has a group with both sub-tags behind it,
    the parse gives, in order of appearance, the trimmed fields of the
    groups with both sub-tags, leaving out those with an empty field, and
    passes over all the rest.  When the workers return, [process] returns one result per
    subtask, with the labels of the subtasks in their order; with no
    subtask, it returns the empty list of results. *)
Theorem tasks_parsed_in_order :
  (forall items,
      Forall well_formed items -> description_not_owed items ->
      parse_tasks (render_all items) = tasks_of items)
  /\ (forall generateContent this task context order log orchestratorInput response ws,
         formatPrompt (orchestratorPrompt this)
           (object_literal [(lit "task", task)] (default [] context)) = inr orchestratorInput ->
         answers generateContent log orchestratorInput response ->
         snd (dispatch generateContent this task context response
                (log ++ [request orchestratorInput])) = map Return ws ->
         process generateContent this task context order log
         = (fst (dispatch generateContent this task context response
                   (log ++ [request orchestratorInput])),
            Return {| analysis := extractXml response (lit "analysis");
                      worker_results := map Some ws |})
         /\ map labels ws = map task_labels (parse_tasks (extractXml response (lit "tasks"))))
  /\ (forall generateContent this task context order log orchestratorInput response,
         formatPrompt (orchestratorPrompt this)
           (object_literal [(lit "task", task)] (default [] context)) = inr orchestratorInput ->
         answers generateContent log orchestratorInput response ->
         parse_tasks (extractXml response (lit "tasks")) = [] ->
         process generateContent this task context order log
         = (log ++ [request orchestratorInput],
            Return {| analysis := extractXml response (lit "analysis");
                      worker_results := [] |})).
Proof.
  split; [exact parse_tasks_items | split].
  - intros generateContent this task context order log orchestratorInput response ws Hf Ha Hws.
    split; [now apply process_returns |].
    unfold dispatch in Hws. now apply dispatch_labels in Hws.
  - intros generateContent this task context order log orchestratorInput response Hf Ha Hnil.
    rewrite (process_returns generateContent this task context order log orchestratorInput
               response [] Hf Ha).
    + unfold dispatch. now rewrite Hnil.
    + unfold dispatch. now rewrite Hnil.
Qed.

(** Two groups with both sub-tags, one of them in mixed case and spread
    over lines, between other text, a group without type and, at the end, a
    group without description: exactly the two are parsed, in order, and
    [process] returns their two results in that order although the second
    worker completes first.  A group with an empty description in front of
    a group with two fields: the first is left out. *)
Lemma tasks_parsed_in_order_witness :
  parse_tasks (render_all sample_items)
  = [{| type := lit "Formal"; description := lit "line one" ++ nl ++ lit "line two" |};
     {| type := lit "casual"; description := lit "friendly" |}]
  /\ snd (process sample_client sample_orchestrator (lit "a note") None [1; 0] [])
     = Return {| analysis := lit "two tones";
                 worker_results :=
                   [Some {| w_type := lit "Formal";
                            w_description := lit "line one" ++ nl ++ lit "line two";
                            w_result := lit "r1" |};
                    Some {| w_type := lit "casual"; w_description := lit "friendly";
                            w_result := lit "r2" |}] |}
  /\ parse_tasks (render_all [Good (simple_group "a" ""); Good (simple_group "b" "c")])
     = [{| type := lit "b"; description := lit "c" |}].
Proof.
  destruct tasks_parsed_in_order as [Hparse [Hprocess _]]. split; [| split].
  - rewrite (Hparse sample_items sample_items_well_formed); [reflexivity |].
    cbn. repeat split; repeat constructor.
  - destruct (Hprocess sample_client sample_orchestrator (lit "a note") None [1; 0] []
                (lit "Plan a note")
                (lit "<analysis>two tones</analysis><tasks>" ++ render_all sample_items
                 ++ lit "</tasks>")
                [{| w_type := lit "Formal";
                    w_description := lit "line one" ++ nl ++ lit "line two";
                    w_result := lit "r1" |};
                 {| w_type := lit "casual"; w_description := lit "friendly";
                    w_result := lit "r2" |}]) as [Hp _].
    + reflexivity.
    + split; [reflexivity | discriminate].
    + vm_compute. reflexivity.
    + etransitivity; [exact (f_equal snd Hp) |]. vm_compute. reflexivity.
  - rewrite (Hparse [Good (simple_group "a" ""); Good (simple_group "b" "c")]);
      [reflexivity | | exact I].
    constructor; [apply simple_group_ok; repeat constructor; discriminate |].
    constructor; [apply simple_group_ok; repeat constructor; discriminate | constructor].
Defined.

(** C4.  The parse at a group without description that has a group with
    both sub-tags behind it.  The text is made of the two groups, and the
    only group with both sub-tags has the type [a] and the description
    [b].  The group without description is not passed over: the lazy
    type field of the pattern runs on from its [<type>] through the end of
    the group into the next group, up to the [</type>] that has a
    [<description>] behind it.  So the one subtask parsed has a type made
    of the first type, tags, and the second type; [process] sends the
    worker request for that subtask and returns its result.  With a group
    with both sub-tags in front, two subtasks are parsed and the second is
    the merged one. *)
Theorem tasks_merge_behind_a_group_without_description :
  (render_all [NoDescription (simple_group "x" ""); Good (simple_group "a" "b")]
   = lit "<task><type>x</type></task><task><type>a</type><description>b</description></task>"
   /\ tasks_of [NoDescription (simple_group "x" ""); Good (simple_group "a" "b")]
      = [{| type := lit "a"; description := lit "b" |}])
  /\ parse_tasks
       (lit "<task><type>x</type></task><task><type>a</type><description>b</description></task>")
     = [{| type := lit "x</type></task><task><type>a"; description := lit "b" |}]
  /\ parse_tasks
       (lit "<task><type>a</type><description>b</description></task><task><type>x</type></task><task><type>c</type><description>d</description></task>")
     = [{| type := lit "a"; description := lit "b" |};
        {| type := lit "x</type></task><task><type>c"; description := lit "d" |}]
  /\ process
       (scripted
          [says "<tasks><task><type>x</type></task><task><type>a</type><description>b</description></task></tasks>";
           says "<response>r</response>"])
       sample_orchestrator (lit "a note") None [] []
     = ([request (lit "Plan a note");
         request (lit "Do x</type></task><task><type>a: b for a note")],
        Return {| analysis := [];
                  worker_results :=
                    [Some {| w_type := lit "x</type></task><task><type>a";
                             w_description := lit "b"; w_result := lit "r" |}] |}).
Proof. split; [split | split; [| split]]; vm_compute; reflexivity. Qed.

(** ** Chains, taken apart *)

Section ChainSteps.
Variable generateContent : Log -> GenerateContentParameters -> exn + option jsstring.

Lemma chain_step input prompt prompts log :
  chain generateContent input (prompt :: prompts) log
  = match call_outcome generateContent log (with_input prompt input) with
    | Return text => chain generateContent text prompts (log ++ [request (with_input prompt input)])
    | Throw e => (log ++ [request (with_input prompt input)], Throw e)
    | Pending => (log ++ [request (with_input prompt input)], Pending)
    end.
Proof.
  cbn [chain]. unfold bind. fold (with_input prompt input). rewrite llmCall1_eq.
  now destruct (call_outcome _ _ _).
Qed.



End ChainSteps.

(** X2.  A chain over two prompt lists put end to end is the chain over the
    first list followed by the chain over the second, started from what
    the first returned. *)
Theorem chain_app generateContent (input : jsstring) (prompts1 prompts2 : list jsstring)
    (log : Log) :
  chain generateContent input (prompts1 ++ prompts2) log
  = (let* result := chain generateContent input prompts1 in
     chain generateContent result prompts2) log.
Proof.
  revert input log. induction prompts1 as [| prompt prompts1 IH]; intros input log;
    [reflexivity |].
  cbn [app]. unfold bind in *. rewrite !chain_step.
  destruct (call_outcome _ _ _); [apply IH | reflexivity | reflexivity].
Qed.

(** X3.  When the steps of [prompts1] are answered with [rs] and the call
    of the next step fails, the chain is rejected with that failure and
    has sent the requests of the answered steps and the one that failed:
    no request is sent for the prompts behind it. *)
Theorem chain_stops_at_first_failure generateContent (input : jsstring)
    (prompts1 : list jsstring) (prompt : jsstring) (prompts2 rs : list jsstring)
    (e : exn) (log : Log) :
  length rs = length prompts1 ->
  (forall i p cur r,
      prompts1 !! i = Some p -> (input :: rs) !! i = Some cur -> rs !! i = Some r ->
      answers generateContent (log ++ take i (chain_requests input prompts1 rs))
        (with_input p cur) r) ->
  call_outcome generateContent (log ++ chain_requests input prompts1 rs)
    (with_input prompt (default input (last rs))) = Throw e ->
  chain generateContent input (prompts1 ++ prompt :: prompts2) log
  = (log ++ chain_requests input prompts1 rs
         ++ [request (with_input prompt (default input (last rs)))],
     Throw e).
Proof.
  revert input rs log.
  induction prompts1 as [| p prompts1 IH]; intros input rs log Hlen Hans Hfail.
  - destruct rs; [| discriminate]. cbn [app]. rewrite chain_step.
    cbn [chain_requests zip_with last default id app] in *. rewrite app_nil_r in *.
    now rewrite Hfail.
  - destruct rs as [| r rs]; [discriminate |].
    pose proof (Hans 0 p input r eq_refl eq_refl eq_refl) as H0.
    cbn [take] in H0. rewrite app_nil_r in H0.
    cbn [app]. rewrite chain_step, (call_outcome_answers _ _ _ _ H0).
    assert (default input (last (r :: rs)) = default r (last rs)) as Hlast
      by (rewrite last_cons; now destruct (last rs)).
    rewrite Hlast in *. cbn [chain_requests zip_with] in Hfail |- *.
    fold (chain_requests r prompts1 rs) in Hfail |- *.
    rewrite (IH r rs (log ++ [request (with_input p input)])).
    + f_equal. now rewrite <- !app_assoc.
    + cbn in Hlen. lia.
    + intros i p' cur r' Hp Hc Hr.
      specialize (Hans (S i) p' cur r' Hp Hc Hr).
      cbn [chain_requests zip_with take] in Hans. rewrite <- app_assoc. exact Hans.
    + rewrite <- app_assoc. exact Hfail.
Qed.

(** The first step is answered and the second fails: two requests, none
    for the third prompt. *)
Lemma chain_stops_at_first_failure_witness :
  chain (scripted [says "one"; inl (Error (lit "quota")); says "three"]) (lit "in")
    ([lit "p1"] ++ lit "p2" :: [lit "p3"]) []
  = ([] ++ chain_requests (lit "in") [lit "p1"] [lit "one"]
        ++ [request (with_input (lit "p2") (lit "one"))],
     Throw (Error (lit "quota"))).
Proof.
  apply (chain_stops_at_first_failure
           (scripted [says "one"; inl (Error (lit "quota")); says "three"]) (lit "in")
           [lit "p1"] (lit "p2") [lit "p3"] [lit "one"] (Error (lit "quota")) [] eq_refl).
  - intros [| i] p cur r Hp Hc Hr; cbn in Hp, Hc, Hr; simplify_eq.
    split; [reflexivity | discriminate].
  - reflexivity.
Defined.


(** ** Promise.all: which rejection it reports *)

Section FirstRejection.
Context {A : Type}.
Variable promises : list (Completion A).

Lemma first_rejection_Some order e :
  first_rejection promises order = Some e ->
  exists j, j ∈ order /\ promises !! j = Some (Throw e).
Proof.
  induction order as [| i order IH]; [discriminate |]. cbn [first_rejection].
  destruct (promises !! i) as [[x | e0 |] |] eqn:Hi.
  - intros H. destruct (IH H) as [j [Hj Hl]]. exists j. split; [now right | exact Hl].
  - intros [= ->]. exists i. split; [now left | exact Hi].
  - intros H. destruct (IH H) as [j [Hj Hl]]. exists j. split; [now right | exact Hl].
  - intros H. destruct (IH H) as [j [Hj Hl]]. exists j. split; [now right | exact Hl].
Qed.

Lemma settle_keeps_rejection st i e :
  aggregate st = Throw e -> aggregate (settle promises st i) = Throw e.
Proof.
  intros H. unfold settle. destruct (bool_decide (i ∈ settled st)); [exact H |].
  destruct (promises !! i) as [[x | e0 |] |]; cbn [aggregate]; try exact H.
  - destruct (bool_decide _); [| exact H]. now rewrite H.
  - now rewrite H.
Qed.

Lemma fold_settle_keeps_rejection order st e :
  aggregate st = Throw e -> aggregate (fold_left (settle promises) order st) = Throw e.
Proof.
  revert st. induction order as [| i order IH]; intros st H; [exact H |].
  cbn [fold_left]. apply IH. now apply settle_keeps_rejection.
Qed.

(** As long as some promise is rejected, fulfilments alone leave the
    aggregate pending. *)
Lemma settle_fulfilled_pending st i x j e :
  all_invariant promises st -> aggregate st = Pending ->
  promises !! i = Some (Return x) -> promises !! j = Some (Throw e) ->
  aggregate (settle promises st i) = Pending.
Proof.
  intros Inv Hp Hi Hj. pose proof (settle_invariant promises st i Inv) as Inv'.
  pose proof (inv_count _ _ Inv') as Hcount.
  pose proof (filter_fulfilled_length promises (settled (settle promises st i)) j
                (inv_nodup _ _ Inv') (inv_bound _ _ Inv')) as Hlt.
  assert (j < length promises) as Hjn by (now apply lookup_lt_Some in Hj).
  assert (fulfilled promises j = false) as Hjf by (unfold fulfilled; now rewrite Hj).
  specialize (Hlt Hjn Hjf).
  unfold settle in *. destruct (bool_decide (i ∈ settled st)); [exact Hp |].
  rewrite Hi in *. cbn [aggregate remainingElementsCount settled] in *.
  destruct (bool_decide (pred (remainingElementsCount st) = 0)) eqn:Hz; [| exact Hp].
  apply bool_decide_eq_true in Hz. lia.
Qed.

Lemma fold_first_rejection order st e :
  all_invariant promises st -> aggregate st = Pending ->
  first_rejection promises order = Some e ->
  aggregate (fold_left (settle promises) order st) = Throw e.
Proof.
  revert st. induction order as [| i order IH]; intros st Inv Hp; [discriminate |].
  cbn [first_rejection fold_left].
  destruct (promises !! i) as [[x | e0 |] |] eqn:Hi.
  - intros H. destruct (first_rejection_Some _ _ H) as [j [_ Hj]].
    apply IH; [now apply settle_invariant | | exact H].
    now apply (settle_fulfilled_pending st i x j e).
  - intros [= ->]. apply fold_settle_keeps_rejection.
    unfold settle. destruct (bool_decide (i ∈ settled st)) eqn:Hs.
    + apply bool_decide_eq_true in Hs.
      destruct (inv_rejected _ _ Inv) as [e' [He' _]]; [| congruence].
      exists i. split; [exact Hs |]. unfold rejected. now rewrite Hi.
    + rewrite Hi. cbn [aggregate]. now rewrite Hp.
  - intros H. replace (settle promises st i) with st; [now apply IH |].
    unfold settle. destruct (bool_decide _); [reflexivity |]. now rewrite Hi.
  - intros H. replace (settle promises st i) with st; [now apply IH |].
    unfold settle. destruct (bool_decide _); [reflexivity |]. now rewrite Hi.
Qed.

Lemma Promise_all_first_rejection order e :
  first_rejection promises (order ++ seq 0 (length promises)) = Some e ->
  Promise_all promises order = Throw e.
Proof.
  intros H. rewrite Promise_all_final. unfold all_final.
  apply fold_first_rejection; [apply all_init_invariant | | exact H].
  destruct (first_rejection_Some _ _ H) as [j [_ Hj]]. apply lookup_lt_Some in Hj.
  cbn [all_init aggregate]. rewrite bool_decide_eq_false_2; [reflexivity | lia].
Qed.

End FirstRejection.

(** X5.  The first failure wins.  When some call of a fan-out fails,
    [parallel] is rejected with the failure of the call that, among the
    failed ones, comes first in the order of completion, after every
    request has been sent; and [process], once its decomposition request is
    answered, is rejected with the failure of the worker that is first to
    fail. *)
Theorem first_failure_wins generateContent (order : list nat) (log : Log) :
  (forall prompt inputs e,
      first_rejection (parallel_calls generateContent prompt inputs log)
        (order ++ seq 0 (length inputs)) = Some e ->
      parallel generateContent prompt inputs order log
      = (log ++ parallel_requests prompt inputs, Throw e))
  /\ (forall this task context orchestratorInput response e,
         formatPrompt (orchestratorPrompt this)
           (object_literal [(lit "task", task)] (default [] context)) = inr orchestratorInput ->
         answers generateContent log orchestratorInput response ->
         let workers := dispatch generateContent this task context response
                          (log ++ [request orchestratorInput]) in
         first_rejection (snd workers) (order ++ seq 0 (length (snd workers))) = Some e ->
         process generateContent this task context order log = (fst workers, Throw e)).
Proof.
  split.
  - intros prompt inputs e H. rewrite parallel_eq. f_equal.
    apply Promise_all_first_rejection. now rewrite parallel_calls_length.
  - intros this task context orchestratorInput response e Hf Ha workers H.
    rewrite (process_eq _ _ _ _ _ _ _ _ Hf Ha). fold workers.
    now rewrite (Promise_all_first_rejection _ _ _ H).
Qed.

(** Three calls, the second and the third failing, the third completing
    first: the failure reported is the third's. *)
Lemma first_failure_wins_witness :
  parallel (scripted [says "ra"; inl (Error (lit "quota")); inl (Error (lit "limit"))])
    (lit "p") [lit "a"; lit "b"; lit "c"] [2; 0; 1] []
  = ([] ++ parallel_requests (lit "p") [lit "a"; lit "b"; lit "c"],
     Throw (Error (lit "limit"))).
Proof.
  destruct (first_failure_wins
              (scripted [says "ra"; inl (Error (lit "quota")); inl (Error (lit "limit"))])
              [2; 0; 1] []) as [H _].
  apply (H (lit "p") [lit "a"; lit "b"; lit "c"] (Error (lit "limit"))). reflexivity.
Defined.

(** ** Router: the lookup, case by case *)

Lemma lowerChar_idempotent c : lowerChar (lowerChar c) = lowerChar c.
Proof. destruct c as [[] [] [] [] [] [] [] []]; reflexivity. Qed.

Lemma toLowerCase_idempotent s : toLowerCase (toLowerCase s) = toLowerCase s.
Proof.
  unfold toLowerCase. rewrite map_map. apply map_ext. intros c. apply lowerChar_idempotent.
Qed.

Lemma own_Some routes key prompt : own routes key = Some prompt -> (key, prompt) ∈ routes.
Proof.
  induction routes as [| [k v] routes IH]; [discriminate |]. cbn [own]. unfold eqb.
  destruct (bool_decide (k = key)) eqn:Hk.
  - apply bool_decide_eq_true in Hk. intros [= ->]. subst k. now left.
  - intros H. right. now apply IH.
Qed.

Lemma route_throws_on generateContent input routes log e :
  call_outcome generateContent log (selectorPrompt (map fst routes) input) = Throw e ->
  route generateContent input routes log
  = (log ++ [request (selectorPrompt (map fst routes) input)], Throw e).
Proof. intros H. unfold route, bind. now rewrite llmCall1_eq, H. Qed.

(** X6.  The dispatch rule of [route].  When the classification call fails,
    so does [route], after that one request.  When it is answered, the key
    read off the answer is looked up: an own key with a prompt that is not
    empty gets the second request, the prompt, a line break, [Input: ] and
    the input, and [route] ends as that call does; an own key with the
    empty prompt is rejected as invalid; a key that is not an own key is
    rejected as invalid, unless it names a member every object inherits,
    whose text is then sent as the prompt. *)
Theorem route_dispatch_rule generateContent (input : jsstring) (routes : js_object)
    (log : Log) :
  let selector := selectorPrompt (map fst routes) input in
  (forall e,
      call_outcome generateContent log selector = Throw e ->
      route generateContent input routes log = (log ++ [request selector], Throw e))
  /\ (forall routeResponse,
         answers generateContent log selector routeResponse ->
         let key := selected_key routeResponse in
         let invalid := (log ++ [request selector], Throw (invalid_route key)) in
         let dispatched prompt :=
           (log ++ [request selector; request (with_input prompt input)],
            call_outcome generateContent (log ++ [request selector])
              (with_input prompt input)) in
         route generateContent input routes log
         = match own routes key with
           | Some [] => invalid
           | Some prompt => dispatched prompt
           | None =>
               if bool_decide (key ∈ Object_prototype_names)
               then dispatched (property_to_string (Inherited key))
               else invalid
           end).
Proof.
  intros selector. split; [apply route_throws_on |].
  intros routeResponse Ha key invalid dispatched.
  rewrite (route_eq _ _ _ _ _ Ha). fold key. unfold get.
  destruct (own routes key) as [[| c prompt] |]; cbn [property_truthy truthy negb].
  - reflexivity.
  - cbn [property_to_string]. unfold dispatched, with_input.
    now rewrite llmCall1_eq, <- app_assoc.
  - destruct (bool_decide (key ∈ Object_prototype_names)); cbn [property_truthy negb];
      [| reflexivity].
    unfold dispatched, with_input. now rewrite llmCall1_eq, <- app_assoc.
Qed.

(** The classifier selects [technical]: the second request carries the
    prompt of that key. *)
Lemma route_dispatch_rule_witness :
  route (scripted [says "<selection>technical</selection>"; says "done"]) (lit "ticket")
    support_routes []
  = ([request (selectorPrompt [lit "billing"; lit "technical"] (lit "ticket"));
      request (with_input (lit "P2") (lit "ticket"))],
     Return (lit "done")).
Proof.
  destruct (route_dispatch_rule
              (scripted [says "<selection>technical</selection>"; says "done"]) (lit "ticket")
              support_routes []) as [_ H].
  rewrite (H (lit "<selection>technical</selection>")); [reflexivity |].
  split; [reflexivity | discriminate].
Defined.

(** X7.  The key is put in lower case before the lookup and the keys of the
    table are not: whatever the client answers, a second request of
    [route] carries the prompt of an own key that is its own lower-case
    form, or the text of an inherited member.  A route entered under a key
    with a capital letter is never dispatched to. *)
Theorem route_reaches_lower_case_keys_only generateContent (input : jsstring)
    (routes : js_object) (log : Log) (second : GenerateContentParameters) :
  fst (route generateContent input routes log)
  = log ++ [request (selectorPrompt (map fst routes) input); second] ->
  (exists key prompt,
      (key, prompt) ∈ routes /\ toLowerCase key = key
      /\ second = request (with_input prompt input))
  \/ (exists name,
         name ∈ Object_prototype_names
         /\ second = request (with_input (property_to_string (Inherited name)) input)).
Proof.
  set (selector := selectorPrompt (map fst routes) input).
  destruct (call_outcome_cases generateContent selector log) as [[response [Ha _]] | [e He]].
  - rewrite (route_eq _ _ _ _ _ Ha). fold selector. unfold get.
    assert (forall B (c : Completion B),
               fst (log ++ [request selector], c) = log ++ [request selector; second] -> False)
      as Hshort.
    { intros B0 c Hl. cbn [fst] in Hl. apply (f_equal length) in Hl.
      rewrite !length_app in Hl. cbn in Hl. lia. }
    destruct (own routes (selected_key response)) as [[| c prompt] |] eqn:Hown;
      cbn [property_truthy truthy negb property_to_string].
    + intros Hl. now apply Hshort in Hl.
    + rewrite llmCall1_eq. cbn [fst]. rewrite <- app_assoc. intros Hl.
      apply app_inv_head in Hl. injection Hl as <-.
      left. exists (selected_key response), (c :: prompt).
      split; [now apply own_Some |]. split; [apply toLowerCase_idempotent | reflexivity].
    + destruct (bool_decide (selected_key response ∈ Object_prototype_names)) eqn:Hp;
        cbn [property_truthy negb].
      * rewrite llmCall1_eq. cbn [fst]. rewrite <- app_assoc. intros Hl.
        apply app_inv_head in Hl. injection Hl as <-.
        right. exists (selected_key response).
        split; [now apply bool_decide_eq_true in Hp | reflexivity].
      * intros Hl. now apply Hshort in Hl.
  - rewrite (route_throws_on _ _ _ _ _ He). cbn [fst]. intros Hl.
    apply (f_equal length) in Hl. rewrite !length_app in Hl. cbn in Hl. lia.
Qed.

(** A table with the keys [Billing] and [technical], and a classifier that
    selects [Technical]: the second request carries the prompt of the key
    in lower case. *)
Lemma route_reaches_lower_case_keys_only_witness :
  (exists key prompt,
      (key, prompt) ∈ [(lit "Billing", lit "P1"); (lit "technical", lit "P2")]
      /\ toLowerCase key = key
      /\ request (with_input (lit "P2") (lit "ticket")) = request (with_input prompt (lit "ticket")))
  \/ (exists name,
         name ∈ Object_prototype_names
         /\ request (with_input (lit "P2") (lit "ticket"))
            = request (with_input (property_to_string (Inherited name)) (lit "ticket"))).
Proof.
  apply (route_reaches_lower_case_keys_only
           (scripted [says "<selection>Technical</selection>"; says "done"]) (lit "ticket")
           [(lit "Billing", lit "P1"); (lit "technical", lit "P2")] []).
  reflexivity.
Defined.

(** X8.  A classification without a selection tag.  When the answer of the
    classifier holds no opening [<selection>] tag, in any case, the key is
    the empty string, and for a table without the empty key [route] is
    rejected with the invalid-route error for that empty key, after the
    one request. *)
Theorem route_rejects_an_answer_without_selection generateContent (input : jsstring)
    (routes : js_object) (log : Log) (routeResponse : jsstring) :
  answers generateContent log (selectorPrompt (map fst routes) input) routeResponse ->
  find true (lit "<selection>") routeResponse = None ->
  own routes [] = None ->
  route generateContent input routes log
  = (log ++ [request (selectorPrompt (map fst routes) input)],
     Throw (Error (lit "Selected route " ++ [chr 34; chr 34] ++ lit " is invalid."))).
Proof.
  intros Ha Hfind Hown.
  assert (selected_key routeResponse = []) as Hkey.
  { unfold selected_key. rewrite extractXml_scan. unfold between_first_nonempty_pair.
    change (open_tag (lit "selection")) with (lit "<selection>"). now rewrite Hfind. }
  rewrite (route_rejects_unknown _ _ _ _ _ Ha); rewrite Hkey; [reflexivity | exact Hown |].
  apply (bool_decide_eq_false_1 ([] ∈ Object_prototype_names)). reflexivity.
Qed.

Lemma route_rejects_an_answer_without_selection_witness :
  route (scripted [says "I would pick billing."]) (lit "ticket") support_routes []
  = ([] ++ [request (selectorPrompt (map fst support_routes) (lit "ticket"))],
     Throw (Error (lit "Selected route " ++ [chr 34; chr 34] ++ lit " is invalid."))).
Proof.
  apply (route_rejects_an_answer_without_selection (scripted [says "I would pick billing."])
           (lit "ticket") support_routes [] (lit "I would pick billing.")).
  - split; [reflexivity | discriminate].
  - reflexivity.
  - reflexivity.
Defined.

(** ** Router: the classification prompt *)

Lemma trimStart_app_trimStart x y : trimStart (x ++ y) = trimStart (trimStart x ++ y).
Proof.
  induction x as [| c x IH]; [reflexivity |]. cbn [app trimStart].
  destruct (isWhiteSpace c) eqn:Hc; [exact IH |]. cbn [app trimStart]. now rewrite Hc.
Qed.

Lemma trimEnd_app_trimEnd a b : trimEnd (a ++ b) = trimEnd (a ++ trimEnd b).
Proof.
  unfold trimEnd. rewrite !rev_app_distr, rev_involutive.
  now rewrite trimStart_app_trimStart.
Qed.

Lemma trimStart_nl_lit c str y :
  isWhiteSpace c = false -> trimStart (nl ++ lit (String c str) ++ y) = lit (String c str) ++ y.
Proof.
  intros H. change (trimStart (chr 10 :: c :: (lit str ++ y)) = c :: (lit str ++ y)).
  cbn [trimStart]. change (isWhiteSpace (chr 10)) with true. cbv iota. now rewrite H.
Qed.

(** X9.  The classification prompt is trimmed as a whole, the input at
    its end included: white space at the end of the input does not reach
    the classifier. *)
Theorem selectorPrompt_drops_trailing_white_space (routeKeys : list jsstring)
    (input : jsstring) :
  selectorPrompt routeKeys input = selectorPrompt routeKeys (trimEnd input).
Proof.
  unfold selectorPrompt, trim. rewrite !trimStart_nl_lit by reflexivity.
  rewrite !app_assoc. now rewrite (trimEnd_app_trimEnd _ input).
Qed.

(** ** Generate/Evaluate Loop: its requests, its failures, its length *)

Section LoopTrace.
Variable generateContent : Log -> GenerateContentParameters -> exn + option jsstring.
Variables task evaluatorPrompt generatorPrompt : jsstring.

Local Abbreviation body := (loop_body generateContent task evaluatorPrompt generatorPrompt).
Local Abbreviation refines := (Spec.refines generateContent task evaluatorPrompt generatorPrompt).
Local Abbreviation rounds := (Spec.rounds generateContent task evaluatorPrompt generatorPrompt).
Local Abbreviation evaluation_of st :=
  (request (evaluate_prompt evaluatorPrompt task (result (current st)))).
Local Abbreviation on_course :=
  (Spec.on_course generateContent task evaluatorPrompt generatorPrompt).

Lemma refinement_requests_snoc memory cur rest feedback next :
  refinement_requests task evaluatorPrompt generatorPrompt memory cur (rest ++ [(feedback, next)])
  = refinement_requests task evaluatorPrompt generatorPrompt memory cur rest
    ++ [request (generate_prompt generatorPrompt task
                   (feedback_context (memory ++ map snd rest) feedback));
        request (evaluate_prompt evaluatorPrompt task next)].
Proof.
  revert memory cur. induction rest as [| [f1 n1] rest IH]; intros memory cur.
  - cbn. now rewrite app_nil_r.
  - cbn [app refinement_requests map snd]. rewrite IH.
    now rewrite <- (List.app_assoc memory [n1]).
Qed.

Lemma loop_requests_snoc candidates feedbacks feedback next :
  S (length feedbacks) = length candidates ->
  loop_requests task evaluatorPrompt generatorPrompt (candidates ++ [next])
    (feedbacks ++ [feedback])
  = loop_requests task evaluatorPrompt generatorPrompt candidates feedbacks
    ++ [request (generate_prompt generatorPrompt task (feedback_context candidates feedback));
        request (evaluate_prompt evaluatorPrompt task next)].
Proof.
  destruct candidates as [| first others]; [discriminate |]. intros [= Hlen].
  cbn [app loop_requests]. rewrite zip_with_app by exact Hlen.
  cbn [zip_with]. rewrite refinement_requests_snoc. cbn [app].
  now rewrite snd_zip by lia.
Qed.

Lemma answered_app log requests1 requests2 texts1 texts2 :
  answered generateContent log requests1 texts1 ->
  answered generateContent (log ++ requests1) requests2 texts2 ->
  answered generateContent log (requests1 ++ requests2) (texts1 ++ texts2).
Proof.
  revert log texts1. induction requests1 as [| r requests1 IH]; intros log texts1 H1 H2.
  - destruct texts1; [| contradiction]. now rewrite app_nil_r in H2.
  - destruct texts1 as [| text texts1]; [contradiction |].
    destruct H1 as [Ha H1]. cbn [app answered]. split; [exact Ha |].
    apply IH; [exact H1 |]. now rewrite <- app_assoc.
Qed.

Lemma on_course_first log0 generation :
  answers generateContent log0 (generate_prompt generatorPrompt task []) generation ->
  on_course log0 (first_attempt (attempt generation),
                  log0 ++ [request (generate_prompt generatorPrompt task [])]).
Proof.
  intros Ha. exists generation, [], [request (generate_prompt generatorPrompt task [])].
  cbn. repeat split; try reflexivity; [constructor | apply Ha | apply Ha].
Qed.

Lemma on_course_refines log0 c c' : on_course log0 c -> refines c c' -> on_course log0 c'.
Proof.
  intros [generation [refinements [sent [Hc [Hm [Hl [Hnp [Hlog [Hreq Hans]]]]]]]]] Hr.
  inversion Hr as [st log evaluation generation' Ha Hn Hg].
  subst c c'. cbn [fst snd] in *.
  exists generation, (refinements ++ [(evaluation, generation')]),
    (sent ++ [request (evaluate_prompt evaluatorPrompt task (result (current st)));
              request (generate_prompt generatorPrompt task
                         (feedback_context (memory st)
                            (extractXml evaluation (lit "feedback"))))]).
  cbn [fst snd with_attempt memory chainOfThought current].
  split; [rewrite Hc, map_app; cbn [map snd]; now rewrite map_app |].
  split; [now rewrite map_app, Hm |]. split; [now rewrite last_snoc |].
  split; [apply Forall_app; split; [exact Hnp | now repeat constructor] |].
  split; [now rewrite Hlog, <- app_assoc |].
  split.
  - unfold feedbacks_of. rewrite map_app. cbn [map fst].
    rewrite loop_requests_snoc
      by (rewrite Hm, Hc, !length_map; cbn [length]; now rewrite length_map).
    fold (feedbacks_of refinements). rewrite <- Hreq. now rewrite <- !app_assoc.
  - unfold texts_of. rewrite map_app, concat_app. cbn [map concat fst snd app].
    fold (texts_of refinements).
    change (generation :: texts_of refinements ++ [evaluation; generation'])
      with ((generation :: texts_of refinements) ++ [evaluation; generation']).
    apply answered_app; [exact Hans |]. rewrite <- Hlog.
    cbn [answered]. split; [exact Ha |]. split; [exact Hg | exact I].
Qed.

Lemma on_course_rounds log0 k c c' : on_course log0 c -> rounds k c c' -> on_course log0 c'.
Proof.
  intros H Hr. induction Hr as [c | k c1 c2 c3 H12 _ IH]; [exact H |].
  apply IH. now apply (on_course_refines log0 c1).
Qed.

(** A failed evaluation, or a failed generation behind an evaluation that
    did not pass, ends the round with that failure. *)
Lemma loop_body_evaluation_fails st log e :
  call_outcome generateContent log (evaluate_prompt evaluatorPrompt task (result (current st)))
  = Throw e ->
  body st log = (log ++ [evaluation_of st], Throw e).
Proof. intros Hc. unfold loop_body, bind. now rewrite evaluate_eq, Hc. Qed.

Lemma loop_body_generation_fails st log evaluation e :
  answers generateContent log (evaluate_prompt evaluatorPrompt task (result (current st)))
    evaluation ->
  ~ passes (extractXml evaluation (lit "evaluation")) ->
  call_outcome generateContent (log ++ [evaluation_of st])
    (generate_prompt generatorPrompt task
       (feedback_context (memory st) (extractXml evaluation (lit "feedback"))))
  = Throw e ->
  body st log
  = (log ++ [evaluation_of st;
             request (generate_prompt generatorPrompt task
                        (feedback_context (memory st)
                           (extractXml evaluation (lit "feedback"))))],
     Throw e).
Proof.
  intros Ha Hnp Hc. unfold loop_body, bind.
  rewrite evaluate_eq, (call_outcome_answers _ _ _ _ Ha).
  destruct (bool_decide_reflect (toUpperCase (extractXml evaluation (lit "evaluation"))
                                 = code_units (lit "PASS"))) as [Hp | _];
    [now contradiction Hnp |].
  fold (feedback_context (memory st) (extractXml evaluation (lit "feedback"))).
  rewrite generate_eq, Hc. now rewrite <- app_assoc.
Qed.

(** A round of the loop ends in a failure only with the failure of the
    request it sent last, and is never left pending. *)
Lemma loop_body_throws st log log' e :
  body st log = (log', Throw e) ->
  exists log0 prompt,
    log' = log0 ++ [request prompt] /\ call_outcome generateContent log0 prompt = Throw e.
Proof.
  unfold loop_body, bind. rewrite evaluate_eq.
  destruct (call_outcome generateContent log _) as [response | e0 |] eqn:Hc.
  - destruct (bool_decide _); [discriminate |].
    rewrite generate_eq.
    destruct (call_outcome generateContent (log ++ _) _) as [generation | e1 |] eqn:Hg;
      [discriminate | | discriminate].
    intros [= <- <-]. eauto.
  - intros [= <- <-]. eauto.
  - discriminate.
Qed.

Lemma while_true_throws fuel st log log' e :
  while_true fuel body st log = Some (log', Throw e) ->
  exists log0 prompt,
    log' = log0 ++ [request prompt] /\ call_outcome generateContent log0 prompt = Throw e.
Proof.
  revert st log. induction fuel as [| fuel IH]; intros st log; [discriminate |].
  cbn [while_true]. destruct (body st log) as [log1 [[st' | r] | e1 |]] eqn:Hb.
  - apply IH.
  - discriminate.
  - intros [= <- <-]. now apply (loop_body_throws st log).
  - discriminate.
Qed.

(** With a client that answers every request and never gives the verdict
    PASS, every round is followed by another. *)
Lemma while_true_never_passing fuel st log :
  (forall log' prompt,
      exists text, answers generateContent log' prompt text
                   /\ ~ passes (extractXml text (lit "evaluation"))) ->
  while_true fuel body st log = None.
Proof.
  intros Hclient. revert st log. induction fuel as [| fuel IH]; intros st log; [reflexivity |].
  cbn [while_true].
  destruct (Hclient log (evaluate_prompt evaluatorPrompt task (result (current st))))
    as [evaluation [Ha Hnp]].
  destruct (Hclient (log ++ [evaluation_of st])
              (generate_prompt generatorPrompt task
                 (feedback_context (memory st) (extractXml evaluation (lit "feedback")))))
    as [generation [Hg _]].
  rewrite (loop_body_refines generateContent task evaluatorPrompt generatorPrompt st log _ _
             (refines_round _ _ _ _ st log evaluation generation Ha Hnp Hg)).
  apply IH.
Qed.

End LoopTrace.

(** X10.  The requests of a run of [loop] that returns, and their
    answers.  The history it returns is not empty and the result it
    returns is the result of the last entry.  The entries are the attempts
    read off the answers of the client to the generation requests.  The
    log has grown by two requests per entry: the first generation request,
    without context, and then, for every candidate, its evaluation request
    and, when the answer did not pass, a generation request whose context
    lists all the candidates so far, in order, and the feedback read off
    that answer.  The client answered each of these requests, the last of
    them with the verdict PASS and none of the evaluations before. *)
Theorem loop_requests_follow_the_history generateContent
    (task evaluatorPrompt generatorPrompt : jsstring) (fuel : nat) (log log' : Log)
    (res : jsstring) (hist : list ChainOfThoughtItem) :
  loop generateContent fuel task evaluatorPrompt generatorPrompt log
  = Some (log', Return (res, hist)) ->
  (exists item, last hist = Some item /\ res = result item)
  /\ (exists generation refinements verdict,
         hist = map attempt (generation :: map snd refinements)
         /\ Forall (fun r => ~ passes (extractXml (fst r) (lit "evaluation"))) refinements
         /\ passes (extractXml verdict (lit "evaluation"))
         /\ log' = log ++ loop_requests task evaluatorPrompt generatorPrompt
                            (map result hist) (feedbacks_of refinements)
         /\ answered generateContent log
              (loop_requests task evaluatorPrompt generatorPrompt
                 (map result hist) (feedbacks_of refinements))
              (generation :: texts_of refinements ++ [verdict]))
  /\ length log' = length log + 2 * length hist.
Proof.
  unfold loop. rewrite generate_eq.
  destruct (call_outcome_cases generateContent (generate_prompt generatorPrompt task []) log)
    as [[generation0 [Ha0 ->]] | [e ->]]; [| discriminate].
  intros H. apply while_true_returns in H as [k [st_k [log_k [Hk [Hr [Hp [-> ->]]]]]]].
  pose proof (on_course_rounds generateContent task evaluatorPrompt generatorPrompt log k _ _
                (on_course_first generateContent task evaluatorPrompt generatorPrompt log
                   generation0 Ha0) Hr)
    as [generation [refinements [sent [Hc [Hm [Hl [Hnp [Hlog [Hreq Hans]]]]]]]]].
  cbn [fst snd] in *. destruct Hp as [verdict [Hv [Hpass ->]]]. cbn [fst snd] in *.
  split; [now exists (current st_k) |].
  destruct (while_true_goes_on _ _ _ _ _ _ _ _ _ Hr) as [_ [_ [Hlen Hlenlog]]].
  split.
  - exists generation, refinements, verdict.
    split; [exact Hc |]. split; [exact Hnp |]. split; [exact Hpass |].
    rewrite <- Hm, <- Hreq. split; [now rewrite Hlog, <- app_assoc |].
    change (generation :: texts_of refinements ++ [verdict])
      with ((generation :: texts_of refinements) ++ [verdict]).
    apply (answered_app generateContent); [exact Hans |]. rewrite <- Hlog.
    cbn [answered]. split; [exact Hv | exact I].
  - rewrite length_app, Hlenlog, Hlen, length_app. cbn. lia.
Qed.

(** A first candidate that does not pass and a second that does: four
    requests, the third with the first candidate and the feedback the
    client gave on it. *)
Lemma loop_requests_follow_the_history_witness :
  loop (scripted [says "<response>c1</response>";
                  says "<evaluation>FAIL</evaluation><feedback>f1</feedback>";
                  says "<response>c2</response>";
                  says "<evaluation>PASS</evaluation>"])
    2 (lit "t") (lit "E") (lit "G") []
  = Some ([request (lit "G" ++ nl ++ lit "Task: t");
           request (lit "E" ++ nl ++ lit "Original task: t" ++ nl
                    ++ lit "Content to evaluate: c1");
           request (lit "G" ++ nl ++ lit "Previous attempts:" ++ nl ++ lit "- c1" ++ nl ++ nl
                    ++ lit "Feedback: f1" ++ nl ++ lit "Task: t");
           request (lit "E" ++ nl ++ lit "Original task: t" ++ nl
                    ++ lit "Content to evaluate: c2")],
          Return (lit "c2", [{| thoughts := []; result := lit "c1" |};
                             {| thoughts := []; result := lit "c2" |}]))
  /\ exists generation refinements verdict,
      [{| thoughts := []; result := lit "c1" |}; {| thoughts := []; result := lit "c2" |}]
      = map attempt (generation :: map snd refinements)
      /\ Forall (fun r => ~ passes (extractXml (fst r) (lit "evaluation"))) refinements
      /\ passes (extractXml verdict (lit "evaluation"))
      /\ [request (lit "G" ++ nl ++ lit "Task: t");
          request (lit "E" ++ nl ++ lit "Original task: t" ++ nl
                   ++ lit "Content to evaluate: c1");
          request (lit "G" ++ nl ++ lit "Previous attempts:" ++ nl ++ lit "- c1" ++ nl ++ nl
                   ++ lit "Feedback: f1" ++ nl ++ lit "Task: t");
          request (lit "E" ++ nl ++ lit "Original task: t" ++ nl
                   ++ lit "Content to evaluate: c2")]
         = [] ++ loop_requests (lit "t") (lit "E") (lit "G")
                   (map result [{| thoughts := []; result := lit "c1" |};
                                {| thoughts := []; result := lit "c2" |}])
                   (feedbacks_of refinements)
      /\ answered (scripted [says "<response>c1</response>";
                             says "<evaluation>FAIL</evaluation><feedback>f1</feedback>";
                             says "<response>c2</response>";
                             says "<evaluation>PASS</evaluation>"])
           []
           (loop_requests (lit "t") (lit "E") (lit "G")
              (map result [{| thoughts := []; result := lit "c1" |};
                           {| thoughts := []; result := lit "c2" |}])
              (feedbacks_of refinements))
           (generation :: texts_of refinements ++ [verdict]).
Proof.
  assert (loop (scripted [says "<response>c1</response>";
                          says "<evaluation>FAIL</evaluation><feedback>f1</feedback>";
                          says "<response>c2</response>";
                          says "<evaluation>PASS</evaluation>"])
            2 (lit "t") (lit "E") (lit "G") []
          = Some ([request (lit "G" ++ nl ++ lit "Task: t");
                   request (lit "E" ++ nl ++ lit "Original task: t" ++ nl
                            ++ lit "Content to evaluate: c1");
                   request (lit "G" ++ nl ++ lit "Previous attempts:" ++ nl ++ lit "- c1"
                            ++ nl ++ nl ++ lit "Feedback: f1" ++ nl ++ lit "Task: t");
                   request (lit "E" ++ nl ++ lit "Original task: t" ++ nl
                            ++ lit "Content to evaluate: c2")],
                  Return (lit "c2", [{| thoughts := []; result := lit "c1" |};
                                     {| thoughts := []; result := lit "c2" |}]))) as Hrun
    by (vm_compute; reflexivity).
  split; [exact Hrun |].
  exact (proj1 (proj2 (loop_requests_follow_the_history _ _ _ _ _ _ _ _ _ Hrun))).
Defined.

(** X11.  The loop has no limit of attempts.  With a client that answers
    every request and never gives the verdict PASS, no number of rounds
    makes [loop] return: every round ends in a further attempt. *)
Theorem loop_has_no_attempt_limit generateContent
    (task evaluatorPrompt generatorPrompt : jsstring) (log : Log) :
  (forall log' prompt,
      exists text, answers generateContent log' prompt text
                   /\ ~ passes (extractXml text (lit "evaluation"))) ->
  forall fuel, loop generateContent fuel task evaluatorPrompt generatorPrompt log = None.
Proof.
  intros Hclient fuel. unfold loop. rewrite generate_eq.
  destruct (Hclient log (generate_prompt generatorPrompt task [])) as [generation [Ha _]].
  rewrite (call_outcome_answers _ _ _ _ Ha).
  now apply while_true_never_passing.
Qed.

(** A client that always answers FAIL, and a thousand rounds. *)
Lemma loop_has_no_attempt_limit_witness :
  loop (constant_client "<evaluation>FAIL</evaluation>") 1000 (lit "t") (lit "E") (lit "G") []
  = None.
Proof.
  apply (loop_has_no_attempt_limit (constant_client "<evaluation>FAIL</evaluation>")
           (lit "t") (lit "E") (lit "G") []).
  intros log' prompt. exists (lit "<evaluation>FAIL</evaluation>").
  split; [split; [reflexivity | discriminate] |]. vm_compute. discriminate.
Defined.

(** X12.  Failures are not swallowed.  When the first generation call
    fails, [loop] is rejected with that failure after its one request.
    When, after any number of rounds that did not pass, the evaluation
    call fails, or the evaluation does not pass and the generation call
    that follows fails, [loop] is rejected with that failure, the failed
    request being the last it sent.  And whenever [loop] is rejected, the
    reason is the failure of the request it sent last. *)
Theorem loop_rejects_with_the_failure_of_its_last_request generateContent
    (task evaluatorPrompt generatorPrompt : jsstring) (log : Log) :
  (forall e fuel,
      call_outcome generateContent log (generate_prompt generatorPrompt task []) = Throw e ->
      loop generateContent fuel task evaluatorPrompt generatorPrompt log
      = Some (log ++ [request (generate_prompt generatorPrompt task [])], Throw e))
  /\ (forall generation k st log_k,
         answers generateContent log (generate_prompt generatorPrompt task []) generation ->
         rounds generateContent task evaluatorPrompt generatorPrompt k
           (first_attempt (attempt generation),
            log ++ [request (generate_prompt generatorPrompt task [])])
           (st, log_k) ->
         (forall e fuel,
             k < fuel ->
             call_outcome generateContent log_k
               (evaluate_prompt evaluatorPrompt task (result (current st))) = Throw e ->
             loop generateContent fuel task evaluatorPrompt generatorPrompt log
             = Some (log_k ++ [request (evaluate_prompt evaluatorPrompt task
                                          (result (current st)))],
                     Throw e))
         /\ (forall evaluation e fuel,
                k < fuel ->
                answers generateContent log_k
                  (evaluate_prompt evaluatorPrompt task (result (current st))) evaluation ->
                ~ passes (extractXml evaluation (lit "evaluation")) ->
                call_outcome generateContent
                  (log_k ++ [request (evaluate_prompt evaluatorPrompt task
                                        (result (current st)))])
                  (generate_prompt generatorPrompt task
                     (feedback_context (memory st) (extractXml evaluation (lit "feedback"))))
                = Throw e ->
                loop generateContent fuel task evaluatorPrompt generatorPrompt log
                = Some (log_k ++ [request (evaluate_prompt evaluatorPrompt task
                                             (result (current st)));
                                  request (generate_prompt generatorPrompt task
                                             (feedback_context (memory st)
                                                (extractXml evaluation (lit "feedback"))))],
                        Throw e)))
  /\ (forall fuel log' e,
         loop generateContent fuel task evaluatorPrompt generatorPrompt log
         = Some (log', Throw e) ->
         exists log0 prompt,
           log' = log0 ++ [request prompt]
           /\ call_outcome generateContent log0 prompt = Throw e).
Proof.
  split; [| split].
  - intros e fuel Hc. unfold loop. now rewrite generate_eq, Hc.
  - intros generation k st log_k Ha Hr.
    destruct (while_true_goes_on _ _ _ _ _ _ _ _ _ Hr) as [_ [Hgo _]].
    assert (forall fuel, k < fuel ->
              loop generateContent fuel task evaluatorPrompt generatorPrompt log
              = match loop_body generateContent task evaluatorPrompt generatorPrompt st log_k with
                | (log', Return (inl st')) =>
                    while_true (fuel - S k)
                      (loop_body generateContent task evaluatorPrompt generatorPrompt) st' log'
                | (log', Return (inr r)) => Some (log', Return r)
                | (log', Throw e) => Some (log', Throw e)
                | (log', Pending) => Some (log', Pending)
                end) as Hloop.
    { intros fuel Hk. unfold loop. rewrite generate_eq, (call_outcome_answers _ _ _ _ Ha).
      replace fuel with (k + S (fuel - S k)) at 1 by lia.
      fold (attempt generation). fold (first_attempt (attempt generation)).
      rewrite Hgo. reflexivity. }
    split.
    + intros e fuel Hk Hc. rewrite (Hloop fuel Hk).
      now rewrite (loop_body_evaluation_fails generateContent task evaluatorPrompt
                     generatorPrompt st log_k e Hc).
    + intros evaluation e fuel Hk He Hnp Hc. rewrite (Hloop fuel Hk).
      now rewrite (loop_body_generation_fails generateContent task evaluatorPrompt
                     generatorPrompt st log_k evaluation e He Hnp Hc).
  - intros fuel log' e. unfold loop. rewrite generate_eq.
    destruct (call_outcome generateContent log (generate_prompt generatorPrompt task []))
      as [response | e0 |] eqn:Hc.
    + apply while_true_throws.
    + intros [= <- <-]. eauto.
    + discriminate.
Qed.

(** The evaluation of the first candidate fails: [loop] is rejected with
    that failure after its second request. *)
Lemma loop_rejects_with_the_failure_of_its_last_request_witness :
  loop (scripted [says "<response>c1</response>"; inl (Error (lit "quota"))])
    1 (lit "t") (lit "E") (lit "G") []
  = Some (([] ++ [request (generate_prompt (lit "G") (lit "t") [])])
          ++ [request (evaluate_prompt (lit "E") (lit "t")
                         (result (current (first_attempt
                                             (attempt (lit "<response>c1</response>"))))))],
          Throw (Error (lit "quota"))).
Proof.
  destruct (loop_rejects_with_the_failure_of_its_last_request
              (scripted [says "<response>c1</response>"; inl (Error (lit "quota"))])
              (lit "t") (lit "E") (lit "G") []) as [_ [H _]].
  destruct (H (lit "<response>c1</response>") 0
              (first_attempt (attempt (lit "<response>c1</response>")))
              ([] ++ [request (generate_prompt (lit "G") (lit "t") [])])) as [Hev _].
  - split; [reflexivity | discriminate].
  - constructor.
  - apply (Hev (Error (lit "quota")) 1); [lia | reflexivity].
Defined.

(** ** Trimming *)

Lemma trimStart_head s c r : trimStart s = c :: r -> isWhiteSpace c = false.
Proof.
  induction s as [| a s IH]; [discriminate |]. cbn [trimStart].
  destruct (isWhiteSpace a) eqn:Ha; [exact IH |]. now intros [= <- _].
Qed.

Lemma trimStart_fixed c r : isWhiteSpace c = false -> trimStart (c :: r) = c :: r.
Proof. intros H. cbn [trimStart]. now rewrite H. Qed.

Lemma trimStart_snoc s c : isWhiteSpace c = false -> trimStart (s ++ [c]) = trimStart s ++ [c].
Proof.
  intros H. induction s as [| a s IH]; cbn [app trimStart]; [now rewrite H |].
  now destruct (isWhiteSpace a).
Qed.

Lemma trimStart_nil s : trimStart s = [] <-> Forall (fun c => isWhiteSpace c = true) s.
Proof.
  induction s as [| a s IH]; [split; [constructor | reflexivity] |]. cbn [trimStart].
  destruct (isWhiteSpace a) eqn:Ha.
  - rewrite IH. split; [now constructor | now intros [_ H]%Forall_cons].
  - split; [discriminate | intros [H _]%Forall_cons; congruence].
Qed.

Lemma trimEnd_cons c s : isWhiteSpace c = false -> trimEnd (c :: s) = c :: trimEnd s.
Proof.
  intros H. unfold trimEnd. cbn [rev]. rewrite (trimStart_snoc _ _ H).
  now rewrite rev_app_distr.
Qed.

Lemma trimEnd_last s r c : trimEnd s = r ++ [c] -> isWhiteSpace c = false.
Proof.
  unfold trimEnd. intros H. apply (f_equal (@rev ascii)) in H.
  rewrite rev_involutive, rev_app_distr in H. cbn in H. now apply trimStart_head in H.
Qed.

Lemma trimEnd_fixed s :
  (forall r c, s = r ++ [c] -> isWhiteSpace c = false) -> trimEnd s = s.
Proof.
  intros H. unfold trimEnd. destruct (rev s) as [| c r] eqn:Hr.
  - apply (f_equal (@rev ascii)) in Hr. rewrite rev_involutive in Hr. now subst s.
  - apply (f_equal (@rev ascii)) in Hr. rewrite rev_involutive in Hr. cbn [rev] in Hr.
    rewrite (trimStart_fixed _ _ (H _ _ Hr)). now rewrite Hr.
Qed.

Lemma trim_head s c r : trim s = c :: r -> isWhiteSpace c = false.
Proof.
  unfold trim. destruct (trimStart s) as [| c0 t] eqn:Ht; [discriminate |].
  rewrite (trimEnd_cons _ _ (trimStart_head _ _ _ Ht)). intros [= <- _].
  exact (trimStart_head _ _ _ Ht).
Qed.

Lemma trim_last s r c : trim s = r ++ [c] -> isWhiteSpace c = false.
Proof. apply trimEnd_last. Qed.

Lemma trim_idempotent s : trim (trim s) = trim s.
Proof.
  assert (trimStart (trim s) = trim s) as Hs.
  { destruct (trim s) as [| c r] eqn:Ht; [reflexivity |].
    apply trimStart_fixed. exact (trim_head _ _ _ Ht). }
  unfold trim at 1. rewrite Hs. apply trimEnd_fixed. intros r c. apply trim_last.
Qed.

Lemma trim_nil s : trim s = [] <-> Forall (fun c => isWhiteSpace c = true) s.
Proof.
  rewrite <- trimStart_nil. unfold trim.
  destruct (trimStart s) as [| c0 t] eqn:Ht; [split; reflexivity |].
  rewrite (trimEnd_cons _ _ (trimStart_head _ _ _ Ht)). split; discriminate.
Qed.

(** ** The extractor: round trip, trimming, the case of the tag *)

Lemma starts_lt_plain w c s : c <> "<"%char -> starts true ("<"%char :: w) (c :: s) = false.
Proof.
  intros Hc. cbn [starts]. destruct (same_char true "<" c) eqn:H; [| reflexivity].
  now apply same_char_lt in H.
Qed.

(** A text that begins with [<] is first found behind a text without [<]. *)
Lemma find_behind_plain w a s :
  plain a -> starts true ("<"%char :: w) s = true ->
  find true ("<"%char :: w) (a ++ s) = Some (length a).
Proof.
  intros Ha Hs. induction Ha as [| c a Hc Ha IH].
  - cbn [app length]. destruct s as [| c s]; [discriminate |]. cbn [find]. now rewrite Hs.
  - cbn [app length find]. rewrite (starts_lt_plain _ _ _ Hc). now rewrite IH.
Qed.

Lemma find_here ic w s : starts ic w s = true -> find ic w s = Some 0.
Proof. intros H. destruct s; cbn [find]; now rewrite H. Qed.

Lemma find_skip ic w t s :
  (forall j, j < length t -> starts ic w (drop j (t ++ s)) = false) ->
  find ic w (t ++ s) = (fun n => length t + n) <$> find ic w s.
Proof.
  induction t as [| c t IH]; intros H.
  - cbn [app length]. now destruct (find ic w s).
  - pose proof (H 0 ltac:(cbn; lia)) as H0. cbn [drop app] in H0.
    cbn [app find]. rewrite H0.
    rewrite IH by (intros j Hj; apply (H (S j)); cbn; lia).
    now destruct (find ic w s).
Qed.

Lemma ci_eq_starts w w' s : ci_eq w w' -> starts true w' s = starts true w s.
Proof. intros H. rewrite !starts_codes. now rewrite H. Qed.

Lemma ci_eq_find w w' s : ci_eq w w' -> find true w' s = find true w s.
Proof.
  intros H. induction s as [| c s IH]; cbn [find]; rewrite (ci_eq_starts _ _ _ H);
    [reflexivity | now rewrite IH].
Qed.

Lemma ci_eq_around a b w w' : ci_eq w w' -> ci_eq (a ++ w ++ b) (a ++ w' ++ b).
Proof. unfold ci_eq. intros H. now rewrite !map_app, H. Qed.

(** X13.  Wrapping and extracting.  A content that is not empty and holds
    no [<], put between an opening and a closing tag written in any case,
    behind a text without [<] and in front of any text, is what
    [extractXml] returns, trimmed.  The extract is then empty exactly when
    the content is white space only, so that an empty extract does not
    tell a blank content from a missing tag. *)
Theorem extractXml_round_trip (tag pre opening content closing post : jsstring) :
  ci_eq (open_tag tag) opening -> ci_eq (close_tag tag) closing ->
  plain pre -> plain content -> content <> [] ->
  extractXml (pre ++ opening ++ content ++ closing ++ post) tag = trim content
  /\ (extractXml (pre ++ opening ++ content ++ closing ++ post) tag = []
      <-> Forall (fun c => isWhiteSpace c = true) content).
Proof.
  intros Ho Hc Hpre Hcontent Hne.
  enough (extractXml (pre ++ opening ++ content ++ closing ++ post) tag = trim content) as H
    by (split; [exact H | rewrite H; apply trim_nil]).
  rewrite extractXml_scan.
  unfold between_first_nonempty_pair.
  change (open_tag tag) with ("<"%char :: tag ++ lit ">") in *.
  change (close_tag tag) with ("<"%char :: "/"%char :: tag ++ lit ">") in *.
  rewrite (find_behind_plain _ _ _ Hpre) by (now apply starts_ci).
  pose proof (ci_eq_length _ _ Ho) as Hlen.
  rewrite <- drop_drop, drop_app_length, <- Hlen, drop_app_length.
  destruct content as [| c body]; [contradiction |]. cbn [app].
  apply Forall_cons in Hcontent as [_ Hbody].
  rewrite (find_behind_plain _ _ _ Hbody) by (now apply starts_ci).
  now rewrite take_app_length.
Qed.

Lemma extractXml_round_trip_witness :
  extractXml (lit "Sure. " ++ lit "<Result>" ++ lit " 42 " ++ lit "</RESULT>" ++ lit " <b>")
    (lit "result")
  = trim (lit " 42 ").
Proof.
  apply (extractXml_round_trip (lit "result") (lit "Sure. ") (lit "<Result>") (lit " 42 ")
           (lit "</RESULT>") (lit " <b>")); try reflexivity; try discriminate;
    repeat constructor; discriminate.
Defined.

(** X14.  The tag name is compared without regard to case: two tag names
    that the flag [i] takes for the same give the same extract. *)
Theorem extractXml_ignores_the_case_of_the_tag (text tag tag' : jsstring) :
  ci_eq tag tag' -> extractXml text tag' = extractXml text tag.
Proof.
  intros H. rewrite !extractXml_scan. unfold between_first_nonempty_pair.
  pose proof (ci_eq_around (lit "<") (lit ">") _ _ H) as Ho.
  pose proof (ci_eq_around (lit "</") (lit ">") _ _ H) as Hc.
  fold (open_tag tag) (open_tag tag') in Ho. fold (close_tag tag) (close_tag tag') in Hc.
  rewrite (ci_eq_find _ _ _ Ho), (ci_eq_length _ _ Ho).
  destruct (find true (open_tag tag) text) as [i |]; [| reflexivity].
  destruct (drop _ text) as [| c body]; [reflexivity |].
  now rewrite (ci_eq_find _ _ _ Hc).
Qed.

Lemma extractXml_ignores_the_case_of_the_tag_witness :
  extractXml (lit "<answer>yes</answer>") (lit "ANSWER")
  = extractXml (lit "<answer>yes</answer>") (lit "answer").
Proof.
  apply (extractXml_ignores_the_case_of_the_tag (lit "<answer>yes</answer>") (lit "answer")
           (lit "ANSWER")).
  reflexivity.
Defined.

(** X15.  What [extractXml] returns is trimmed: trimming it again changes
    nothing, and it neither begins nor ends with a white-space character. *)
Theorem extractXml_result_is_trimmed (text tag : jsstring) :
  trim (extractXml text tag) = extractXml text tag
  /\ (forall c rest, extractXml text tag = c :: rest -> isWhiteSpace c = false)
  /\ (forall front c, extractXml text tag = front ++ [c] -> isWhiteSpace c = false).
Proof.
  unfold extractXml. destruct (String_match text (extractXml_regex tag)) as [m |].
  - destruct (m !! 1) as [content |].
    + split; [apply trim_idempotent |]. split; [apply trim_head | apply trim_last].
    + split; [reflexivity |]. split; [discriminate | now intros [| ? ?] c].
  - split; [reflexivity |]. split; [discriminate | now intros [| ? ?] c].
Qed.

(** ** Generation and evaluation: reading two tags off one answer *)

Section Elsewhere.
Variable w : jsstring.

Local Abbreviation absent a b :=
  (forall j, j < length a -> starts true ("<"%char :: w) (drop j (a ++ b)) = false).

Lemma absent_plain a b : plain a -> absent a b.
Proof.
  intros Ha. induction Ha as [| c a Hc _ IH]; intros j Hj; [cbn in Hj; lia |].
  destruct j as [| j]; cbn [drop app].
  - now apply starts_lt_plain.
  - apply IH. cbn in Hj. lia.
Qed.

Lemma absent_tag w0 t b :
  ci_eq ("<"%char :: w0) t -> canon "<" ∉ map canon w0 ->
  clash (map canon ("<"%char :: w)) (map canon ("<"%char :: w0)) = true ->
  absent t b.
Proof.
  intros Hci Hnot Hclash. destruct (ci_eq_tag _ _ Hci Hnot) as [t' [-> Ht']].
  intros [| j] Hj.
  - rewrite drop_0, starts_codes, map_app, Hci. now apply prefix_codes_clash.
  - rewrite <- app_comm_cons. cbn [drop]. apply absent_plain; [exact Ht' | cbn in Hj; lia].
Qed.

Lemma absent_app a1 a2 b :
  absent a1 (a2 ++ b) -> absent a2 b -> absent (a1 ++ a2) b.
Proof.
  intros H1 H2 j Hj. rewrite length_app in Hj. rewrite <- app_assoc.
  destruct (decide (j < length a1)) as [Hlt | Hge]; [now apply H1 |].
  replace j with (length a1 + (j - length a1)) by lia.
  rewrite <- drop_drop, drop_app_length. apply H2. lia.
Qed.

End Elsewhere.

(** The extract of a tag whose opening tag does not begin anywhere in the
    text in front of it. *)
Lemma extractXml_behind tag pre opening content closing post :
  ci_eq (open_tag tag) opening -> ci_eq (close_tag tag) closing ->
  (forall j, j < length pre ->
     starts true (open_tag tag) (drop j (pre ++ opening ++ content ++ closing ++ post)) = false) ->
  plain content -> content <> [] ->
  extractXml (pre ++ opening ++ content ++ closing ++ post) tag = trim content.
Proof.
  intros Ho Hc Hpre Hcontent Hne. rewrite extractXml_scan.
  unfold between_first_nonempty_pair.
  rewrite (find_skip _ _ _ _ Hpre), (find_here _ _ _ (starts_ci _ _ _ Ho)).
  cbn [fmap option_fmap option_map]. rewrite Nat.add_0_r.
  pose proof (ci_eq_length _ _ Ho) as Hlen.
  rewrite <- drop_drop, drop_app_length, <- Hlen, drop_app_length.
  destruct content as [| c body]; [contradiction |]. cbn [app].
  apply Forall_cons in Hcontent as [_ Hbody].
  change (close_tag tag) with ("<"%char :: "/"%char :: tag ++ lit ">") in *.
  rewrite (find_behind_plain _ _ _ Hbody) by (now apply starts_ci).
  now rewrite take_app_length.
Qed.

(** Two fields in one answer, the second tag clashing with the first. *)
Lemma extractXml_two_fields tagA tagB pre oA a cA mid oB b cB post :
  ci_eq (open_tag tagA) oA -> ci_eq (close_tag tagA) cA ->
  ci_eq (open_tag tagB) oB -> ci_eq (close_tag tagB) cB ->
  canon "<" ∉ map canon (tagA ++ lit ">") ->
  canon "<" ∉ map canon ("/"%char :: tagA ++ lit ">") ->
  clash (map canon (open_tag tagB)) (map canon (open_tag tagA)) = true ->
  clash (map canon (open_tag tagB)) (map canon (close_tag tagA)) = true ->
  plain pre -> plain a -> plain mid -> plain b -> a <> [] -> b <> [] ->
  extractXml (pre ++ oA ++ a ++ cA ++ mid ++ oB ++ b ++ cB ++ post) tagA = trim a
  /\ extractXml (pre ++ oA ++ a ++ cA ++ mid ++ oB ++ b ++ cB ++ post) tagB = trim b.
Proof.
  intros HoA HcA HoB HcB HnA HnA' Hclash Hclash' Hpre Ha Hmid Hb Hane Hbne. split.
  - apply extractXml_behind; try assumption.
    now apply (absent_plain (tagA ++ lit ">")).
  - replace (pre ++ oA ++ a ++ cA ++ mid ++ oB ++ b ++ cB ++ post)
      with ((pre ++ oA ++ a ++ cA ++ mid) ++ oB ++ b ++ cB ++ post)
      by (now rewrite <- !app_assoc).
    apply extractXml_behind; try assumption.
    change (open_tag tagB) with ("<"%char :: tagB ++ lit ">") in *.
    apply absent_app; [now apply absent_plain |].
    apply absent_app; [now apply (absent_tag _ (tagA ++ lit ">")) |].
    apply absent_app; [now apply absent_plain |].
    apply absent_app; [now apply (absent_tag _ ("/"%char :: tagA ++ lit ">")) |].
    now apply absent_plain.
Qed.

Ltac not_a_tag_start :=
  let H := fresh in
  intros H; apply list_elem_of_In in H; vm_compute in H;
  repeat (destruct H as [H | H]; [discriminate H |]); exact H.

(** X23.  Reading an answer.  From an answer that holds the two tags, in
    any case, around fields without [<] that are not empty, behind and
    between text without [<], [generate] returns the trimmed thoughts and
    the trimmed response, and [evaluate] the trimmed evaluation and the
    trimmed feedback, after the one request each sends. *)
Theorem generate_and_evaluate_read_both_tags generateContent
    (prompt task context content : jsstring) (log : Log)
    (pre o1 field1 c1 mid o2 field2 c2 post : jsstring) :
  plain pre -> plain field1 -> plain mid -> plain field2 ->
  field1 <> [] -> field2 <> [] ->
  let answer := pre ++ o1 ++ field1 ++ c1 ++ mid ++ o2 ++ field2 ++ c2 ++ post in
  (ci_eq (lit "<thoughts>") o1 -> ci_eq (lit "</thoughts>") c1 ->
   ci_eq (lit "<response>") o2 -> ci_eq (lit "</response>") c2 ->
   answers generateContent log (generate_prompt prompt task context) answer ->
   generate generateContent prompt task context log
   = (log ++ [request (generate_prompt prompt task context)],
      Return (trim field1, trim field2)))
  /\ (ci_eq (lit "<evaluation>") o1 -> ci_eq (lit "</evaluation>") c1 ->
      ci_eq (lit "<feedback>") o2 -> ci_eq (lit "</feedback>") c2 ->
      answers generateContent log (evaluate_prompt prompt task content) answer ->
      evaluate generateContent prompt content task log
      = (log ++ [request (evaluate_prompt prompt task content)],
         Return (trim field1, trim field2))).
Proof.
  intros Hpre H1 Hmid H2 Hn1 Hn2 answer. split.
  - intros Ho1 Hc1 Ho2 Hc2 Ha.
    destruct (extractXml_two_fields (lit "thoughts") (lit "response")
                pre o1 field1 c1 mid o2 field2 c2 post) as [Et Er];
      try assumption; try reflexivity; try not_a_tag_start.
    rewrite generate_eq, (call_outcome_answers _ _ _ _ Ha). fold answer in Et, Er.
    now rewrite Et, Er.
  - intros Ho1 Hc1 Ho2 Hc2 Ha.
    destruct (extractXml_two_fields (lit "evaluation") (lit "feedback")
                pre o1 field1 c1 mid o2 field2 c2 post) as [Ee Ef];
      try assumption; try reflexivity; try not_a_tag_start.
    rewrite evaluate_eq, (call_outcome_answers _ _ _ _ Ha). fold answer in Ee, Ef.
    now rewrite Ee, Ef.
Qed.

(** An answer with both tags, the first in capitals, on lines of their own. *)
Lemma generate_and_evaluate_read_both_tags_witness :
  generate (scripted [inr (Some (lit "Here: " ++ lit "<THOUGHTS>" ++ lit " think " ++ lit "</THOUGHTS>"
                                 ++ nl ++ lit "<response>" ++ lit "done" ++ lit "</response>" ++ nl))])
    (lit "G") (lit "t") [] []
  = ([] ++ [request (generate_prompt (lit "G") (lit "t") [])],
     Return (trim (lit " think "), trim (lit "done"))).
Proof.
  assert (plain (lit "Here: ") /\ plain (lit " think ") /\ plain nl /\ plain (lit "done"))
    as [Hpre [H1 [Hmid H2]]] by (repeat split; repeat constructor; discriminate).
  destruct (generate_and_evaluate_read_both_tags
              (scripted [inr (Some (lit "Here: " ++ lit "<THOUGHTS>" ++ lit " think "
                                    ++ lit "</THOUGHTS>" ++ nl ++ lit "<response>" ++ lit "done"
                                    ++ lit "</response>" ++ nl))])
              (lit "G") (lit "t") [] [] []
              (lit "Here: ") (lit "<THOUGHTS>") (lit " think ") (lit "</THOUGHTS>") nl
              (lit "<response>") (lit "done") (lit "</response>") nl
              Hpre H1 Hmid H2 ltac:(discriminate) ltac:(discriminate)) as [H _].
  apply H; try reflexivity. split; [reflexivity | discriminate].
Defined.

(** ** Replacing with a global pattern *)

Section ReplaceFacts.
Variable R : RegExp.
Hypothesis R_global : global R = true.
Hypothesis R_never_empty : never_empty (ignoreCase R) (dotAll R) (source R).

(** A pattern that matches nowhere leaves the text as it is. *)
Lemma String_replace_no_match S v :
  search (ignoreCase R) (dotAll R) (source R) 0 S = None -> String_replace S R v = S.
Proof.
  intros Hs. unfold String_replace. rewrite R_global.
  replace (length S + 2) with (Datatypes.S (length S + 1)) by lia. cbn [exec_all].
  pose proof (exec_global R R_global R_never_empty S 0 ltac:(lia)) as He.
  rewrite drop_0, Hs in He. now rewrite He.
Qed.

Variable v : jsstring.
Variable sub : jsstring -> jsstring.

Lemma replace_matches_exec_all fuel S pos :
  pos <= length S ->
  (forall r, GetSubstitution r S v = sub (matched r)) ->
  replace_matches S v pos (exec_all fuel R S pos)
  = rewritten fuel (ignoreCase R) (dotAll R) (source R) sub (drop pos S).
Proof.
  intros Hle Hsub. revert pos Hle.
  induction fuel as [| fuel IH]; intros pos Hle; [reflexivity |].
  cbn [exec_all rewritten]. pose proof (exec_global R R_global R_never_empty S pos Hle) as He.
  destruct (search (ignoreCase R) (dotAll R) (source R) 0 (drop pos S)) as [r |].
  - destruct He as [r' [-> [Hm [Hc [Hi [Hb [Ha Hne]]]]]]].
    replace (truthy (matched r')) with true
      by (rewrite Hm; destruct (matched r); [now contradiction Hne | reflexivity]).
    cbn [replace_matches]. rewrite bool_decide_true by lia.
    rewrite IH by exact Hb. rewrite Hsub, Hm, Ha, Hm. do 2 f_equal. lia.
  - now rewrite He.
Qed.

Lemma String_replace_rewritten S :
  (forall r, GetSubstitution r S v = sub (matched r)) ->
  String_replace S R v
  = rewritten (length S + 2) (ignoreCase R) (dotAll R) (source R) sub S.
Proof.
  intros Hsub. unfold String_replace. rewrite R_global.
  rewrite (replace_matches_exec_all _ _ 0) by (try exact Hsub; lia). now rewrite drop_0.
Qed.

End ReplaceFacts.

(** Putting back what was matched changes nothing. *)
Lemma rewritten_same fuel ic dotall p s : rewritten fuel ic dotall p (fun m => m) s = s.
Proof.
  revert s. induction fuel as [| fuel IH]; intros s; [reflexivity |]. cbn [rewritten].
  destruct (search ic dotall p 0 s) as [r |] eqn:Hs; [| reflexivity].
  destruct (search_Some _ _ _ _ _ _ Hs) as [k [Hi [_ [Hm _]]]]. cbn in Hi. subst k.
  rewrite IH, <- (matcher_split _ _ _ _ _ _ _ Hm). apply take_drop.
Qed.

(** *** The patterns of replacement texts *)

Lemma code_dollar c : (code c =? 36)%N = true -> c = "$"%char.
Proof.
  intros H. apply N.eqb_eq in H. rewrite <- (ascii_N_embedding c).
  unfold code in H. now rewrite H.
Qed.

Lemma GetSubstitution_plain r S v1 t :
  no_dollar v1 -> GetSubstitution r S (v1 ++ t) = v1 ++ GetSubstitution r S t.
Proof.
  intros H. induction H as [| c v1 Hc _ IH]; [reflexivity |].
  cbn [app GetSubstitution]. destruct (code c =? 36)%N eqn:Hd.
  - now apply code_dollar in Hd.
  - cbn [negb]. now rewrite IH.
Qed.

Lemma GetSubstitution_no_dollar r S v : no_dollar v -> GetSubstitution r S v = v.
Proof.
  intros H. rewrite <- (app_nil_r v) at 1. rewrite (GetSubstitution_plain _ _ _ _ H).
  apply app_nil_r.
Qed.

(** *** Literal patterns *)

Lemma search_literal ic dotall w s :
  search ic dotall (literal w) 0 s
  = match find ic w s with
    | Some n => Some {| index := n; matched := take (length w) (drop n s); captures := [];
                        after := drop (length w) (drop n s) |}
    | None => None
    end.
Proof.
  induction s as [| c s IH]; cbn [search find]; rewrite matcher_literal_only.
  - now destruct (starts ic w []).
  - destruct (starts ic w (c :: s)); [reflexivity |].
    rewrite search_shift, IH. now destruct (find ic w s).
Qed.

Lemma literal_never_empty ic dotall w : w <> [] -> never_empty ic dotall (literal w).
Proof.
  intros Hw s mt caps rest. rewrite matcher_literal_only.
  destruct (starts ic w s) eqn:Hs; [| discriminate]. intros [= <- _ _].
  apply starts_length in Hs. destruct w; [contradiction |]. destruct s; [cbn in Hs; lia |].
  discriminate.
Qed.

Lemma starts_exact_app w s : starts false w (w ++ s) = true.
Proof.
  induction w as [| a w IH]; [reflexivity |]. cbn [app starts]. rewrite IH.
  now rewrite (proj2 (same_char_exact a a) eq_refl).
Qed.

Lemma starts_brace w c s : c <> "{"%char -> starts false ("{"%char :: w) (c :: s) = false.
Proof.
  intros Hc. cbn [starts]. destruct (same_char false "{" c) eqn:H; [| reflexivity].
  apply same_char_exact in H. congruence.
Qed.

Lemma find_without_brace w a : no_open_brace a -> find false ("{"%char :: w) a = None.
Proof.
  intros Ha. induction Ha as [| c a Hc _ IH]; [reflexivity |].
  cbn [find]. now rewrite (starts_brace _ _ _ Hc), IH.
Qed.

Lemma find_behind_no_brace w a s :
  no_open_brace a -> find false ("{"%char :: w) (a ++ ("{"%char :: w) ++ s) = Some (length a).
Proof.
  intros Ha. induction Ha as [| c a Hc _ IH].
  - rewrite app_nil_l. apply find_here, starts_exact_app.
  - rewrite <- app_comm_cons. cbn [length find]. rewrite (starts_brace _ _ _ Hc).
    now rewrite IH.
Qed.

Lemma find_token key a s :
  no_open_brace a -> find false (token key) (a ++ token key ++ s) = Some (length a).
Proof. apply (find_behind_no_brace (key ++ lit "}")). Qed.

Lemma find_token_without_brace key a : no_open_brace a -> find false (token key) a = None.
Proof. apply (find_without_brace (key ++ lit "}")). Qed.

Lemma no_open_brace_no_placeholder s : no_open_brace s -> ~ has_placeholder s.
Proof.
  intros Hs [pre [name [post [-> _]]]]. apply Forall_app in Hs as [_ Hs].
  apply Forall_cons in Hs as [Hs _]. now contradiction Hs.
Qed.

Lemma no_open_brace_join sep pieces :
  no_open_brace sep -> Forall no_open_brace pieces -> no_open_brace (join sep pieces).
Proof.
  intros Hsep H. induction H as [| x pieces Hx Hp IH]; [constructor |].
  destruct pieces as [| y pieces]; [exact Hx |].
  change (join sep (x :: y :: pieces)) with (x ++ sep ++ join sep (y :: pieces)).
  unfold no_open_brace in *. rewrite !Forall_app. now repeat split.
Qed.

Lemma join_length sep pieces : sep <> [] -> length pieces <= length (join sep pieces) + 1.
Proof.
  intros Hsep. induction pieces as [| x pieces IH]; [cbn; lia |].
  destruct pieces as [| y pieces]; [cbn; lia |].
  change (join sep (x :: y :: pieces)) with (x ++ sep ++ join sep (y :: pieces)).
  rewrite !length_app. destruct sep; [contradiction |]. cbn [length] in *. lia.
Qed.

(** Replacing the token of a key between pieces without an opening brace. *)
Lemma rewritten_join key v fuel pieces :
  length pieces <= S fuel -> Forall no_open_brace pieces ->
  rewritten fuel false false (literal (token key)) (fun _ => v) (join (token key) pieces)
  = join v pieces.
Proof.
  revert pieces. induction fuel as [| fuel IH]; intros pieces Hlen Hp.
  - destruct pieces as [| x [| y pieces]]; [reflexivity | reflexivity | cbn in Hlen; lia].
  - cbn [rewritten]. rewrite search_literal.
    destruct pieces as [| x [| y pieces]].
    + reflexivity.
    + apply Forall_cons in Hp as [Hx _]. cbn [join].
      now rewrite (find_token_without_brace _ _ Hx).
    + apply Forall_cons in Hp as [Hx Hp].
      change (join (token key) (x :: y :: pieces))
        with (x ++ token key ++ join (token key) (y :: pieces)).
      change (join v (x :: y :: pieces)) with (x ++ v ++ join v (y :: pieces)).
      rewrite (find_token _ _ _ Hx). cbn [index matched after].
      rewrite drop_app_length, drop_app_length, take_app_length.
      rewrite IH by (try exact Hp; cbn [length] in *; lia). reflexivity.
Qed.

Lemma token_pattern_never_matches_empty key :
  never_empty (ignoreCase (token_pattern key)) (dotAll (token_pattern key))
    (source (token_pattern key)).
Proof. apply literal_never_empty. discriminate. Qed.

Lemma substitute_one template key value :
  substitute template [(key, value)] = String_replace template (placeholder_of_key key) value.
Proof. reflexivity. Qed.

Lemma formatPrompt_no_open_brace template kwargs :
  plain_keys kwargs ->
  no_open_brace (substitute template kwargs) ->
  formatPrompt template kwargs = inr (substitute template kwargs).
Proof.
  intros Hp H. destruct (formatPrompt_spec template kwargs Hp) as [[_ Hf] | [Hhas _]];
    [exact Hf |]. now apply no_open_brace_no_placeholder in Hhas.
Qed.

(** X16.  A template without an opening brace is returned as it is,
    whatever the mapping holds (for keys without regular-expression syntax
    characters): nothing is replaced and nothing is missing. *)
Theorem formatPrompt_leaves_brace_free_templates (template : jsstring) (kwargs : js_object) :
  plain_keys kwargs -> no_open_brace template ->
  formatPrompt template kwargs = inr template.
Proof.
  intros Hp Ht.
  assert (substitute template kwargs = template) as Hs.
  { unfold substitute. induction Hp as [| [key value] kwargs Hk _ IH]; [reflexivity |].
    cbn [fold_left fst snd]. cbn [fst] in Hk. rewrite (placeholder_of_key_plain _ Hk).
    rewrite (String_replace_no_match (token_pattern key) eq_refl
               (token_pattern_never_matches_empty key)).
    - exact IH.
    - cbn [ignoreCase dotAll source token_pattern]. rewrite search_literal.
      now rewrite (find_token_without_brace _ _ Ht). }
  rewrite formatPrompt_no_open_brace; rewrite ?Hs; [reflexivity | exact Hp | exact Ht].
Qed.

Lemma formatPrompt_leaves_brace_free_templates_witness :
  formatPrompt (lit "Summarise the text }") [(lit "task", lit "T"); (lit "tone", lit "{x}")]
  = inr (lit "Summarise the text }").
Proof.
  apply (formatPrompt_leaves_brace_free_templates (lit "Summarise the text }")
           [(lit "task", lit "T"); (lit "tone", lit "{x}")]).
  - repeat constructor.
  - repeat constructor; discriminate.
Defined.

(** X17.  Values are read as replacement patterns.  A value is not put in
    as it stands: the two characters [$&] stand for the token itself, so
    that a key whose value is [$&] changes nothing and counts as missing
    when the template holds its token, and a doubled dollar sign is put in
    as a single one. *)
Theorem formatPrompt_expands_dollar_patterns (key : jsstring) :
  plain_key key = true ->
  (forall template, formatPrompt template [(key, lit "$&")] = formatPrompt template [])
  /\ (forall v1 v2 pieces,
         no_dollar v1 -> no_dollar v2 -> no_open_brace v1 -> no_open_brace v2 ->
         Forall no_open_brace pieces ->
         formatPrompt (join (token key) pieces) [(key, v1 ++ lit "$$" ++ v2)]
         = inr (join (v1 ++ lit "$" ++ v2) pieces)).
Proof.
  intros Hk. split.
  - intros template.
    assert (replace_placeholders template [(key, lit "$&")] = inr template) as Hs.
    { cbn [replace_placeholders]. rewrite (plain_key_compiles _ Hk).
      rewrite (placeholder_of_key_plain _ Hk).
      rewrite (String_replace_rewritten (token_pattern key) eq_refl
                 (token_pattern_never_matches_empty key) (lit "$&") (fun m => m))
        by (intros r; cbn; apply app_nil_r).
      now rewrite rewritten_same. }
    unfold formatPrompt. now rewrite Hs.
  - intros v1 v2 pieces Hd1 Hd2 Hb1 Hb2 Hp.
    assert (substitute (join (token key) pieces) [(key, v1 ++ lit "$$" ++ v2)]
            = join (v1 ++ lit "$" ++ v2) pieces) as Hs.
    { rewrite substitute_one. rewrite (placeholder_of_key_plain _ Hk).
      rewrite (String_replace_rewritten (token_pattern key) eq_refl
                 (token_pattern_never_matches_empty key)
                 (v1 ++ lit "$$" ++ v2) (fun _ => v1 ++ lit "$" ++ v2)).
      - apply rewritten_join; [| exact Hp].
        pose proof (join_length (token key) pieces ltac:(discriminate)). lia.
      - intros r. rewrite (GetSubstitution_plain _ _ _ _ Hd1). f_equal.
        cbn. f_equal. now apply GetSubstitution_no_dollar. }
    rewrite formatPrompt_no_open_brace; rewrite ?Hs;
      [reflexivity | constructor; [exact Hk | constructor] |].
    apply no_open_brace_join; [| exact Hp].
    unfold no_open_brace in *. rewrite !Forall_app. repeat split; try assumption.
    repeat constructor; discriminate.
Qed.

(** The value [$&] for the only key of the template: the key is reported
    as missing. *)
Lemma formatPrompt_expands_dollar_patterns_witness :
  formatPrompt (lit "Plan {task}") [(lit "task", lit "$&")]
  = inl (missing_variables [lit "{task}"]).
Proof.
  destruct (formatPrompt_expands_dollar_patterns (lit "task") eq_refl) as [H _].
  rewrite H. reflexivity.
Defined.

(** ** The tokens a text is left with *)

Lemma search_here ic dotall p i s mt caps rest :
  matcher ic dotall p s = Some (mt, caps, rest) ->
  search ic dotall p i s
  = Some {| index := i; matched := mt; captures := caps; after := rest |}.
Proof. intros H. destruct s; cbn [search]; now rewrite H. Qed.

Lemma placeholder_needs_brace c s :
  c <> "{"%char -> matcher false false (source remaining_placeholder) (c :: s) = None.
Proof.
  intros Hc. destruct (matcher _ _ _ _) as [[[mt caps] rest] |] eqn:Hm; [| reflexivity].
  apply matcher_token_inv in Hm as [name [_ [_ [Hs _]]]].
  injection Hs as Hs _. congruence.
Qed.

Lemma search_first_token first name post :
  no_open_brace first -> is_name name ->
  search false false (source remaining_placeholder) 0 (first ++ token name ++ post)
  = Some {| index := length first; matched := token name; captures := []; after := post |}.
Proof.
  intros Hf Hn. induction Hf as [| c first Hc _ IH].
  - rewrite app_nil_l. apply search_here. now apply matcher_token.
  - rewrite <- app_comm_cons. cbn [search]. rewrite (placeholder_needs_brace _ _ Hc).
    now rewrite search_shift, IH.
Qed.

Lemma search_no_token first :
  no_open_brace first -> search false false (source remaining_placeholder) 0 first = None.
Proof.
  intros Hf. destruct (search _ _ _ _ _) as [r |] eqn:Hs; [| reflexivity].
  exfalso. apply (no_open_brace_no_placeholder _ Hf). apply search_placeholder. congruence.
Qed.

Lemma scan_with_tokens fuel first rest :
  length rest <= fuel -> no_open_brace first ->
  Forall (fun nr => is_name (fst nr) /\ no_open_brace (snd nr)) rest ->
  scan fuel false false (source remaining_placeholder) (with_tokens first rest)
  = map (fun nr => (token (fst nr), [])) rest.
Proof.
  revert fuel first. induction rest as [| [name piece] rest IH]; intros fuel first Hlen Hf Hr.
  - cbn [with_tokens map]. rewrite app_nil_r. destruct fuel as [| fuel]; [reflexivity |].
    cbn [scan]. now rewrite search_no_token.
  - destruct fuel as [| fuel]; [cbn in Hlen; lia |].
    apply Forall_cons in Hr as [[Hn Hp] Hr]. cbn [fst snd] in Hn, Hp.
    cbn [with_tokens scan map fst]. rewrite (search_first_token _ _ _ Hf Hn).
    cbn [matched captures after]. rewrite IH; [reflexivity | cbn in Hlen; lia | exact Hp | exact Hr].
Qed.

Lemma with_tokens_length first rest : length rest <= length (with_tokens first rest).
Proof.
  revert first. induction rest as [| [name piece] rest IH]; intros first; [cbn; lia |].
  cbn [with_tokens length]. rewrite !length_app. specialize (IH piece).
  unfold token at 1. rewrite !length_app. cbn [length lit list_ascii_of_string]. lia.
Qed.

(** X18.  The error names every token, in order.  When the text the
    replacement loop leaves is made of pieces without an opening brace
    with tokens between them, the missing-variable error lists exactly
    these tokens, in the order they stand in the text, one entry per
    occurrence, separated by a comma and a space. *)
Theorem formatPrompt_error_lists_the_tokens_in_order (template : jsstring)
    (kwargs : js_object) (first : jsstring) (rest : list (jsstring * jsstring)) :
  plain_keys kwargs ->
  substitute template kwargs = with_tokens first rest -> rest <> [] ->
  no_open_brace first ->
  Forall (fun nr => is_name (fst nr) /\ no_open_brace (snd nr)) rest ->
  formatPrompt template kwargs
  = inl (Error (lit "Missing required prompt variable(s): "
                ++ join (lit ", ") (map (fun nr => token (fst nr)) rest))).
Proof.
  intros Hp Hsub Hne Hf Hr. unfold formatPrompt.
  rewrite (replace_placeholders_plain _ _ Hp), Hsub.
  pose proof (remaining_placeholder_scan (with_tokens first rest)) as Hscan.
  rewrite scan_with_tokens in Hscan;
    [| pose proof (with_tokens_length first rest); lia | exact Hf | exact Hr].
  rewrite map_map in Hscan. cbn [fst] in Hscan.
  unfold String_match. change (global remaining_placeholder) with true. cbv iota.
  destruct (exec_all _ remaining_placeholder _ 0) as [| m ms].
  - destruct rest; [contradiction | discriminate].
  - now rewrite Hscan.
Qed.

(** A template with three tokens, two of them the same, and no mapping. *)
Lemma formatPrompt_error_lists_the_tokens_in_order_witness :
  formatPrompt (lit "Use {a} and {b}, then {a}.") []
  = inl (Error (lit "Missing required prompt variable(s): {a}, {b}, {a}")).
Proof.
  apply (formatPrompt_error_lists_the_tokens_in_order (lit "Use {a} and {b}, then {a}.") []
           (lit "Use ") [(lit "a", lit " and "); (lit "b", lit ", then "); (lit "a", lit ".")]).
  - constructor.
  - reflexivity.
  - discriminate.
  - repeat constructor; discriminate.
  - repeat constructor; discriminate.
Defined.

(** ** Templates as segments: what formatting amounts to *)

Lemma plain_key_no_brace key : plain_key key = true -> Forall (fun c => brace c = false) key.
Proof.
  unfold plain_key. induction key as [| c key IH]; [constructor |]. cbn [forallb].
  intros [Hc Hk]%andb_true_iff. constructor; [| now apply IH].
  destruct (brace c) eqn:Hb; [| reflexivity]. exfalso.
  unfold brace in Hb. cbn [existsb] in Hb. rewrite orb_false_r in Hb.
  apply orb_true_iff in Hb as [Hb | Hb]; apply same_char_exact in Hb; subst c; discriminate.
Qed.

Lemma no_brace_open c : brace c = false -> c <> "{"%char.
Proof. intros H ->. discriminate. Qed.

Lemma no_brace_close c : brace c = false -> c <> "}"%char.
Proof. intros H ->. discriminate. Qed.

Lemma same_char_false a c : a <> c -> same_char false a c = false.
Proof.
  intros H. destruct (same_char false a c) eqn:Hs; [| reflexivity].
  now apply same_char_exact in Hs.
Qed.

Lemma same_char_true a : same_char false a a = true.
Proof. now apply same_char_exact. Qed.

(** Behind the opening brace, the token of a key is that of a name only
    when the name is the key. *)
Lemma starts_closing key name rest :
  Forall (fun c => brace c = false) key -> Forall (fun c => brace c = false) name ->
  starts false (key ++ lit "}") (name ++ lit "}" ++ rest) = eqb name key.
Proof.
  intros Hk. revert name. induction Hk as [| a key Ha _ IH]; intros name Hn.
  - destruct Hn as [| c name Hc _].
    + cbn. now rewrite same_char_true.
    + cbn [app starts lit list_ascii_of_string].
      rewrite (same_char_false _ _ (not_eq_sym (no_brace_close _ Hc))). reflexivity.
  - destruct Hn as [| c name Hc Hn].
    + cbn [app starts lit list_ascii_of_string].
      rewrite (same_char_false _ _ (no_brace_close _ Ha)). reflexivity.
    + cbn [app starts]. rewrite (IH name Hn). unfold eqb.
      destruct (decide (a = c)) as [-> | Hac].
      * rewrite same_char_true. cbn [andb].
        destruct (decide (name = key)) as [-> | Hne].
        -- now rewrite !bool_decide_eq_true_2.
        -- rewrite !bool_decide_eq_false_2; [reflexivity | congruence | exact Hne].
      * rewrite (same_char_false _ _ Hac). cbn [andb].
        rewrite bool_decide_eq_false_2; [reflexivity | congruence].
Qed.

Lemma starts_token key name rest :
  Forall (fun c => brace c = false) key -> is_name name ->
  starts false (token key) (token name ++ rest) = eqb name key.
Proof.
  intros Hk [_ Hn]. unfold token. rewrite <- !app_assoc.
  change (lit "{" ++ ?x) with ("{"%char :: x). cbn [starts].
  rewrite same_char_true. cbn [andb]. now apply starts_closing.
Qed.

Lemma starts_within_plain w x s j :
  no_open_brace x -> j < length x -> starts false ("{"%char :: w) (drop j (x ++ s)) = false.
Proof.
  intros Hx. revert j. induction Hx as [| c x Hc _ IH]; intros j Hj; [cbn in Hj; lia |].
  destruct j as [| j].
  - rewrite drop_0, <- app_comm_cons. now apply starts_brace.
  - rewrite <- app_comm_cons. cbn [drop]. apply IH. cbn in Hj. lia.
Qed.

Section Filling.
Variables key value : jsstring.
Hypothesis key_no_brace : Forall (fun c => brace c = false) key.

Local Abbreviation replaced fuel :=
  (rewritten fuel false false (literal (token key)) (fun _ => value)).

Lemma rewritten_skip fuel t s :
  (forall j, j < length t -> starts false (token key) (drop j (t ++ s)) = false) ->
  replaced fuel (t ++ s) = t ++ replaced fuel s.
Proof.
  intros H. destruct fuel as [| fuel]; [reflexivity |]. cbn [rewritten].
  rewrite !search_literal, (find_skip _ _ _ _ H).
  destruct (find false (token key) s) as [n |]; cbn [fmap option_fmap option_map];
    [| reflexivity].
  cbn [index matched after]. rewrite take_app_add, <- !drop_drop, drop_app_length.
  now rewrite <- app_assoc.
Qed.

Lemma rewritten_text fuel t s :
  no_open_brace t -> replaced fuel (t ++ s) = t ++ replaced fuel s.
Proof.
  intros Ht. apply rewritten_skip. intros j Hj.
  now apply (starts_within_plain (key ++ lit "}")).
Qed.

Lemma rewritten_other fuel name s :
  is_name name -> eqb name key = false ->
  replaced fuel (token name ++ s) = token name ++ replaced fuel s.
Proof.
  intros Hn Hk. apply rewritten_skip. intros [| j] Hj.
  - rewrite drop_0, starts_token by assumption. exact Hk.
  - change (token name ++ s) with ("{"%char :: (name ++ lit "}") ++ s). cbn [drop].
    apply (starts_within_plain (key ++ lit "}")).
    + destruct Hn as [_ Hn]. apply Forall_app. split.
      * eapply Forall_impl; [exact Hn |]. intros c. apply no_brace_open.
      * repeat constructor. discriminate.
    + unfold token in Hj. rewrite !length_app in *. cbn [length lit list_ascii_of_string] in *.
      lia.
Qed.

Lemma rewritten_key fuel s :
  replaced (S fuel) (token key ++ s) = value ++ replaced fuel s.
Proof.
  cbn [rewritten]. rewrite search_literal, (find_here _ _ _ (starts_exact_app _ _)).
  cbn [index matched after]. now rewrite !drop_0, drop_app_length.
Qed.

Lemma rewritten_segments fuel segs :
  length (holes segs) <= fuel -> Forall well_segmented segs ->
  replaced fuel (render_segments segs) = render_segments (map (fill key value) segs).
Proof.
  intros Hlen Hw. revert fuel Hlen.
  induction Hw as [| [text | name] segs Hg _ IH]; intros fuel Hlen.
  - destruct fuel; reflexivity.
  - unfold render_segments in *. cbn [map concat render_segment fill].
    rewrite (rewritten_text _ _ _ Hg). f_equal. now apply IH.
  - unfold render_segments in *. cbn [map concat render_segment fill].
    cbn [holes omap list_omap] in Hlen. fold (holes segs) in Hlen. cbn [length] in Hlen.
    destruct (eqb name key) eqn:Hk.
    + apply bool_decide_eq_true in Hk. subst name.
      destruct fuel as [| fuel]; [lia |].
      rewrite rewritten_key. cbn [render_segment]. f_equal. apply IH. lia.
    + rewrite (rewritten_other _ _ _ Hg Hk). cbn [render_segment]. f_equal. apply IH. lia.
Qed.

End Filling.

Lemma holes_length segs : length (holes segs) <= length (render_segments segs).
Proof.
  induction segs as [| [text | name] segs IH]; [cbn; lia | |].
  - unfold render_segments in *. cbn [map concat render_segment]. rewrite length_app.
    change (holes (Text text :: segs)) with (holes segs). lia.
  - unfold render_segments in *. cbn [map concat render_segment]. rewrite length_app.
    change (holes (Hole name :: segs)) with (name :: holes segs). cbn [length].
    unfold token. rewrite !length_app. cbn [length lit list_ascii_of_string]. lia.
Qed.

Lemma fill_well_segmented key value segs :
  no_open_brace value -> Forall well_segmented segs ->
  Forall well_segmented (map (fill key value) segs).
Proof.
  intros Hv Hw. apply Forall_fmap. eapply Forall_impl; [exact Hw |].
  intros [text | name] Hg; cbn [fill compose]; [exact Hg |].
  now destruct (eqb name key).
Qed.

Lemma substitute_segments kwargs segs :
  plain_keys kwargs ->
  Forall (fun kv => no_dollar (snd kv) /\ no_open_brace (snd kv)) kwargs ->
  Forall well_segmented segs ->
  substitute (render_segments segs) kwargs = render_segments (fill_all kwargs segs)
  /\ Forall well_segmented (fill_all kwargs segs).
Proof.
  intros Hp Hv. revert segs. unfold substitute, fill_all.
  induction Hv as [| [key value] kwargs [Hd Hb] _ IH]; intros segs Hw; [now split |].
  apply Forall_cons in Hp as [Hkey Hp]. cbn [fst snd] in Hkey, Hd, Hb.
  cbn [fold_left fst snd]. rewrite (placeholder_of_key_plain _ Hkey).
  rewrite (String_replace_rewritten (token_pattern key) eq_refl
             (token_pattern_never_matches_empty key) value (fun _ => value))
    by (intros r; now apply GetSubstitution_no_dollar).
  cbn [ignoreCase dotAll source token_pattern].
  rewrite (rewritten_segments key value (plain_key_no_brace _ Hkey));
    [| pose proof (holes_length segs); lia | exact Hw].
  apply IH; [exact Hp |]. now apply fill_well_segmented.
Qed.

Lemma render_without_holes segs :
  Forall well_segmented segs -> holes segs = [] -> no_open_brace (render_segments segs).
Proof.
  intros Hw. induction Hw as [| [text | name] segs Hg _ IH]; [constructor | |].
  - intros Hh. unfold render_segments, no_open_brace in *. cbn [map concat render_segment].
    apply Forall_app. split; [exact Hg | now apply IH].
  - discriminate.
Qed.

Lemma search_skip_plain t s :
  no_open_brace t ->
  search false false (source remaining_placeholder) 0 (t ++ s)
  = (fun r => {| index := length t + index r; matched := matched r; captures := captures r;
                 after := after r |})
    <$> search false false (source remaining_placeholder) 0 s.
Proof.
  intros Ht. induction Ht as [| c t Hc _ IH].
  - cbn [app length]. destruct (search _ _ _ _ _) as [[i mt caps rest] |]; reflexivity.
  - rewrite <- app_comm_cons. cbn [search]. rewrite (placeholder_needs_brace _ _ Hc).
    rewrite search_shift, IH.
    destruct (search _ _ _ _ s) as [[i mt caps rest] |]; reflexivity.
Qed.

Lemma scan_segments fuel segs :
  length (holes segs) <= fuel -> Forall well_segmented segs ->
  scan fuel false false (source remaining_placeholder) (render_segments segs)
  = map (fun name => (token name, [])) (holes segs).
Proof.
  intros Hlen Hw. revert fuel Hlen.
  induction Hw as [| [text | name] segs Hg _ IH]; intros fuel Hlen.
  - destruct fuel; reflexivity.
  - change (holes (Text text :: segs)) with (holes segs) in *. rewrite <- (IH fuel Hlen).
    unfold render_segments. cbn [map concat render_segment].
    destruct fuel as [| fuel]; [reflexivity |]. cbn [scan].
    rewrite (search_skip_plain _ _ Hg).
    now destruct (search _ _ _ _ _) as [[i mt caps rest] |].
  - change (holes (Hole name :: segs)) with (name :: holes segs) in *.
    destruct fuel as [| fuel]; [cbn in Hlen; lia |].
    unfold render_segments in *. cbn [map concat render_segment scan].
    rewrite (search_here _ _ _ _ _ _ _ _ (matcher_token name _ Hg)).
    cbn [matched captures after]. rewrite IH by (cbn in Hlen; lia). reflexivity.
Qed.

(** X19.  What formatting amounts to.  For a template made of pieces of
    text without an opening brace and of tokens, keys without
    regular-expression syntax characters and values without a dollar sign
    or an opening brace: [formatPrompt] fills the tokens of the keys, every
    occurrence of each, and returns the text when no token is left;
    otherwise it throws the missing-variable error, which lists the tokens
    that are left, in order. *)
Theorem formatPrompt_fills_the_holes (segs : list segment) (kwargs : js_object) :
  plain_keys kwargs ->
  Forall (fun kv => no_dollar (snd kv) /\ no_open_brace (snd kv)) kwargs ->
  Forall well_segmented segs ->
  formatPrompt (render_segments segs) kwargs
  = match holes (fill_all kwargs segs) with
    | [] => inr (render_segments (fill_all kwargs segs))
    | names => inl (missing_variables (map token names))
    end.
Proof.
  intros Hp Hv Hw. destruct (substitute_segments kwargs segs Hp Hv Hw) as [Hs Hw'].
  destruct (holes (fill_all kwargs segs)) as [| name names] eqn:Hh.
  - rewrite formatPrompt_no_open_brace; rewrite ?Hs; [reflexivity | exact Hp |].
    now apply render_without_holes.
  - unfold formatPrompt. rewrite (replace_placeholders_plain _ _ Hp), Hs.
    pose proof (remaining_placeholder_scan (render_segments (fill_all kwargs segs))) as Hscan.
    rewrite scan_segments in Hscan;
      [| pose proof (holes_length (fill_all kwargs segs)); lia | exact Hw'].
    rewrite map_map in Hscan. cbn [fst] in Hscan. rewrite Hh in Hscan.
    unfold String_match. change (global remaining_placeholder) with true. cbv iota.
    destruct (exec_all _ remaining_placeholder _ 0) as [| m ms]; [discriminate |].
    now rewrite Hscan.
Qed.

(** A worker template with three tokens and a mapping for all of them. *)
Lemma formatPrompt_fills_the_holes_witness :
  formatPrompt (lit "Do {task_type}: {task_description} for {original_task}")
    [(lit "original_task", lit "a note"); (lit "task_type", lit "formal");
     (lit "task_description", lit "polite")]
  = inr (lit "Do formal: polite for a note").
Proof.
  apply (formatPrompt_fills_the_holes
           [Text (lit "Do "); Hole (lit "task_type"); Text (lit ": ");
            Hole (lit "task_description"); Text (lit " for "); Hole (lit "original_task")]
           [(lit "original_task", lit "a note"); (lit "task_type", lit "formal");
            (lit "task_description", lit "polite")]).
  - repeat constructor.
  - repeat constructor; discriminate.
  - repeat constructor; discriminate.
Defined.

(** ** Object literals with a spread *)

Section ObjectFacts.
Variable k : jsstring.

Lemma eqb_refl_key : eqb k k = true.
Proof. unfold eqb. now apply bool_decide_eq_true. Qed.

Lemma eqb_other k' : k' <> k -> eqb k k' = false /\ eqb k' k = false.
Proof. intros H. unfold eqb. split; apply bool_decide_eq_false; congruence. Qed.

Lemma own_app a b k' :
  own (a ++ b) k' = match own a k' with Some v => Some v | None => own b k' end.
Proof.
  induction a as [| [k0 v0] a IH]; [reflexivity |]. cbn [app own].
  now destruct (eqb k0 k').
Qed.

Lemma overwrite_here a b x v :
  own a k = None -> overwrite k v (a ++ (k, x) :: b) = a ++ (k, v) :: b.
Proof.
  induction a as [| [k0 v0] a IH]; cbn [app own overwrite].
  - now rewrite eqb_refl_key.
  - destruct (eqb k0 k); [discriminate |]. intros H. now rewrite IH.
Qed.

Lemma own_overwrite_other k' v a : k' <> k -> own (overwrite k' v a) k = own a k.
Proof.
  intros Hk. induction a as [| [k0 v0] a IH]; [reflexivity |]. cbn [overwrite own].
  destruct (eqb k0 k') eqn:H0; cbn [own].
  - apply bool_decide_eq_true in H0. subst k0.
    now rewrite (proj2 (eqb_other _ Hk)).
  - destruct (eqb k0 k); [reflexivity | exact IH].
Qed.

Lemma overwrite_app k' v a c :
  overwrite k' v (a ++ c)
  = match own a k' with
    | Some _ => overwrite k' v a ++ c
    | None => a ++ overwrite k' v c
    end.
Proof.
  induction a as [| [k0 v0] a IH]; [reflexivity |]. cbn [app overwrite own].
  destruct (eqb k0 k'); [reflexivity |]. rewrite IH. now destruct (own a k').
Qed.

(** Setting the key [k] where it stands. *)
Lemma set_here a b x v : own a k = None -> set (a ++ (k, x) :: b) k v = a ++ (k, v) :: b.
Proof.
  intros Ha. unfold set. rewrite own_app, Ha. cbn [own]. rewrite eqb_refl_key.
  now apply overwrite_here.
Qed.

Lemma insert_key_around k' v a b :
  k' <> k -> own a k = None ->
  exists a1 b1, own a1 k = None
                /\ forall x, insert_key k' v (a ++ (k, x) :: b) = a1 ++ (k, x) :: b1.
Proof.
  intros Hk. induction a as [| [k0 v0] a IH]; intros Ha.
  - cbn [app insert_key].
    destruct (array_index k') as [n |], (array_index k) as [n0 |];
      try destruct (n <? n0)%N.
    all: try (exists [(k', v)], b; split;
              [cbn [own]; now rewrite (proj2 (eqb_other _ Hk)) | reflexivity]).
    all: exists [], (insert_key k' v b); split; reflexivity.
  - cbn [own] in Ha. destruct (eqb k0 k) eqn:H0; [discriminate |].
    destruct (IH Ha) as [a1 [b1 [Ha1 Hi]]]. cbn [app insert_key].
    destruct (array_index k') as [n |], (array_index k0) as [n0 |];
      try destruct (n <? n0)%N.
    all: try (exists ((k', v) :: (k0, v0) :: a), b; split;
              [cbn [own]; now rewrite (proj2 (eqb_other _ Hk)), H0 | reflexivity]).
    all: exists ((k0, v0) :: a1), b1; split;
      [cbn [own]; now rewrite H0 | intros x; now rewrite Hi].
Qed.

(** Setting another key leaves [k] where it stands, whatever its value. *)
Lemma set_around k' v a b :
  k' <> k -> own a k = None ->
  exists a1 b1, own a1 k = None
                /\ forall x, set (a ++ (k, x) :: b) k' v = a1 ++ (k, x) :: b1.
Proof.
  intros Hk Ha. unfold set.
  assert (forall x, own (a ++ (k, x) :: b) k' = own (a ++ b) k') as Hown.
  { intros x. rewrite !own_app. cbn [own]. now rewrite (proj1 (eqb_other _ Hk)). }
  destruct (own (a ++ b) k') as [v0 |] eqn:Hab.
  - rewrite own_app in Hab. destruct (own a k') as [va |] eqn:Hak.
    + exists (overwrite k' v a), b. split; [now rewrite own_overwrite_other |].
      intros x. now rewrite Hown, overwrite_app, Hak.
    + exists a, (overwrite k' v b). split; [exact Ha |].
      intros x. rewrite Hown, overwrite_app, Hak. cbn [overwrite].
      now rewrite (proj1 (eqb_other _ Hk)).
  - destruct (insert_key_around k' v a b Hk Ha) as [a1 [b1 [Ha1 Hi]]].
    exists a1, b1. split; [exact Ha1 |]. intros x. now rewrite Hown.
Qed.

Lemma insert_key_split o :
  own o k = None ->
  exists a b, own a k = None /\ forall x, insert_key k x o = a ++ (k, x) :: b.
Proof.
  induction o as [| [k0 v0] o IH]; intros Ho.
  - exists [], []. split; reflexivity.
  - cbn [own] in Ho. destruct (eqb k0 k) eqn:H0; [discriminate |].
    destruct (IH Ho) as [a [b [Ha Hi]]]. cbn [insert_key].
    destruct (array_index k) as [n |], (array_index k0) as [n0 |];
      try destruct (n <? n0)%N.
    all: try (exists [], ((k0, v0) :: o); split; reflexivity).
    all: exists ((k0, v0) :: a), b; split;
      [cbn [own]; now rewrite H0 | intros x; now rewrite Hi].
Qed.

Lemma overwrite_split o v0 :
  own o k = Some v0 ->
  exists a b, own a k = None /\ forall x, overwrite k x o = a ++ (k, x) :: b.
Proof.
  induction o as [| [k0 v1] o IH]; [discriminate |]. cbn [own overwrite].
  destruct (eqb k0 k) eqn:H0.
  - intros _. apply bool_decide_eq_true in H0. subst k0.
    exists [], o. split; reflexivity.
  - intros Ho. destruct (IH Ho) as [a [b [Ha Hi]]].
    exists ((k0, v1) :: a), b. split; [cbn [own]; now rewrite H0 |].
    intros x. now rewrite Hi.
Qed.

Lemma set_split o :
  exists a b, own a k = None /\ forall x, set o k x = a ++ (k, x) :: b.
Proof.
  unfold set. destruct (own o k) as [v0 |] eqn:Ho.
  - now apply (overwrite_split o v0).
  - now apply insert_key_split.
Qed.

(** Once a later property has the key [k], the value [k] had before does
    not show in the object. *)
Lemma fold_set_forgets l a b x x' :
  own a k = None -> k ∈ map fst l ->
  fold_left (fun o kv => set o (fst kv) (snd kv)) l (a ++ (k, x) :: b)
  = fold_left (fun o kv => set o (fst kv) (snd kv)) l (a ++ (k, x') :: b).
Proof.
  revert a b. induction l as [| [k' v] l IH]; intros a b Ha Hin.
  - now apply elem_of_nil in Hin.
  - cbn [fold_left fst snd]. destruct (decide (k' = k)) as [-> | Hk].
    + now rewrite !set_here.
    + destruct (set_around k' v a b Hk Ha) as [a1 [b1 [Ha1 Hs]]]. rewrite !Hs.
      apply IH; [exact Ha1 |]. cbn [map fst] in Hin.
      apply elem_of_cons in Hin as [Hin | Hin]; [congruence | exact Hin].
Qed.

Lemma object_literal_forgets props1 props2 spread x x' :
  k ∈ map fst (props2 ++ spread) ->
  object_literal (props1 ++ (k, x) :: props2) spread
  = object_literal (props1 ++ (k, x') :: props2) spread.
Proof.
  intros Hin. unfold object_literal. rewrite <- !app_assoc, !fold_left_app.
  cbn [app fold_left fst snd].
  destruct (set_split (fold_left (fun o kv => set o (fst kv) (snd kv)) props1 []))
    as [a [b [Ha Hs]]].
  rewrite !Hs, <- !fold_left_app. now apply fold_set_forgets.
Qed.

End ObjectFacts.

Lemma map_async_ext {A B} (f g : A -> M B) l log :
  (forall x log', f x log' = g x log') -> map_async f l log = map_async g l log.
Proof.
  intros H. revert log. induction l as [| x l IH]; intros log; [reflexivity |].
  cbn [map_async]. rewrite H. destruct (g x log) as [log1 p]. now rewrite IH.
Qed.

(** X20.  The context goes over the task.  The fields of the context are
    spread behind [task] in the mapping of the decomposition prompt, and
    behind [original_task] in that of the worker prompt.  With a context
    that has a field [task], the decomposition prompt is formatted the
    same whatever the task argument is; with a field [original_task] as
    well, the whole of [process] is the same: the task argument is not
    used at all. *)
Theorem context_fields_override_the_task generateContent (this : FlexibleOrchestrator)
    (task task' : jsstring) (context : js_object) (order : list nat) (log : Log) :
  plain_keys context ->
  lit "task" ∈ map fst context ->
  formatPrompt (orchestratorPrompt this) (object_literal [(lit "task", task)] context)
  = formatPrompt (orchestratorPrompt this) (object_literal [(lit "task", task')] context)
  /\ (lit "original_task" ∈ map fst context ->
      process generateContent this task (Some context) order log
      = process generateContent this task' (Some context) order log).
Proof.
  intros _ Htask.
  pose proof (object_literal_forgets (lit "task") [] [] context task task' Htask) as Ho.
  cbn [app] in Ho. split; [now rewrite Ho |].
  intros Horiginal.
  assert (forall taskInfo log',
             worker generateContent this task context taskInfo log'
             = worker generateContent this task' context taskInfo log') as Hw.
  { intros taskInfo log'. unfold worker.
    pose proof (object_literal_forgets (lit "original_task") []
                  [(lit "task_type", type taskInfo);
                   (lit "task_description", description taskInfo)] context task task') as H.
    cbn [app] in H. rewrite H; [reflexivity |].
    apply elem_of_cons. right. apply elem_of_cons. now right. }
  unfold process, bind. change (default [] (Some context)) with context. rewrite Ho.
  destruct (lift _ log) as [log1 [orchestratorInput | e |]]; try reflexivity.
  destruct (llmCall1 generateContent orchestratorInput log1)
    as [log2 [orchestratorResponse | e |]]; try reflexivity.
  now rewrite (map_async_ext _ _ _ _ Hw).
Qed.

(** A context with both fields: two different task arguments give the
    same run. *)
Lemma context_fields_override_the_task_witness :
  process (scripted [says "<tasks><task><type>a</type><description>b</description></task></tasks>";
                     says "<response>r</response>"])
    sample_orchestrator (lit "first") (Some [(lit "task", lit "T"); (lit "original_task", lit "T")])
    [] []
  = process (scripted [says "<tasks><task><type>a</type><description>b</description></task></tasks>";
                       says "<response>r</response>"])
      sample_orchestrator (lit "second")
      (Some [(lit "task", lit "T"); (lit "original_task", lit "T")]) [] [].
Proof.
  destruct (context_fields_override_the_task
              (scripted [says "<tasks><task><type>a</type><description>b</description></task></tasks>";
                         says "<response>r</response>"])
              sample_orchestrator (lit "first") (lit "second")
              [(lit "task", lit "T"); (lit "original_task", lit "T")] [] []) as [_ H].
  - repeat constructor.
  - cbn [map fst]. apply elem_of_cons. now left.
  - apply H. cbn [map fst]. apply elem_of_cons. right. apply elem_of_cons. now left.
Defined.

(** ** Task Orchestrator: the requests of a run, the fields of a subtask *)

(** X21.  The requests of [process].  When the decomposition call fails,
    [process] is rejected with that failure after the one request, and no
    worker is started.  When [process] returns, the decomposition request
    was answered, the analysis returned is the extract of the answer, and
    behind the decomposition request the log holds one request per parsed
    subtask, in the order of the subtasks, each the worker template
    formatted for its subtask; there are as many results as subtasks. *)
Theorem process_sends_one_request_per_subtask generateContent
    (this : FlexibleOrchestrator) (task : jsstring) (context : option js_object)
    (order : list nat) (log : Log) :
  plain_keys (default [] context) ->
  (forall orchestratorInput e,
      formatPrompt (orchestratorPrompt this)
        (object_literal [(lit "task", task)] (default [] context)) = inr orchestratorInput ->
      call_outcome generateContent log orchestratorInput = Throw e ->
      process generateContent this task context order log
      = (log ++ [request orchestratorInput], Throw e))
  /\ (forall log' out,
         process generateContent this task context order log = (log', Return out) ->
         exists orchestratorInput response workerInputs ws,
           formatPrompt (orchestratorPrompt this)
             (object_literal [(lit "task", task)] (default [] context)) = inr orchestratorInput
           /\ answers generateContent log orchestratorInput response
           /\ analysis out = extractXml response (lit "analysis")
           /\ worker_results out = map Some ws
           /\ length ws = length (parse_tasks (extractXml response (lit "tasks")))
           /\ log' = log ++ request orchestratorInput :: map request workerInputs
           /\ Forall2 (fun taskInfo workerInput =>
                         formatPrompt (workerPrompt this)
                           (object_literal [(lit "original_task", task);
                                            (lit "task_type", type taskInfo);
                                            (lit "task_description", description taskInfo)]
                              (default [] context)) = inr workerInput)
                (parse_tasks (extractXml response (lit "tasks"))) workerInputs).
Proof.
  intros _. split; [intros orchestratorInput e; apply process_call_fails |].
  intros log' out.
  destruct (formatPrompt (orchestratorPrompt this)
              (object_literal [(lit "task", task)] (default [] context)))
    as [e | orchestratorInput] eqn:Hf.
  { rewrite (process_format_error _ _ _ _ _ _ _ Hf). discriminate. }
  destruct (call_outcome_cases generateContent orchestratorInput log)
    as [[response [Ha _]] | [e He]].
  - rewrite (process_eq _ _ _ _ _ _ _ _ Hf Ha). unfold dispatch.
    destruct (map_async _ _ _) as [log2 promises] eqn:Hm. cbn [fst snd].
    destruct (Promise_all promises order) as [vs | e |] eqn:Hp; intros [= <- <-].
    destruct (Promise_all_returns _ _ _ Hp) as [ws [-> ->]].
    destruct (workers_return _ _ _ _ _ _ _ _ Hm) as [workerInputs [-> [Hall Hlen]]].
    exists orchestratorInput, response, workerInputs, ws.
    split; [reflexivity |]. split; [exact Ha |]. split; [reflexivity |].
    split; [reflexivity |]. split; [exact Hlen |].
    split; [now rewrite <- app_assoc | exact Hall].
  - rewrite (process_call_fails _ _ _ _ _ _ _ _ Hf He). discriminate.
Qed.

(** The decomposition call fails: one request, no worker. *)
Lemma process_sends_one_request_per_subtask_witness :
  process (scripted [inl (Error (lit "quota"))]) sample_orchestrator (lit "a note") None [] []
  = ([] ++ [request (lit "Plan a note")], Throw (Error (lit "quota"))).
Proof.
  destruct (process_sends_one_request_per_subtask (scripted [inl (Error (lit "quota"))])
              sample_orchestrator (lit "a note") None [] []) as [H _]; [constructor |].
  apply (H (lit "Plan a note") (Error (lit "quota"))); reflexivity.
Defined.

(** ** The fields of a parsed subtask *)

Lemma push_task_trimmed subTasks m :
  Forall (fun t => trim (type t) = type t /\ trim (description t) = description t) subTasks ->
  Forall (fun t => trim (type t) = type t /\ trim (description t) = description t)
    (push_task subTasks m).
Proof.
  intros H. unfold push_task. destruct (_ && _); [| exact H].
  apply Forall_app. split; [exact H |]. constructor; [| constructor].
  cbn [type description]. split; apply trim_idempotent.
Qed.

Lemma parse_loop_trimmed fuel tasksXml lastIndex subTasks :
  Forall (fun t => trim (type t) = type t /\ trim (description t) = description t) subTasks ->
  Forall (fun t => trim (type t) = type t /\ trim (description t) = description t)
    (parse_loop fuel tasksXml lastIndex subTasks).
Proof.
  revert lastIndex subTasks. induction fuel as [| fuel IH]; intros lastIndex subTasks H;
    [exact H |].
  cbn [parse_loop]. destruct (exec taskRegex tasksXml lastIndex) as [[m |] lastIndex'];
    [| exact H].
  apply IH. now apply push_task_trimmed.
Qed.

(** X22.  The fields of the subtasks.  Whatever the tasks block holds, the
    type and the description of every parsed subtask are trimmed.  They
    can be empty all the same: the guard of the parse looks at the fields
    before they are trimmed, so a group whose type is white space only is
    kept, with the empty type. *)
Theorem parsed_fields_are_trimmed_and_can_be_empty :
  (forall tasksXml,
      Forall (fun t => trim (type t) = type t /\ trim (description t) = description t)
        (parse_tasks tasksXml))
  /\ (forall g,
         tags_ok g -> type_text g <> [] ->
         Forall (fun c => isWhiteSpace c = true) (type_text g) ->
         description_text g <> [] ->
         parse_tasks (render (Good g))
         = [{| type := []; description := trim (description_text g) |}]).
Proof.
  split.
  - intros tasksXml. unfold parse_tasks. apply parse_loop_trimmed. constructor.
  - intros g Hok Ht Hws Hd.
    pose proof (parse_tasks_items [Good g]) as H.
    unfold render_all in H. cbn [map concat] in H. rewrite app_nil_r in H.
    rewrite H.
    + rewrite tasks_of_good by assumption. now rewrite (proj2 (trim_nil _) Hws).
    + constructor; [exact Hok | constructor].
    + exact I.
Qed.

(** A group whose type is a single space. *)
Lemma parsed_fields_are_trimmed_and_can_be_empty_witness :
  parse_tasks (render (Good (simple_group " " "b")))
  = [{| type := []; description := trim (lit "b") |}].
Proof.
  destruct parsed_fields_are_trimmed_and_can_be_empty as [_ H].
  apply (H (simple_group " " "b")).
  - apply simple_group_ok; repeat constructor; discriminate.
  - discriminate.
  - repeat constructor.
  - discriminate.
Defined.
